(** * update_dark_mode.py: the dark-mode class rewriter

    A shallow embedding of [src/update_dark_mode.py] and the properties of
    its rule pipeline, its conditional write and its directory walk.

    Python [str] values are sequences of Unicode code points; they are
    modelled as [list N].  The only library behaviour the rules rely on
    is [re.sub] for patterns made of literal characters and the word
    boundary assertion, and [str.replace]; both are modelled as a
    left-to-right scan that replaces non-overlapping matches. *)

From Stdlib Require Import List NArith Bool Arith Lia String Ascii.
Import ListNotations.

Local Open Scope list_scope.

Set Default Proof Using "Type".

(** ** Text *)

Definition text := list N.

(** The code points of a literal written in the source. *)
Definition codes (s : string) : text :=
  map N_of_ascii (list_ascii_of_string s).

Fixpoint text_eqb (a b : text) : bool :=
  match a, b with
  | [], [] => true
  | x :: a', y :: b' => N.eqb x y && text_eqb a' b'
  | _, _ => false
  end.

(** [starts_with p s]: [s] begins with [p] ([str.startswith]). *)
Fixpoint starts_with (p s : text) : bool :=
  match p, s with
  | [], _ => true
  | x :: p', y :: s' => N.eqb x y && starts_with p' s'
  | _ :: _, [] => false
  end.

(** [ends_with p s]: [s] ends with [p] ([str.endswith]). *)
Definition ends_with (p s : text) : bool :=
  starts_with (rev p) (rev s).

(** Number of positions of [s] at which [tok] occurs (overlapping
    occurrences are all counted). *)
Fixpoint occurrences (tok s : text) : nat :=
  match s with
  | [] => 0
  | _ :: s' => (if starts_with tok s then 1 else 0) + occurrences tok s'
  end.

(** [tok] occurs somewhere in [s] (Python's [tok in s]). *)
Definition occurs (tok s : text) : Prop :=
  exists a b, s = a ++ tok ++ b.

(** The non-empty suffixes of [s], longest first. *)
Fixpoint tails (s : text) : list text :=
  match s with
  | [] => []
  | _ :: s' => s :: tails s'
  end.

(** One of the two texts begins the other: placed at the same position
    they agree as far as both reach. *)
Definition compat (a b : text) : bool :=
  starts_with a b || starts_with b a.

(** No occurrence of [x] can begin strictly inside an occurrence of [l]:
    no proper non-empty suffix of [l] agrees with [x]. *)
Definition apart_after (l x : text) : bool :=
  forallb (fun l' => negb (compat l' x)) (tails (tl l)).

(** Wherever a suffix of [t] meets a match of [l], the replacement [r]
    writes that suffix back. *)
Definition stable (l r t : text) : bool :=
  forallb (fun t' => implb (compat t' l) (starts_with t' r)) (tails t).

(** Stand-ins for the parameters of the development, used in the
    concrete runs at the end: a word table that has no word characters
    outside ASCII, and a codec that stores one code point per byte. *)
Definition ascii_only : N -> bool := fun _ => false.

Definition byte_decode (bytes : list N) : option text := Some bytes.

Definition byte_encode (t : text) : list N := t.

Definition no_links (p : text) : text := p.

Definition link_to_outside (p : text) : text :=
  if text_eqb p (codes "src/link.tsx") then codes "outside.txt" else p.

Section Rewriter.

(** ** Word characters

    For [str] patterns [\w] is Unicode aware.  On ASCII it is
    [[a-zA-Z0-9_]]; outside ASCII it follows the Unicode database, which
    is taken as a parameter. *)
Variable uni_word : N -> bool.

Definition ascii_word (c : N) : bool :=
  (((48 <=? c) && (c <=? 57)) || ((65 <=? c) && (c <=? 90))
   || (c =? 95) || ((97 <=? c) && (c <=? 122)))%N.

Definition is_word (c : N) : bool :=
  if (c <? 128)%N then ascii_word c else uni_word c.

(** Whether the first character of [s] is a word character; [nw] is the
    answer for what follows [s] ([false] at the end of the text). *)
Definition head_word (s : text) (nw : bool) : bool :=
  match s with
  | [] => nw
  | c :: _ => is_word c
  end.

(** Whether the last character of [s] is a word character; [pw] is the
    answer for what precedes [s] ([false] at the start of the text). *)
Fixpoint last_word (s : text) (pw : bool) : bool :=
  match s with
  | [] => pw
  | c :: s' => last_word s' (is_word c)
  end.

(** ** The regular expressions of the rule table *)

Inductive atom : Type :=
| Chr (c : N)        (* a literal character *)
| WordBoundary.      (* the assertion written \b *)

Definition regex := list atom.

(** Reading a raw pattern string: a backslash followed by [b] is the word
    boundary, every other character of the table's patterns stands for
    itself. *)
Fixpoint parse_atoms (s : list N) : regex :=
  match s with
  | 92 :: 98 :: s' => WordBoundary :: parse_atoms s'
  | c :: s' => Chr c :: parse_atoms s'
  | [] => []
  end%N.

Definition re_compile (p : string) : regex := parse_atoms (codes p).

(** A pattern that matches the characters of [s] and nothing else. *)
Definition literal (s : text) : regex := map Chr s.

(** The characters a pattern consumes. *)
Fixpoint lit (re : regex) : text :=
  match re with
  | [] => []
  | Chr c :: re' => c :: lit re'
  | WordBoundary :: re' => lit re'
  end.

(** [match_here re pw s nw]: try to match [re] at the start of [s], where
    [pw] tells whether the character before [s] is a word character and
    [nw] whether the character after the end of [s] is.  The result is
    the number of characters consumed. *)
Fixpoint match_here (re : regex) (pw : bool) (s : text) (nw : bool)
  : option nat :=
  match re with
  | [] => Some 0
  | WordBoundary :: re' =>
      if xorb pw (head_word s nw) then match_here re' pw s nw else None
  | Chr c :: re' =>
      match s with
      | x :: s' =>
          if N.eqb x c
          then option_map S (match_here re' (is_word x) s' nw)
          else None
      | [] => None
      end
  end.

(** [re.sub] as a scan from the left: at a position where the pattern
    matches, the replacement is emitted and the matched characters are
    skipped; elsewhere the character is copied.  [skip] counts the
    characters of the current match still to be passed over.  The
    patterns of the table consume at least one character, so a match of
    no characters is not a case of this scan. *)
Fixpoint sub_from (re : regex) (repl : text) (skip : nat) (pw : bool)
  (s : text) (nw : bool) : text :=
  match s with
  | [] => []
  | c :: s' =>
      match skip with
      | S k => sub_from re repl k (is_word c) s' nw
      | O =>
          match match_here re pw s nw with
          | Some (S k) => repl ++ sub_from re repl k (is_word c) s' nw
          | _ => c :: sub_from re repl 0 (is_word c) s' nw
          end
      end
  end.

Definition re_sub (re : regex) (repl : text) (s : text) : text :=
  sub_from re repl 0 false s false.

(** [str.replace old new]: every non-overlapping occurrence of [old],
    found from the left, becomes [new]. *)
Definition str_replace (old new : text) (s : text) : text :=
  sub_from (literal old) new 0 false s false.

(** ** The rule table of [update_file] *)

Definition replacements : list (string * string) :=
  [ ("\bbg-white\b", "bg-white dark:bg-black");
    ("\bbg-gray-50\b", "bg-gray-50 dark:bg-gray-900");
    ("\bbg-gray-100\b", "bg-gray-100 dark:bg-gray-800");
    ("\btext-gray-900\b", "text-gray-900 dark:text-white");
    ("\btext-gray-800\b", "text-gray-800 dark:text-gray-100");
    ("\btext-gray-700\b", "text-gray-700 dark:text-gray-200");
    ("\btext-gray-600\b", "text-gray-600 dark:text-gray-300");
    ("\btext-gray-500\b", "text-gray-500 dark:text-gray-400");
    ("\bborder-gray-200\b", "border-gray-200 dark:border-gray-700");
    ("\bborder-gray-300\b", "border-gray-300 dark:border-gray-600");
    ("\bdivide-gray-200\b", "divide-gray-200 dark:divide-gray-700");
    ("dark:bg-black dark:bg-black", "dark:bg-black");
    ("dark:bg-black dark:bg-gray-800", "dark:bg-black");
    ("dark:bg-gray-800 dark:bg-black", "dark:bg-black");
    ("dark:text-white dark:text-white", "dark:text-white");
    ("dark:bg-gray-700", "dark:bg-gray-800");
    ("dark:bg-gray-800 dark:bg-black", "dark:bg-black") ]%string.

(** One rule applied to the current text. *)
Definition apply_rule (acc : text) (r : string * string) : text :=
  re_sub (re_compile (fst r)) (codes (snd r)) acc.

(** The loop over the table: each rule sees the output of the one
    before. *)
Definition apply_rules (rs : list (string * string)) (s : text) : text :=
  fold_left apply_rule rs s.

(** The text [update_file] computes from the content it read. *)
Definition update_text (content : text) : text :=
  str_replace (codes "dark:bg-black dark:bg-gray-800") (codes "dark:bg-black")
    (apply_rules replacements content).

(** Whether the scan replaces at the start of [s]. *)
Definition matches_at (re : regex) (pw : bool) (s : text) (nw : bool)
  : bool :=
  match match_here re pw s nw with
  | Some (S _) => true
  | _ => false
  end.

(** [re.search]: the pattern matches at some position of [s]. *)
Fixpoint search_from (re : regex) (pw : bool) (s : text) (nw : bool)
  : bool :=
  match s with
  | [] => false
  | c :: s' => matches_at re pw s nw || search_from re (is_word c) s' nw
  end.

Definition re_search (re : regex) (s : text) : bool :=
  search_from re false s false.

(** Context bits for an arbitrary character class [f]. *)
Definition headb (f : N -> bool) (s : text) (d : bool) : bool :=
  match s with
  | [] => d
  | c :: _ => f c
  end.

Fixpoint lastb (f : N -> bool) (s : text) (d : bool) : bool :=
  match s with
  | [] => d
  | c :: s' => lastb f s' (f c)
  end.

(** A match of [l] lying across the cut between [x] and [y]. *)
Definition no_straddle (l x y : text) : Prop :=
  forall x1 x2 y1 y2,
    x = x1 ++ x2 -> y = y1 ++ y2 -> x2 <> [] -> y1 <> [] -> x2 ++ y1 <> l.

(** [l] and [r] are non-empty and begin (end) with characters that [f]
    does not tell apart. *)
Definition same_head (f : N -> bool) (l r : text) : bool :=
  match l, r with
  | c :: _, d :: _ => Bool.eqb (f c) (f d)
  | _, _ => false
  end.

Definition same_last (f : N -> bool) (l r : text) : bool :=
  same_head f (rev l) (rev r).

(** An occurrence of [tok] that begins inside [l] also ends inside it. *)
Definition no_run_out (l tok : text) : bool :=
  forallb (fun l' => implb (starts_with l' tok) (starts_with tok l')) (tails l).

(** ** The pipeline as a list of stages

    The seventeen rules compiled, followed by the final [str.replace]
    seen as one more stage of the same scan. *)

Definition stage : Type := regex * text.

Definition run_stage (st : stage) (s : text) : text :=
  sub_from (fst st) (snd st) 0 false s false.

Definition compile_rule (r : string * string) : stage :=
  (re_compile (fst r), codes (snd r)).

Definition final_stage : stage :=
  (literal (codes "dark:bg-black dark:bg-gray-800"), codes "dark:bg-black").

Definition stages : list stage :=
  map compile_rule replacements ++ [final_stage].

Definition run_stages (sts : list stage) (s : text) : text :=
  fold_left (fun acc st => run_stage st acc) sts s.

(** The light tokens of the pairing rules. *)
Definition light_tokens : list string :=
  [ "bg-white"; "bg-gray-50"; "bg-gray-100"; "text-gray-900";
    "text-gray-800"; "text-gray-700"; "text-gray-600"; "text-gray-500";
    "border-gray-200"; "border-gray-300"; "divide-gray-200" ]%string.

(** The longest common suffix of two texts, and a text without it. *)
Fixpoint common_prefix (a b : text) : text :=
  match a, b with
  | x :: a', y :: b' => if N.eqb x y then x :: common_prefix a' b' else []
  | _, _ => []
  end.

Definition common_suffix (a b : text) : text :=
  rev (common_prefix (rev a) (rev b)).

Definition drop_suffix (c a : text) : text :=
  firstn (List.length a - List.length c) a.

(** Counting through a replacement of [l] by [r] that leaves their
    common suffix in place: before it, [l] cuts no occurrence of [tok]
    and holds no more of them than [r]. *)
Definition count_ok_plain (tok l r : text) : bool :=
  let c := common_suffix l r in
  let pl := drop_suffix c l in
  let pr := drop_suffix c r in
  text_eqb (pl ++ c) l && text_eqb (pr ++ c) r
  && no_run_out pl tok
  && (occurrences tok pl <=? occurrences tok pr).

Definition trailing_boundary (re : regex) : bool :=
  match rev re with
  | WordBoundary :: _ => true
  | _ => false
  end.

(** An occurrence of [tok] that begins inside [l] and runs out of it
    goes on with a word character. *)
Definition runs_out_on_word (l tok : text) : bool :=
  forallb
    (fun l' =>
       implb (starts_with l' tok && negb (starts_with tok l'))
             (headb is_word (skipn (List.length l') tok) false))
    (tails l).

(** Counting through a pairing rule: the match ends at a word boundary,
    so no occurrence of [tok] runs out of it, and the replacement begins
    with the matched text. *)
Definition count_ok_bounded (tok : text) (re : regex) (r : text) : bool :=
  trailing_boundary re && lastb is_word (lit re) false
  && starts_with (lit re) r && runs_out_on_word (lit re) tok.

(** A stage cannot lower the number of occurrences of [tok]. *)
Definition keeps_count (tok : text) (st : stage) : bool :=
  stable (lit (fst st)) (snd st) tok
  && (count_ok_plain tok (lit (fst st)) (snd st)
      || count_ok_bounded tok (fst st) (snd st)).



(** What is known of an occurrence of [y] in the output of a scan: [Bef]
    of the character before it, [Aft] of the text behind it.  Under this
    knowledge the occurrence cannot begin strictly inside a replacement
    [repl], and no replacement can begin strictly inside the
    occurrence. *)
Definition no_start_inside_replacement (repl y : text) (Bef : bool -> Prop)
  : Prop :=
  forall p m q,
    p <> [] -> m <> [] -> repl = p ++ m -> compat m y = true ->
    ~ Bef (last_word p q).

Definition no_replacement_inside (repl y : text) (Aft : text -> Prop)
  : Prop :=
  forall u v x b',
    u <> [] -> v <> [] -> y = u ++ v -> repl ++ x = v ++ b' -> ~ Aft b'.

(** A stage cannot write an occurrence of [x] that was not in its
    input: [x] shares no position with the replacement. *)
Definition never_made (x : text) (st : stage) : bool :=
  apart_after (snd st) x && apart_after x (snd st)
  && negb (compat x (snd st)).

(** ** What the pairing rules promise *)

(** The designated dark counterpart of each light token. *)
Definition dark_of : list (string * string) :=
  [ ("bg-white", "dark:bg-black");
    ("bg-gray-50", "dark:bg-gray-900");
    ("bg-gray-100", "dark:bg-gray-800");
    ("text-gray-900", "dark:text-white");
    ("text-gray-800", "dark:text-gray-100");
    ("text-gray-700", "dark:text-gray-200");
    ("text-gray-600", "dark:text-gray-300");
    ("text-gray-500", "dark:text-gray-400");
    ("border-gray-200", "dark:border-gray-700");
    ("border-gray-300", "dark:border-gray-600");
    ("divide-gray-200", "dark:divide-gray-700") ]%string.










(** ** Following one piece of the text through the stages *)

Definition is_space (c : N) : bool := (c =? 32)%N.

Definition no_char (c : N) : bool := false.

(** Every way of cutting [l] in two that would let a match begin before
    an occurrence of [y] and end inside or behind it puts a character of
    class [f] directly before the occurrence. *)
Definition clear_left (f : N -> bool) (l y : text) : bool :=
  forallb
    (fun m =>
       implb (compat m y)
             (lastb f (firstn (List.length l - List.length m) l) false))
    (tails (tl l)).

(** Every way of cutting [l] in two that would let a match begin inside
    or before an occurrence of [y] and end behind it puts a character of
    class [g] directly behind the occurrence. *)
Definition clear_right (g : N -> bool) (l y : text) : bool :=
  forallb
    (fun m =>
       implb (compat (rev (firstn (List.length l - List.length m) l)) (rev y))
             (headb g m false))
    (tails (tl l)).

(** [y] and [y'] are non-empty and begin and end with characters of the
    same word class. *)
Definition same_ends (y y' : text) : bool :=
  same_head is_word y y' && same_last is_word y y'.

(** In each of the contexts [ctxs] (word character before, word
    character behind) the stage turns the piece [y] into [y'], which
    begins and ends as [y] does; no match lies across the ends of the
    piece, and the stage does not change the classes of the characters
    next to it. *)
Definition mid_ok (f g : N -> bool) (ctxs : list (bool * bool))
  (st : stage) (y y' : text) : bool :=
  same_ends y y'
  && same_last f (lit (fst st)) (snd st)
  && same_head g (lit (fst st)) (snd st)
  && same_last is_word (lit (fst st)) (snd st)
  && same_head is_word (lit (fst st)) (snd st)
  && clear_left f (lit (fst st)) y
  && clear_right g (lit (fst st)) y
  && forallb
       (fun c => text_eqb (sub_from (fst st) (snd st) 0 (fst c) y (snd c)) y')
       ctxs.

(** The piece after one stage, read off in the first context. *)
Definition mid_step (ctxs : list (bool * bool)) (st : stage) (y : text)
  : text :=
  match ctxs with
  | c :: _ => sub_from (fst st) (snd st) 0 (fst c) y (snd c)
  | [] => y
  end.

(** The piece after all stages, when every stage passes [mid_ok]. *)
Fixpoint mid_chain (f g : N -> bool) (ctxs : list (bool * bool))
  (sts : list stage) (y : text) : option text :=
  match sts with
  | [] => Some y
  | st :: rest =>
      let y' := mid_step ctxs st y in
      if mid_ok f g ctxs st y y' then mid_chain f g ctxs rest y' else None
  end.

(** The stages run on a text that stands before or behind a piece:
    [pw] tells whether a word character stands directly before the
    text, [nw] whether one stands directly behind it. *)
Definition scan_in (pw nw : bool) (sts : list stage) (s : text) : text :=
  fold_left (fun acc st => sub_from (fst st) (snd st) 0 pw acc nw) sts s.

(** What the pipeline makes of a text that stands directly before a
    word character, and of one that stands directly behind one. *)
Definition before_word (s : text) : text := scan_in false true stages s.

Definition after_word (s : text) : text := scan_in true false stages s.

(** The surroundings a piece is followed in: no character of class [f]
    directly before it, none of class [g] directly behind it, and a
    context among [ctxs]. *)
Definition around (f g : N -> bool) (ctxs : list (bool * bool))
  (pre post : text) : Prop :=
  lastb f pre false = false /\
  headb g post false = false /\
  In (last_word pre false, head_word post false) ctxs.

(** ** Files, the conditional write and the directory walk

    A file holds bytes and may or may not be opened for reading or for
    writing.  Opening a path, the system resolves it, through symbolic
    links and hard links, to the file it names; two paths may name one
    file.  The file system is a map from resolved names to files; a
    world adds what was printed, the paths [update_file] was called
    with, in order, and the exception that ended the run, if any. *)

Inductive exn : Type :=
| FileNotFoundError
| PermissionError
| UnicodeDecodeError.

Record file : Type := mkFile
  { data : list N;
    readable : bool;
    writable : bool }.

Definition store : Type := text -> option file.

Record world : Type := mkWorld
  { files : store;
    stdout : list text;
    calls : list text;
    raised : option exn }.

(** The codec of [open(..., encoding='utf-8')]: reading decodes the bytes
    of the file ([None] when they are not UTF-8), writing encodes the
    text.  Both are Python's and are taken as parameters. *)
Variable decode : list N -> option text.
Variable encode : text -> list N.

(** The file a path names: what [open] reaches for it.  The program
    makes and removes no link, so this is the same during a run; it is
    the system's and is taken as a parameter. *)
Variable resolve : text -> text.

Definition raise (e : exn) (w : world) : world :=
  mkWorld (files w) (stdout w) (calls w) (Some e).

Definition print (line : text) (w : world) : world :=
  mkWorld (files w) (stdout w ++ [line]) (calls w) (raised w).

Definition called (filepath : text) (w : world) : world :=
  mkWorld (files w) (stdout w) (calls w ++ [filepath]) (raised w).

Definition write_file (filepath : text) (f : file) (bytes : list N)
  (w : world) : world :=
  mkWorld
    (fun p => if text_eqb p (resolve filepath)
              then Some (mkFile bytes (readable f) (writable f))
              else files w p)
    (stdout w) (calls w) (raised w).

(** [update_file]: read, transform, and write back only when the text
    changed.  Opening or decoding may raise; nothing is caught. *)
Definition update_file (filepath : text) (w0 : world) : world :=
  let w := called filepath w0 in
  match files w (resolve filepath) with
  | None => raise FileNotFoundError w
  | Some f =>
      if negb (readable f) then raise PermissionError w
      else
        match decode (data f) with
        | None => raise UnicodeDecodeError w
        | Some content =>
            let new_content := update_text content in
            if negb (text_eqb new_content content) then
              if writable f then
                print (codes "Updated " ++ filepath)
                  (write_file filepath f (encode new_content) w)
              else raise PermissionError w
            else w
        end
  end.

(** What [os.walk] finds under a directory: files and directories that
    can be listed, in listing order. *)
#[warnings="-register-all"]
Inductive entry : Type :=
| File (name : text)
| Dir (name : text) (entries : list entry).

(** Induction over entries, through the lists of directories. *)
Section EntryInduction.

Variable P : entry -> Prop.
Hypothesis P_file : forall n, P (File n).
Hypothesis P_dir : forall n sub, Forall P sub -> P (Dir n sub).

Fixpoint entry_induction (e : entry) : P e :=
  match e with
  | File n => P_file n
  | Dir n sub =>
      P_dir n sub
        ((fix all (l : list entry) : Forall P l :=
            match l with
            | [] => Forall_nil P
            | x :: l' => Forall_cons x (entry_induction x) (all l')
            end) sub)
  end.

End EntryInduction.

Definition file_names (es : list entry) : list text :=
  flat_map (fun e => match e with File n => [n] | Dir _ _ => [] end) es.

Definition dir_names (es : list entry) : list text :=
  flat_map (fun e => match e with File _ => [] | Dir n _ => [n] end) es.

(** [os.path.join] on two components. *)
Definition path_join (a b : text) : text :=
  if starts_with (codes "/") b then b
  else if (match a with [] => true | _ => false end) || ends_with (codes "/") a
       then a ++ b
       else a ++ codes "/" ++ b.

(** [os.walk], top down: the triple of a directory comes before those of
    its subdirectories. *)
Fixpoint walk_entry (top : text) (e : entry)
  : list (text * list text * list text) :=
  match e with
  | File _ => []
  | Dir n sub =>
      let p := path_join top n in
      (p, dir_names sub, file_names sub) :: flat_map (walk_entry p) sub
  end.

Definition walk (top : text) (es : list entry)
  : list (text * list text * list text) :=
  (top, dir_names es, file_names es) :: flat_map (walk_entry top) es.

(** One iteration of the inner loop; after an exception nothing more
    runs. *)
Definition visit (root : text) (w : world) (file : text) : world :=
  match raised w with
  | Some _ => w
  | None =>
      if ends_with (codes ".tsx") file
      then update_file (path_join root file) w
      else w
  end.

Definition process_directory (directory : text) (tree : list entry)
  (w : world) : world :=
  fold_left
    (fun w t => fold_left (visit (fst (fst t))) (snd t) w)
    (walk directory tree) w.

(** The files found by plain recursive descent, each with the path of
    its directory. *)
Fixpoint entry_files (top : text) (e : entry) : list (text * text) :=
  match e with
  | File n => [(top, n)]
  | Dir n sub => flat_map (entry_files (path_join top n)) sub
  end.

Definition tree_files (top : text) (es : list entry) : list (text * text) :=
  flat_map (entry_files top) es.

(** The paths [process_directory] hands to [update_file] when nothing
    raises, in order. *)
Definition targets (directory : text) (tree : list entry) : list text :=
  flat_map
    (fun t => map (path_join (fst (fst t)))
                  (filter (ends_with (codes ".tsx")) (snd t)))
    (walk directory tree).

(** [update_file] on each path in turn, until one raises. *)
Definition update_files (paths : list text) (w : world) : world :=
  fold_left
    (fun w p => match raised w with Some _ => w | None => update_file p w end)
    paths w.

(** Reading the file [p] names fails. *)
Definition read_fails (w : world) (p : text) : Prop :=
  files w (resolve p) = None \/
  exists f, files w (resolve p) = Some f /\
            (readable f = false \/ decode (data f) = None).

(** ** The whole run *)

(** The entry point: [process_directory('src')], on what the walk finds
    under [src]. *)
Definition main (tree : list entry) (w : world) : world :=
  process_directory (codes "src") tree w.

(** No name in the tree begins with a slash. *)
Fixpoint names_ok (e : entry) : bool :=
  match e with
  | File n => negb (starts_with (codes "/") n)
  | Dir n sub => negb (starts_with (codes "/") n) && forallb names_ok sub
  end.

(** A directory path of the walk started on [src]. *)
Definition under_src (r : text) : Prop :=
  r = codes "src" \/ starts_with (codes "src/") r = true.

(** [update_file] can process the file [p] names: it can be read and
    decoded, and written if its text changes. *)
Definition ready (w : world) (p : text) : Prop :=
  exists f content,
    files w (resolve p) = Some f /\
    readable f = true /\
    decode (data f) = Some content /\
    (update_text content <> content -> writable f = true).

(** The text of the file [p] names changes under the pipeline. *)
Definition changes (w : world) (p : text) : bool :=
  match files w (resolve p) with
  | Some f =>
      match decode (data f) with
      | Some content => negb (text_eqb (update_text content) content)
      | None => false
      end
  | None => false
  end.

(** The file [update_file] leaves in the place of [f]. *)
Definition rewritten (f : file) : file :=
  match decode (data f) with
  | Some content =>
      if text_eqb (update_text content) content then f
      else mkFile (encode (update_text content)) (readable f) (writable f)
  | None => f
  end.

(** The characters of the patterns and replacements of all stages. *)
Definition table_chars : list N :=
  flat_map (fun st => lit (fst st) ++ snd st) stages.

(** ** Following a piece when the text behind it may begin with a space *)

(** Every way of cutting [l] in two that would let a match begin inside
    or before an occurrence of [y] and end behind it goes on, behind
    the occurrence, with a character of class [g] or with one of the
    texts [stops]. *)
Definition clear_right_of (g : N -> bool) (stops : list text) (l y : text)
  : bool :=
  forallb
    (fun m =>
       implb (compat (rev (firstn (List.length l - List.length m) l)) (rev y))
             (headb g m false || existsb (fun p => starts_with p m) stops))
    (tails (tl l)).

(** When the output of a scan begins with [p] and the replacement [r]
    of a match of [l] was written inside this beginning, the input
    began with [p] as well. *)
Definition reflects (l r p : text) : bool :=
  forallb (fun v => implb (compat v r) (starts_with v l)) (tails p).

(** As [mid_ok], for surroundings in which the text behind the piece
    begins with no character of class [g] and with none of [stops]. *)
Definition piece_ok (f g : N -> bool) (stops : list text)
  (ctxs : list (bool * bool)) (st : stage) (y y' : text) : bool :=
  same_ends y y'
  && same_last f (lit (fst st)) (snd st)
  && same_head g (lit (fst st)) (snd st)
  && same_last is_word (lit (fst st)) (snd st)
  && same_head is_word (lit (fst st)) (snd st)
  && clear_left f (lit (fst st)) y
  && clear_right_of g stops (lit (fst st)) y
  && forallb (reflects (lit (fst st)) (snd st)) stops
  && forallb
       (fun c => text_eqb (sub_from (fst st) (snd st) 0 (fst c) y (snd c)) y')
       ctxs.

Fixpoint piece_chain (f g : N -> bool) (stops : list text)
  (ctxs : list (bool * bool)) (sts : list stage) (y : text) : option text :=
  match sts with
  | [] => Some y
  | st :: rest =>
      let y' := mid_step ctxs st y in
      if piece_ok f g stops ctxs st y y'
      then piece_chain f g stops ctxs rest y'
      else None
  end.

(** The surroundings of such a piece. *)
Definition beside (f g : N -> bool) (stops : list text)
  (ctxs : list (bool * bool)) (pre post : text) : Prop :=
  lastb f pre false = false /\
  headb g post false = false /\
  (forall p, In p stops -> starts_with p post = false) /\
  In (last_word pre false, head_word post false) ctxs.

(** A light token with its dark token already behind it, and the
    beginning that must not follow for the two to be kept as they
    are. *)
Definition settled_pairs : list (string * string) :=
  [ ("bg-white dark:bg-black", " dark:bg-");
    ("text-gray-900 dark:text-white", " dark:text-white") ]%string.

(** [bg-white] followed by another dark background. *)
Definition overridden_pairs : list string :=
  [ "bg-white dark:bg-gray-800"; "bg-white dark:bg-gray-700" ]%string.

(** ** Listings

    What the walk is given comes from directory listings: a name is not
    empty and holds no slash, and no name stands twice in a directory. *)

Definition plain_name (n : text) : bool :=
  match n with
  | [] => false
  | _ :: _ => negb (existsb (N.eqb 47) n)
  end.

Definition entry_name (e : entry) : text :=
  match e with
  | File n => n
  | Dir n _ => n
  end.

Fixpoint distinct (l : list text) : bool :=
  match l with
  | [] => true
  | x :: r => negb (existsb (text_eqb x) r) && distinct r
  end.

Fixpoint well_listed (e : entry) : bool :=
  match e with
  | File n => plain_name n
  | Dir n sub =>
      plain_name n && distinct (map entry_name sub) && forallb well_listed sub
  end.

Definition listing_ok (tree : list entry) : bool :=
  distinct (map entry_name tree) && forallb well_listed tree.

(** What [os.path.join] puts between a directory and a plain name. *)
Definition joint (a : text) : text :=
  if (match a with [] => true | _ => false end) || ends_with (codes "/") a
  then []
  else codes "/".

(** The paths handed to [update_file], read from the directory the walk
    starts in. *)
Fixpoint rel_entry (e : entry) : list text :=
  match e with
  | File _ => []
  | Dir n sub =>
      map (fun r => n ++ codes "/" ++ r)
        (filter (ends_with (codes ".tsx")) (file_names sub)
         ++ flat_map rel_entry sub)
  end.

Definition rel_targets (tree : list entry) : list text :=
  filter (ends_with (codes ".tsx")) (file_names tree)
  ++ flat_map rel_entry tree.

(** The colour names; [has_key] tells that the pattern of a stage holds
    one of them. *)
Definition key_words : list string := [ "gray"; "white"; "black" ]%string.

Definition has_key (st : stage) : bool :=
  existsb (fun k => 0 <? occurrences (codes k) (lit (fst st))) key_words.

(** No two characters that stand side by side in [l] are both outside
    the words. *)
Fixpoint word_linked (l : text) : bool :=
  match l with
  | [] => true
  | c :: l' =>
      match l' with
      | [] => true
      | d :: _ => (is_word c || is_word d) && word_linked l'
      end
  end.

(** A stage whose pattern is linked in this way and begins and ends with
    a word character, as its replacement does. *)
Definition word_ended (st : stage) : bool :=
  word_linked (lit (fst st))
  && same_head is_word (lit (fst st)) (snd st)
  && same_last is_word (lit (fst st)) (snd st)
  && headb is_word (lit (fst st)) false
  && lastb is_word (lit (fst st)) false.

(** What the cleanup rules are written for: dark tokens that stand side
    by side, or the dark background of earlier edits, each with what a
    run leaves in its place. *)
Definition cleanup_cases : list (string * string) :=
  [ ("dark:bg-black dark:bg-black", "dark:bg-black");
    ("dark:text-white dark:text-white", "dark:text-white");
    ("dark:bg-gray-700", "dark:bg-gray-800");
    ("dark:bg-gray-700 dark:bg-black", "dark:bg-black");
    ("dark:bg-black dark:bg-gray-700", "dark:bg-black") ]%string.

Definition word_or_space (c : N) : bool := is_word c || is_space c.

(** ** Pieces between stop texts

    A piece of the text is followed through the stages in surroundings
    told by texts that must not stand directly before it ([lstops]) and
    texts that must not stand directly behind it ([rstops]). *)

(** The ways of cutting [p] in two. *)
Fixpoint splits (p : text) : list (text * text) :=
  ([], p)
  :: match p with
     | [] => []
     | c :: p' => map (fun ab => (c :: fst ab, snd ab)) (splits p')
     end.

Definition nonempty (s : text) : bool :=
  match s with
  | [] => false
  | _ :: _ => true
  end.

(** Every way of cutting [l] in two that would let a match begin before
    an occurrence of [y] and end inside or behind it puts, directly
    before the occurrence, a character of class [f] or one of the texts
    [stops]. *)
Definition clear_left_of (f : N -> bool) (stops : list text) (l y : text)
  : bool :=
  forallb
    (fun ab =>
       implb (nonempty (fst ab) && nonempty (snd ab) && compat (snd ab) y)
             (lastb f (fst ab) false
              || existsb (fun p => ends_with p (fst ab)) stops))
    (splits l).

(** When the output of a scan ends with [p] and the replacement [r] of
    the last match of [l] was written inside this end, the input ended
    with one of [stops]. *)
Definition kept_left (l r : text) (stops : list text) (p : text) : bool :=
  forallb
    (fun ab =>
       implb (nonempty (fst ab) && compat (rev (fst ab)) (rev r))
             (existsb (fun q => ends_with q (l ++ snd ab)) stops))
    (splits p).

(** When the output of a scan begins with [p] and the replacement [r]
    of the first match of [l] was written inside this beginning, the
    input began with one of [stops]. *)
Definition kept_right (l r : text) (stops : list text) (p : text) : bool :=
  forallb
    (fun ab =>
       implb (nonempty (snd ab) && compat (snd ab) r)
             (existsb (fun q => starts_with q (fst ab ++ l)) stops))
    (splits p).

(** As [mid_ok], for surroundings told by stop texts as well. *)
Definition span_ok (f g : N -> bool) (lstops rstops : list text)
  (ctxs : list (bool * bool)) (st : stage) (y y' : text) : bool :=
  same_ends y y'
  && same_last f (lit (fst st)) (snd st)
  && same_head g (lit (fst st)) (snd st)
  && same_last is_word (lit (fst st)) (snd st)
  && same_head is_word (lit (fst st)) (snd st)
  && clear_left_of f lstops (lit (fst st)) y
  && clear_right_of g rstops (lit (fst st)) y
  && forallb (kept_left (lit (fst st)) (snd st) lstops) lstops
  && forallb (kept_right (lit (fst st)) (snd st) rstops) rstops
  && forallb
       (fun c => text_eqb (sub_from (fst st) (snd st) 0 (fst c) y (snd c)) y')
       ctxs.

Fixpoint span_chain (f g : N -> bool) (lstops rstops : list text)
  (ctxs : list (bool * bool)) (sts : list stage) (y : text) : option text :=
  match sts with
  | [] => Some y
  | st :: rest =>
      let y' := mid_step ctxs st y in
      if span_ok f g lstops rstops ctxs st y y'
      then span_chain f g lstops rstops ctxs rest y'
      else None
  end.

(** The surroundings of such a piece. *)
Definition amid (f g : N -> bool) (lstops rstops : list text)
  (ctxs : list (bool * bool)) (pre post : text) : Prop :=
  lastb f pre false = false /\
  headb g post false = false /\
  (forall p, In p lstops -> ends_with p pre = false) /\
  (forall p, In p rstops -> starts_with p post = false) /\
  In (last_word pre false, head_word post false) ctxs.

(** The background tokens of the table, as they stand directly before a
    token (followed by a space) and directly behind one (after a
    space): [dark:bg-black], the tokens the rules turn into it or put
    it behind, and those that may stand between. *)
Definition backgrounds_before : list string :=
  [ "bg-white "; "bg-gray-100 "; "dark:bg-black "; "dark:bg-gray-800 ";
    "dark:bg-gray-700 " ]%string.

Definition backgrounds_behind : list string :=
  [ " dark:bg-black"; " dark:bg-gray-800"; " dark:bg-gray-700" ]%string.

Definition ends_with_any (ps : list string) (s : text) : bool :=
  existsb (fun p => ends_with (codes p) s) ps.

Definition starts_with_any (ps : list string) (s : text) : bool :=
  existsb (fun p => starts_with (codes p) s) ps.

(** The colliding pairs behind a light background token, each with
    what a run leaves of the three tokens. *)
Definition resolved_behind_light : list (string * string * string) :=
  [ ("bg-white", "dark:bg-black dark:bg-gray-800", "bg-white dark:bg-black");
    ("bg-white", "dark:bg-gray-800 dark:bg-black",
     "bg-white dark:bg-black dark:bg-black");
    ("bg-gray-100", "dark:bg-black dark:bg-gray-800",
     "bg-gray-100 dark:bg-black");
    ("bg-gray-100", "dark:bg-gray-800 dark:bg-black",
     "bg-gray-100 dark:bg-black") ]%string.

Definition all_contexts : list (bool * bool) :=
  [ (true, true); (true, false); (false, true); (false, false) ].

(** The pairing rule of a light token, as the table writes it. *)
Definition pairing_rule (light dark : string) : string * string :=
  (("\b" ++ light ++ "\b")%string, (light ++ " " ++ dark)%string).

(** The light tokens whose dark counterpart the cleanup rules know. *)
Definition cleanup_lights : list string :=
  [ "bg-white"; "bg-gray-100"; "text-gray-900" ]%string.

(** The standardization rule, as the table writes it. *)
Definition rename_rule : string * string :=
  ("dark:bg-gray-700", "dark:bg-gray-800")%string.

(* ================================================================= *)
(** * Properties *)

(** ** Prefixes *)

Lemma starts_with_app (p s : text) : starts_with p (p ++ s) = true.
Proof.
  induction p as [|x p IH]; simpl; [reflexivity|].
  now rewrite N.eqb_refl, IH.
Qed.

Lemma starts_with_split (p s : text) :
  starts_with p s = true -> exists r, s = p ++ r.
Proof.
  revert s; induction p as [|x p IH]; intros s H.
  - now exists s.
  - destruct s as [|y s]; simpl in H; [discriminate|].
    apply andb_true_iff in H as [Hxy H].
    apply N.eqb_eq in Hxy; subst y.
    destruct (IH _ H) as [r ->]. now exists r.
Qed.

Lemma starts_with_iff (p s : text) :
  starts_with p s = true <-> exists r, s = p ++ r.
Proof.
  split; [apply starts_with_split|].
  intros [r ->]; apply starts_with_app.
Qed.

Lemma starts_with_nil_r (p : text) : starts_with p [] = true -> p = [].
Proof. destruct p; [reflexivity|discriminate]. Qed.

Lemma starts_with_app_r (p s t : text) :
  starts_with p s = true -> starts_with p (s ++ t) = true.
Proof.
  intros H; apply starts_with_split in H as [r ->].
  rewrite <- app_assoc; apply starts_with_app.
Qed.

(** Two prefixes of one text agree with each other. *)
Lemma prefixes_compat (p q s : text) :
  starts_with p s = true -> starts_with q s = true -> compat p q = true.
Proof.
  unfold compat; revert q s; induction p as [|x p IH]; intros q s Hp Hq.
  - reflexivity.
  - destruct q as [|y q]; [now rewrite orb_true_r|].
    destruct s as [|z s]; simpl in *; [discriminate|].
    apply andb_true_iff in Hp as [Hx Hp], Hq as [Hy Hq].
    apply N.eqb_eq in Hx, Hy; subst x y.
    rewrite N.eqb_refl; simpl. exact (IH _ _ Hp Hq).
Qed.

Lemma compat_app (p q s t : text) :
  p ++ s = q ++ t -> compat p q = true.
Proof.
  intros E; apply (prefixes_compat p q (p ++ s)).
  - apply starts_with_app.
  - rewrite E; apply starts_with_app.
Qed.

Lemma compat_sym (a b : text) : compat a b = compat b a.
Proof. unfold compat; apply orb_comm. Qed.

Lemma text_eqb_eq (a b : text) : text_eqb a b = true <-> a = b.
Proof.
  revert b; induction a as [|x a IH]; intros [|y b]; simpl;
    try (split; [discriminate|discriminate]); [tauto|].
  rewrite andb_true_iff, N.eqb_eq, IH.
  split; [intros [-> ->]; reflexivity | intros E; now inversion E].
Qed.

Lemma in_tails (l s : text) :
  In l (tails s) <-> l <> [] /\ exists a, s = a ++ l.
Proof.
  induction s as [|c s IH]; simpl.
  - split; [intros []|]. intros [Hl [a E]].
    symmetry in E; apply app_eq_nil in E as [_ E]; contradiction.
  - rewrite IH; split.
    + intros [<- | [Hl [a ->]]].
      * split; [discriminate| now exists []].
      * split; [assumption| now exists (c :: a)].
    + intros [Hl [[|d a] E]]; simpl in E.
      * now left.
      * right; split; [assumption|]. inversion E; subst. now exists a.
Qed.

(** Splitting one text in two ways. *)
Lemma app_eq_app_split (a b c d : text) :
  a ++ b = c ++ d ->
  (exists m, c = a ++ m /\ b = m ++ d) \/
  (exists m, m <> [] /\ a = c ++ m /\ d = m ++ b).
Proof.
  revert c; induction a as [|x a IH]; intros c E; simpl in E.
  - left; now exists c.
  - destruct c as [|y c]; simpl in E.
    + right; exists (x :: a); repeat split; [discriminate|now symmetry].
    + inversion E; subst y.
      destruct (IH _ H1) as [[m [-> ->]] | [m [Hm [-> ->]]]].
      * left; now exists m.
      * right; now exists m.
Qed.

Lemma apart_after_spec (l x : text) :
  apart_after l x = true ->
  forall a m, a <> [] -> m <> [] -> l = a ++ m -> compat m x = false.
Proof.
  unfold apart_after; rewrite forallb_forall; intros H a m Ha Hm E.
  apply negb_true_iff, H, in_tails; split; [assumption|].
  destruct a as [|c a]; [contradiction|]. subst l; now exists a.
Qed.

Lemma stable_spec (l r t : text) :
  stable l r t = true ->
  forall a m, m <> [] -> t = a ++ m -> compat m l = true ->
  starts_with m r = true.
Proof.
  unfold stable; rewrite forallb_forall; intros H a m Hm E C.
  assert (Hin : In m (tails t)) by (apply in_tails; split; [assumption| now exists a]).
  specialize (H _ Hin); rewrite C in H; exact H.
Qed.

Lemma stable_suffix (l r a t : text) :
  stable l r (a ++ t) = true -> stable l r t = true.
Proof.
  induction a as [|c a IH]; [auto|].
  unfold stable; simpl; intros H. apply andb_true_iff in H as [_ H]. now apply IH.
Qed.

Lemma starts_with_app_same (a t x : text) :
  starts_with (a ++ t) (a ++ x) = starts_with t x.
Proof. induction a as [|c a IH]; simpl; [reflexivity|]. now rewrite N.eqb_refl. Qed.

Lemma skipn_app_exact (a t : text) : skipn (List.length a) (a ++ t) = t.
Proof. induction a; simpl; auto. Qed.

(** *** Counting occurrences *)

Lemma occurrences_cons (tok : text) (c : N) (s : text) :
  occurrences tok (c :: s)
  = (if starts_with tok (c :: s) then 1 else 0) + occurrences tok s.
Proof. reflexivity. Qed.

Lemma occurrences_app_ge (tok r x : text) :
  occurrences tok r + occurrences tok x <= occurrences tok (r ++ x).
Proof.
  induction r as [|c r IH]; simpl; [lia|].
  destruct (starts_with tok (c :: r)) eqn:H.
  - change (c :: r ++ x) with ((c :: r) ++ x).
    rewrite (starts_with_app_r _ _ x H). lia.
  - destruct (starts_with tok (c :: r ++ x)); lia.
Qed.

Lemma no_run_out_tail (c : N) (l tok : text) :
  no_run_out (c :: l) tok = true -> no_run_out l tok = true.
Proof. unfold no_run_out; simpl; intros H; now apply andb_true_iff in H as [_ H]. Qed.

Lemma occurrences_app_exact (tok l x : text) :
  no_run_out l tok = true ->
  occurrences tok (l ++ x) = occurrences tok l + occurrences tok x.
Proof.
  induction l as [|c l IH]; intros H; [reflexivity|].
  change ((c :: l) ++ x) with (c :: (l ++ x)).
  rewrite !occurrences_cons, IH by (now apply no_run_out_tail in H).
  rewrite <- Nat.add_assoc; f_equal.
  change (c :: (l ++ x)) with ((c :: l) ++ x).
  destruct (starts_with tok (c :: l)) eqn:S1.
  - now rewrite (starts_with_app_r _ _ x S1).
  - destruct (starts_with tok ((c :: l) ++ x)) eqn:S2; [|reflexivity].
    exfalso. unfold no_run_out in H; simpl in H.
    apply andb_true_iff in H as [H _].
    assert (C : compat tok (c :: l) = true).
    { apply (prefixes_compat _ _ ((c :: l) ++ x)); [assumption|apply starts_with_app]. }
    unfold compat in C. rewrite S1 in C, H. simpl in C. rewrite C in H.
    discriminate.
Qed.

(** The same when what follows [l] does not begin with a word
    character. *)
Lemma occurrences_app_exact_bounded (tok l x : text) :
  runs_out_on_word l tok = true ->
  headb is_word x false = false ->
  occurrences tok (l ++ x) = occurrences tok l + occurrences tok x.
Proof.
  intros H Hx; induction l as [|c l IH]; [reflexivity|].
  unfold runs_out_on_word in H. cbn [tails forallb] in H.
  apply andb_true_iff in H as [H H'].
  change ((c :: l) ++ x) with (c :: (l ++ x)).
  rewrite !occurrences_cons, IH by exact H'.
  rewrite <- Nat.add_assoc; f_equal.
  change (c :: (l ++ x)) with ((c :: l) ++ x).
  destruct (starts_with tok (c :: l)) eqn:S1.
  - now rewrite (starts_with_app_r _ _ x S1).
  - destruct (starts_with tok ((c :: l) ++ x)) eqn:S2; [|reflexivity].
    exfalso.
    assert (C : compat tok (c :: l) = true).
    { apply (prefixes_compat _ _ ((c :: l) ++ x)); [assumption|apply starts_with_app]. }
    unfold compat in C. rewrite S1 in C.
    rewrite orb_false_l in C. rewrite C in H. cbn [andb negb implb] in H.
    destruct (starts_with_split _ _ C) as [t2 E].
    rewrite E, skipn_app_exact in H.
    rewrite E, starts_with_app_same in S2.
    destruct t2 as [|d t2]; [discriminate|].
    destruct x as [|e x]; [discriminate|]. cbn [starts_with headb] in *.
    apply andb_true_iff in S2 as [S2 _]. apply N.eqb_eq in S2; congruence.
Qed.

(** Occurrences that begin inside [a] survive when what follows keeps
    the prefixes it shares with [tok]. *)
Lemma starts_with_app_mono (x x' : text) :
  forall a t,
    (forall t', (exists a', t = a' ++ t') ->
                starts_with t' x = true -> starts_with t' x' = true) ->
    starts_with t (a ++ x) = true -> starts_with t (a ++ x') = true.
Proof.
  induction a as [|c a IH]; intros t Hp H.
  - apply Hp; [now exists []|assumption].
  - destruct t as [|d t]; [reflexivity|]. simpl in *.
    apply andb_true_iff in H as [-> H]; simpl.
    apply IH; [|assumption].
    intros t' [a' ->] Ht'. apply Hp; [now exists (d :: a')|assumption].
Qed.

Lemma occurrences_app_mono (tok a x x' : text) :
  (forall a' t, tok = a' ++ t ->
                starts_with t x = true -> starts_with t x' = true) ->
  occurrences tok x <= occurrences tok x' ->
  occurrences tok (a ++ x) <= occurrences tok (a ++ x').
Proof.
  intros Hp Hle; induction a as [|c a IH]; [assumption|].
  change ((c :: a) ++ x) with (c :: (a ++ x)).
  change ((c :: a) ++ x') with (c :: (a ++ x')).
  rewrite !occurrences_cons.
  change (c :: (a ++ x)) with ((c :: a) ++ x).
  change (c :: (a ++ x')) with ((c :: a) ++ x').
  destruct (starts_with tok ((c :: a) ++ x)) eqn:S1.
  - rewrite (starts_with_app_mono x x' (c :: a) tok); [lia| |assumption].
    intros t' [a' E]; now apply (Hp a').
  - destruct (starts_with tok ((c :: a) ++ x')); lia.
Qed.



(** ** Context bits *)

Lemma last_word_app (a b : text) (pw : bool) :
  last_word (a ++ b) pw = last_word b (last_word a pw).
Proof. revert pw; induction a as [|c a IH]; intros pw; simpl; auto. Qed.

Lemma head_word_app (a b : text) (nw : bool) :
  head_word (a ++ b) nw = head_word a (head_word b nw).
Proof. destruct a; reflexivity. Qed.

Lemma last_word_cons (c : N) (a : text) (pw pw' : bool) :
  last_word (c :: a) pw = last_word (c :: a) pw'.
Proof. reflexivity. Qed.

Lemma last_word_nonempty (a : text) (pw pw' : bool) :
  a <> [] -> last_word a pw = last_word a pw'.
Proof. destruct a; [contradiction|reflexivity]. Qed.

(** ** The matcher *)

Lemma match_here_lit (re : regex) :
  forall pw s nw n,
    match_here re pw s nw = Some n ->
    n = List.length (lit re) /\ starts_with (lit re) s = true.
Proof.
  induction re as [|[c|] re IH]; intros pw s nw n H; simpl in *.
  - inversion H; auto.
  - destruct s as [|x s]; [discriminate|].
    destruct (N.eqb x c) eqn:E; [|discriminate].
    destruct (match_here re (is_word x) s nw) as [m|] eqn:M; [|discriminate].
    inversion H; subst n. destruct (IH _ _ _ _ M) as [-> Hs].
    apply N.eqb_eq in E; subst x.
    now rewrite N.eqb_refl, Hs.
  - destruct (xorb pw (head_word s nw)); [|discriminate]. eauto.
Qed.

Lemma match_here_app (re : regex) :
  forall pw x y nw,
    List.length (lit re) <= List.length x ->
    match_here re pw (x ++ y) nw = match_here re pw x (head_word y nw).
Proof.
  induction re as [|[c|] re IH]; intros pw x y nw Hlen; simpl in *.
  - reflexivity.
  - destruct x as [|d x]; simpl in *; [lia|].
    destruct (N.eqb d c); [|reflexivity].
    rewrite IH by lia; reflexivity.
  - rewrite head_word_app, IH by assumption; reflexivity.
Qed.


Lemma match_here_literal (t : text) :
  forall pw b nw, match_here (literal t) pw (t ++ b) nw = Some (List.length t).
Proof.
  induction t as [|c t IH]; intros pw b nw; simpl; [reflexivity|].
  now rewrite N.eqb_refl, IH.
Qed.



Lemma head_word_headb (s : text) (d : bool) : head_word s d = headb is_word s d.
Proof. reflexivity. Qed.

Lemma last_word_lastb (s : text) (d : bool) : last_word s d = lastb is_word s d.
Proof. revert d; induction s as [|c s IH]; intros d; simpl; auto. Qed.

Lemma lit_app (r1 r2 : regex) : lit (r1 ++ r2) = lit r1 ++ lit r2.
Proof.
  induction r1 as [|[c|] r1 IH]; simpl; [reflexivity| |assumption].
  now rewrite IH.
Qed.

Lemma match_here_snoc_boundary (r : regex) :
  forall pw s nw n,
    match_here (r ++ [WordBoundary]) pw s nw = Some n ->
    exists rest,
      s = lit r ++ rest /\
      xorb (last_word (lit r) pw) (head_word rest nw) = true.
Proof.
  induction r as [|[c|] r IH]; intros pw s nw n H; simpl in H.
  - exists s; split; [reflexivity|].
    simpl. destruct (xorb pw (head_word s nw)); [reflexivity|discriminate].
  - destruct s as [|x s]; [discriminate|].
    destruct (N.eqb x c) eqn:E; [|discriminate]. apply N.eqb_eq in E; subst x.
    destruct (match_here (r ++ [WordBoundary]) (is_word c) s nw) as [m|] eqn:M;
      [|discriminate].
    destruct (IH _ _ _ _ M) as [rest [-> Hx]]. now exists rest.
  - destruct (xorb pw (head_word s nw)); [|discriminate]. now apply IH in H.
Qed.

Lemma trailing_boundary_split (re : regex) :
  trailing_boundary re = true -> exists r, re = r ++ [WordBoundary].
Proof.
  unfold trailing_boundary; intros H.
  destruct (rev re) as [|[c|] q] eqn:E; try discriminate.
  exists (rev q). apply (f_equal (@rev atom)) in E.
  rewrite rev_involutive in E. exact E.
Qed.

Lemma last_word_true (l : text) (pw : bool) :
  lastb is_word l false = true -> last_word l pw = true.
Proof.
  destruct l as [|c l]; [discriminate|]. intros H.
  rewrite last_word_lastb. exact H.
Qed.

Lemma headb_false (x : text) (nw : bool) :
  head_word x nw = false -> headb is_word x false = false.
Proof. destruct x; [reflexivity|auto]. Qed.

Section Scan.

Variable re : regex.
Variable repl : text.

#[local] Abbreviation L := (lit re).
#[local] Abbreviation sub := (sub_from re repl 0).

Lemma matches_at_lit (pw : bool) (s : text) (nw : bool) :
  matches_at re pw s nw = true ->
  L <> [] /\ exists rest, s = L ++ rest.
Proof.
  unfold matches_at; intros H.
  destruct (match_here re pw s nw) as [[|k]|] eqn:M; try discriminate.
  destruct (match_here_lit _ _ _ _ _ M) as [Hk Hs].
  split; [|now apply starts_with_split].
  intros E; rewrite E in Hk; discriminate.
Qed.

Lemma matches_at_app (pw : bool) (x y : text) (nw : bool) :
  List.length L <= List.length x ->
  matches_at re pw (x ++ y) nw = matches_at re pw x (head_word y nw).
Proof. intros H; unfold matches_at; now rewrite match_here_app. Qed.

Lemma matches_at_length (pw : bool) (x : text) (nw : bool) :
  matches_at re pw x nw = true -> List.length L <= List.length x.
Proof.
  intros H; apply matches_at_lit in H as [_ [rest ->]].
  rewrite List.length_app; lia.
Qed.

(** A match that does not fit in [x] is no match of [x] alone. *)
Lemma matches_at_cut (pw : bool) (x y : text) (nw : bool) :
  matches_at re pw (x ++ y) nw = false ->
  matches_at re pw x (head_word y nw) = false.
Proof.
  intros H. destruct (matches_at re pw x (head_word y nw)) eqn:M; [|reflexivity].
  rewrite <- H, matches_at_app; [now symmetry|].
  now apply matches_at_length in M.
Qed.

Lemma sub_skip (a : text) :
  forall pw rest nw,
    sub_from re repl (List.length a) pw (a ++ rest) nw
    = sub (last_word a pw) rest nw.
Proof.
  induction a as [|c a IH]; intros pw rest nw; simpl.
  - destruct rest; reflexivity.
  - apply IH.
Qed.

Lemma sub_nil (pw nw : bool) : sub pw [] nw = [].
Proof. reflexivity. Qed.

(** At a match the replacement is written and the scan goes on behind
    the matched characters. *)
Lemma sub_hit (pw : bool) (s : text) (nw : bool) :
  matches_at re pw s nw = true ->
  exists rest,
    s = L ++ rest /\
    sub pw s nw = repl ++ sub (last_word L pw) rest nw.
Proof.
  unfold matches_at; intros H.
  destruct (match_here re pw s nw) as [[|k]|] eqn:M; try discriminate.
  destruct (match_here_lit _ _ _ _ _ M) as [Hk Hs].
  apply starts_with_split in Hs as [rest E]. exists rest; split; [assumption|].
  destruct s as [|c s']; [destruct L; discriminate|].
  simpl; rewrite M.
  destruct L as [|d l] eqn:EL; [discriminate|].
  simpl in E; inversion E; subst d s'.
  simpl in Hk; inversion Hk; subst k.
  now rewrite sub_skip.
Qed.

(** Elsewhere the character is copied. *)
Lemma sub_miss (pw : bool) (c : N) (s : text) (nw : bool) :
  matches_at re pw (c :: s) nw = false ->
  sub pw (c :: s) nw = c :: sub (is_word c) s nw.
Proof.
  unfold matches_at; intros H; simpl.
  destruct (match_here re pw (c :: s) nw) as [[|k]|]; try reflexivity.
  discriminate.
Qed.

(** *** Cutting the text where no match lies across *)

Lemma no_straddle_tail (l a m y : text) :
  no_straddle l (a ++ m) y -> no_straddle l m y.
Proof.
  intros H x1 x2 y1 y2 -> -> Hx Hy.
  apply (H (a ++ x1) x2 y1 y2); auto. now rewrite app_assoc.
Qed.

Lemma sub_app :
  forall x pw y nw,
    no_straddle L x y ->
    sub pw (x ++ y) nw
    = sub pw x (head_word y nw) ++ sub (last_word x pw) y nw.
Proof.
  intros x; induction x as [x IH] using (induction_ltof1 _ (@List.length N)).
  unfold ltof in IH; intros pw y nw NS.
  destruct x as [|c x']; [reflexivity|].
  destruct (matches_at re pw ((c :: x') ++ y) nw) eqn:M.
  - destruct (matches_at_lit _ _ _ M) as [HL _].
    destruct (sub_hit _ _ _ M) as [rest [E Hs]].
    assert (Hx : exists m, c :: x' = L ++ m /\ rest = m ++ y).
    { destruct (app_eq_app_split _ _ _ _ E) as [[m [EL Ey]] | [m [Hm [Ex Er]]]].
      - destruct m as [|d m].
        + exists []. rewrite app_nil_r in EL. simpl in Ey.
          split; [now rewrite app_nil_r | now symmetry].
        + exfalso. apply (NS [] (c :: x') (d :: m) rest); auto; discriminate.
      - now exists m. }
    destruct Hx as [m [Ex Er]].
    assert (M' : matches_at re pw (c :: x') (head_word y nw) = true).
    { rewrite <- M. symmetry; apply matches_at_app.
      rewrite Ex, List.length_app; lia. }
    destruct (sub_hit _ _ _ M') as [rest' [E' Hs']].
    assert (rest' = m) by (rewrite Ex in E'; now apply app_inv_head in E').
    subst rest' rest. rewrite Hs, Hs', Ex, last_word_app, <- app_assoc.
    f_equal. apply IH.
    + rewrite Ex, List.length_app. destruct L; [contradiction|simpl; lia].
    + rewrite Ex in NS. now apply no_straddle_tail in NS.
  - change ((c :: x') ++ y) with (c :: (x' ++ y)) in *.
    rewrite (sub_miss _ _ _ _ M).
    rewrite (sub_miss _ _ _ _ (matches_at_cut _ (c :: x') _ _ M)).
    simpl. f_equal. apply IH; [simpl; lia|].
    now apply (no_straddle_tail _ [c]).
Qed.

(** *** The context of a piece survives the scan *)

Lemma same_head_spec (f : N -> bool) (l r : text) :
  same_head f l r = true ->
  l <> [] /\ r <> [] /\ forall d d', headb f l d = headb f r d'.
Proof.
  destruct l as [|c l], r as [|e r]; simpl; try discriminate.
  intros H; apply eqb_prop in H. repeat split; try discriminate; auto.
Qed.

Lemma lastb_app (f : N -> bool) (a b : text) (d : bool) :
  lastb f (a ++ b) d = lastb f b (lastb f a d).
Proof. revert d; induction a as [|c a IH]; intros d; simpl; auto. Qed.

Lemma lastb_rev (f : N -> bool) (a : text) (d : bool) :
  lastb f a d = headb f (rev a) d.
Proof.
  revert d; induction a as [|c a IH]; intros d; simpl; [reflexivity|].
  rewrite IH. destruct (rev a) eqn:E; simpl; [|reflexivity].
  apply (f_equal (@rev N)) in E; rewrite rev_involutive in E; subst a.
  reflexivity.
Qed.

Lemma same_last_spec (f : N -> bool) (l r : text) :
  same_last f l r = true ->
  l <> [] /\ r <> [] /\ forall d d', lastb f l d = lastb f r d'.
Proof.
  unfold same_last; intros H; apply same_head_spec in H as [Hl [Hr H]].
  repeat split.
  - intros ->; now apply Hl.
  - intros ->; now apply Hr.
  - intros d d'; rewrite !lastb_rev; apply H.
Qed.

Lemma headb_sub (f : N -> bool) :
  same_head f L repl = true ->
  forall s pw nw d, headb f (sub pw s nw) d = headb f s d.
Proof.
  intros H s pw nw d. apply same_head_spec in H as [HL [HR H]].
  destruct s as [|c s]; [reflexivity|].
  destruct (matches_at re pw (c :: s) nw) eqn:M.
  - destruct (sub_hit _ _ _ M) as [rest [E ->]]. rewrite E.
    destruct L as [|x l]; [contradiction|]. destruct repl as [|y r]; [contradiction|].
    exact (eq_sym (H d d)).
  - now rewrite (sub_miss _ _ _ _ M).
Qed.

Lemma lastb_sub (f : N -> bool) :
  same_last f L repl = true ->
  forall s pw nw d, lastb f (sub pw s nw) d = lastb f s d.
Proof.
  intros H. apply same_last_spec in H as [HL [HR H]].
  intros s; induction s as [s IH] using (induction_ltof1 _ (@List.length N)).
  unfold ltof in IH; intros pw nw d.
  destruct s as [|c s]; [reflexivity|].
  destruct (matches_at re pw (c :: s) nw) eqn:M.
  - destruct (sub_hit _ _ _ M) as [rest [E ->]]. rewrite E, !lastb_app.
    rewrite IH, (H d d); [reflexivity|].
    rewrite E, List.length_app. destruct L; [contradiction|simpl; lia].
  - rewrite (sub_miss _ _ _ _ M). simpl. apply IH. simpl; lia.
Qed.

Lemma head_word_sub :
  same_head is_word L repl = true ->
  forall s pw nw d, head_word (sub pw s nw) d = head_word s d.
Proof. intros H s pw nw d; rewrite !head_word_headb; now apply headb_sub. Qed.

Lemma last_word_sub :
  same_last is_word L repl = true ->
  forall s pw nw d, last_word (sub pw s nw) d = last_word s d.
Proof. intros H s pw nw d; rewrite !last_word_lastb; now apply lastb_sub. Qed.

(** *** What the scan writes back *)

Lemma stable_tail (l r : text) (c : N) (t : text) :
  stable l r (c :: t) = true -> stable l r t = true.
Proof. unfold stable; simpl; intros H; now apply andb_true_iff in H as [_ H]. Qed.

Lemma sub_keeps_prefix (t : text) :
  stable L repl t = true ->
  forall s pw nw,
    starts_with t s = true -> starts_with t (sub pw s nw) = true.
Proof.
  induction t as [|c t IH]; intros St s pw nw H; [reflexivity|].
  destruct (matches_at re pw s nw) eqn:M.
  - destruct (sub_hit _ _ _ M) as [rest [E ->]].
    apply starts_with_app_r.
    apply (stable_spec _ _ _ St [] (c :: t)); [discriminate|reflexivity|].
    apply (prefixes_compat _ _ s); [assumption|].
    rewrite E; apply starts_with_app.
  - destruct s as [|d s]; [discriminate|].
    rewrite (sub_miss _ _ _ _ M). simpl in *.
    apply andb_true_iff in H as [-> H]; simpl.
    apply IH; [now apply stable_tail in St|assumption].
Qed.

(** *** Reading a copied piece of the output back in the input *)

Section Align.

Variable y : text.
Variable Bef : bool -> Prop.
Variable Aft : text -> Prop.

#[local] Abbreviation clear_before :=
  (no_start_inside_replacement repl y Bef).
#[local] Abbreviation clear_after := (no_replacement_inside repl y Aft).

Lemma sub_track_from (u v : text) :
  clear_after ->
  y = u ++ v -> u <> [] ->
  forall s pw nw b',
    Aft b' ->
    sub pw s nw = v ++ b' ->
    exists b, s = v ++ b /\ b' = sub (last_word v pw) b nw.
Proof.
  intros CA. revert u; induction v as [|c v IH]; intros u Ey Hu s pw nw b' HA E.
  - exists s; split; [reflexivity|]. now symmetry.
  - destruct s as [|d s]; [discriminate|].
    destruct (matches_at re pw (d :: s) nw) eqn:M.
    + exfalso. destruct (sub_hit _ _ _ M) as [rest [_ Hs]].
      rewrite Hs in E.
      apply (CA u (c :: v) (sub (last_word L pw) rest nw) b'); auto; discriminate.
    + rewrite (sub_miss _ _ _ _ M) in E. simpl in E. inversion E; subst d.
      destruct (IH (u ++ [c])) with (s := s) (pw := is_word c) (nw := nw)
        (b' := b') as [b [-> ->]]; auto.
      * now rewrite <- app_assoc.
      * intros F; apply app_eq_nil in F as [_ F]; discriminate.
      * exists b; split; reflexivity.
Qed.

Lemma sub_track :
  clear_after ->
  forall s pw nw b',
    Aft b' ->
    sub pw s nw = y ++ b' ->
    matches_at re pw s nw = false ->
    exists b, s = y ++ b /\ b' = sub (last_word y pw) b nw.
Proof.
  intros CA s pw nw b' HA E M.
  remember y as y0 eqn:Ey in E |- *.
  destruct y0 as [|c v].
  - exists s; split; [reflexivity|]. now symmetry.
  - destruct s as [|d s]; [discriminate|].
    rewrite (sub_miss _ _ _ _ M) in E. simpl in E. inversion E; subst d.
    destruct (sub_track_from [c] v CA) with (s := s) (pw := is_word c)
      (nw := nw) (b' := b') as [b [-> ->]]; auto; [discriminate|].
    exists b; split; reflexivity.
Qed.

(** Every occurrence of [y] in the output begins either where a
    replacement was written or where an occurrence of [y] in the input
    was copied character by character. *)
Lemma sub_align_gen :
  y <> [] ->
  clear_before ->
  clear_after ->
  forall s pw q nw a' b',
    sub pw s nw = a' ++ y ++ b' ->
    Bef (last_word a' q) ->
    Aft b' ->
    exists a s2,
      s = a ++ s2 /\
      a' = sub pw a (head_word s2 nw) /\
      sub (last_word a pw) s2 nw = y ++ b' /\
      (matches_at re (last_word a pw) s2 nw = true \/
       (matches_at re (last_word a pw) s2 nw = false /\
        exists b, s2 = y ++ b /\
                  b' = sub (last_word y (last_word a pw)) b nw)).
Proof.
  intros Hy CB CA.
  intros s; induction s as [s IH] using (induction_ltof1 _ (@List.length N)).
  unfold ltof in IH; intros pw q nw a' b' E HB HA.
  destruct s as [|c s].
  { destruct a'; [destruct y; [contradiction|discriminate]|discriminate]. }
  destruct a' as [|d a'].
  - exists [], (c :: s); simpl in *. repeat split; [assumption|].
    destruct (matches_at re pw (c :: s) nw) eqn:M; [now left|right].
    split; [reflexivity|]. now apply sub_track.
  - destruct (matches_at re pw (c :: s) nw) eqn:M.
    + destruct (matches_at_lit _ _ _ M) as [HL _].
      destruct (sub_hit _ _ _ M) as [rest [Es Hs]].
      rewrite Hs in E.
      destruct (app_eq_app_split _ _ _ _ E) as [[m [Ea Er]] | [m [Hm [ER Ey]]]].
      * assert (Hlt : List.length rest < List.length (c :: s)).
        { rewrite Es, List.length_app. destruct L; [contradiction|simpl; lia]. }
        rewrite Ea, last_word_app in HB.
        destruct (IH rest Hlt _ _ _ _ _ Er HB HA)
          as [a0 [s2 [E0 [Em [Ealign Hcase]]]]].
        exists (L ++ a0), s2. rewrite last_word_app.
        repeat split; try assumption.
        -- rewrite Es, E0; now rewrite app_assoc.
        -- assert (M' : matches_at re pw (L ++ a0) (head_word s2 nw) = true).
           { rewrite <- M, Es, E0, app_assoc. symmetry; apply matches_at_app.
             rewrite List.length_app; lia. }
           destruct (sub_hit _ _ _ M') as [r' [E' ->]].
           apply app_inv_head in E'; subst r'. now rewrite Ea, Em.
      * exfalso.
        apply (CB (d :: a') m q); auto; [discriminate|].
        now apply eq_sym, compat_app in Ey.
    + rewrite (sub_miss _ _ _ _ M) in E. simpl in E. inversion E; subst d.
      assert (Hlt : List.length s < List.length (c :: s)) by (simpl; lia).
      change (last_word (c :: a') q) with (last_word a' (is_word c)) in HB.
      destruct (IH s Hlt _ _ _ _ _ H1 HB HA)
        as [a0 [s2 [E0 [Em [Ealign Hcase]]]]].
      exists (c :: a0), s2.
      change (last_word (c :: a0) pw) with (last_word a0 (is_word c)).
      repeat split; try assumption.
      * now rewrite E0.
      * rewrite E0 in M. change (c :: a0 ++ s2) with ((c :: a0) ++ s2) in M.
        rewrite (sub_miss _ _ _ _ (matches_at_cut _ _ _ _ M)). now rewrite Em.
Qed.

End Align.

(** Any occurrence, when replacement and [y] share no position. *)
Lemma sub_align (y : text) :
  y <> [] ->
  apart_after repl y = true ->
  apart_after y repl = true ->
  forall s pw nw a' b',
    sub pw s nw = a' ++ y ++ b' ->
    exists a s2,
      s = a ++ s2 /\
      a' = sub pw a (head_word s2 nw) /\
      sub (last_word a pw) s2 nw = y ++ b' /\
      (matches_at re (last_word a pw) s2 nw = true \/
       (matches_at re (last_word a pw) s2 nw = false /\
        exists b, s2 = y ++ b /\
                  b' = sub (last_word y (last_word a pw)) b nw)).
Proof.
  intros Hy A1 A2 s pw nw a' b' E.
  apply (sub_align_gen y (fun _ => True) (fun _ => True) Hy)
    with (q := false) (a' := a'); auto.
  - intros p m q Hp Hm Er C _.
    rewrite (apart_after_spec _ _ A1 p m Hp Hm Er) in C. discriminate.
  - intros u v x b0 Hu Hv Ey Ex _.
    apply eq_sym, compat_app in Ex.
    rewrite (apart_after_spec _ _ A2 u v Hu Hv Ey) in Ex. discriminate.
Qed.


(** *** Counting occurrences across the scan *)

(** Counting across one scan, given what happens at a match. *)
Lemma sub_occurrences (tok : text) :
  stable L repl tok = true ->
  (forall pw rest nw x',
      matches_at re pw (L ++ rest) nw = true ->
      occurrences tok rest <= occurrences tok x' ->
      (forall a t, tok = a ++ t ->
                   starts_with t rest = true -> starts_with t x' = true) ->
      occurrences tok (L ++ rest) <= occurrences tok (repl ++ x')) ->
  forall s pw nw, occurrences tok s <= occurrences tok (sub pw s nw).
Proof.
  intros Hst Hhit.
  intros s; induction s as [s IH] using (induction_ltof1 _ (@List.length N)).
  unfold ltof in IH; intros pw nw.
  destruct s as [|c s]; [simpl; lia|].
  destruct (matches_at re pw (c :: s) nw) eqn:M.
  - destruct (matches_at_lit _ _ _ M) as [HL _].
    destruct (sub_hit _ _ _ M) as [rest [E ->]]. rewrite E in *.
    apply (Hhit pw rest nw); [assumption| |].
    + apply IH. rewrite List.length_app. destruct L; [contradiction|simpl; lia].
    + intros a t -> Ht. apply sub_keeps_prefix; [|assumption].
      now apply stable_suffix in Hst.
  - pose proof (sub_keeps_prefix tok Hst (c :: s) pw nw) as K.
    rewrite (sub_miss _ _ _ _ M) in *.
    assert (occurrences tok s <= occurrences tok (sub (is_word c) s nw))
      by (apply IH; simpl; lia).
    rewrite !occurrences_cons.
    destruct (starts_with tok (c :: s)); [rewrite K by reflexivity; lia|].
    destruct (starts_with tok (c :: sub (is_word c) s nw)); lia.
Qed.

(** *** Occurrences the scan cannot create *)

Lemma sub_align_copy (x : text) :
  x <> [] ->
  apart_after repl x = true ->
  apart_after x repl = true ->
  compat x repl = false ->
  forall s pw nw a' b',
    sub pw s nw = a' ++ x ++ b' ->
    exists a b,
      s = a ++ x ++ b /\
      matches_at re (last_word a pw) (x ++ b) nw = false /\
      a' = sub pw a (head_word (x ++ b) nw) /\
      b' = sub (last_word x (last_word a pw)) b nw.
Proof.
  intros Hx A1 A2 C s pw nw a' b' E.
  destruct (sub_align x Hx A1 A2 _ _ _ _ _ E)
    as [a [s2 [Es [Ea [Eal [M | [M [b [E2 Eb]]]]]]]]].
  - exfalso. destruct (sub_hit _ _ _ M) as [rest [_ Hs]].
    rewrite Hs in Eal. apply eq_sym, compat_app in Eal. congruence.
  - subst s2. now exists a, b.
Qed.

Lemma sub_no_new (x : text) :
  x <> [] ->
  apart_after repl x = true ->
  apart_after x repl = true ->
  compat x repl = false ->
  forall s pw nw, ~ occurs x s -> ~ occurs x (sub pw s nw).
Proof.
  intros Hx A1 A2 C s pw nw Hs [a' [b' E]].
  destruct (sub_align_copy x Hx A1 A2 C _ _ _ _ _ E) as [a [b [Es _]]].
  apply Hs. now exists a, b.
Qed.

End Scan.

Lemma matches_at_literal (x : text) (pw : bool) (b : text) (nw : bool) :
  x <> [] -> matches_at (literal x) pw (x ++ b) nw = true.
Proof.
  intros Hx; unfold matches_at. rewrite match_here_literal.
  destruct x; [contradiction|reflexivity].
Qed.

(** Replacing every occurrence of [x] leaves none when the replacement
    cannot form one. *)
Lemma sub_removes (x repl : text) :
  x <> [] ->
  apart_after repl x = true ->
  apart_after x repl = true ->
  compat x repl = false ->
  forall s pw nw, ~ occurs x (sub_from (literal x) repl 0 pw s nw).
Proof.
  intros Hx A1 A2 C s pw nw [a' [b' E]].
  destruct (sub_align_copy (literal x) repl x Hx A1 A2 C _ _ _ _ _ E)
    as [a [b [_ [M _]]]].
  rewrite matches_at_literal in M by assumption. discriminate.
Qed.

Section ScanMore.

Variable re : regex.
Variable repl : text.

#[local] Abbreviation L := (lit re).
#[local] Abbreviation sub := (sub_from re repl 0).

Lemma matches_at_boundary (pw : bool) (rest : text) (nw : bool) :
  trailing_boundary re = true ->
  matches_at re pw (L ++ rest) nw = true ->
  xorb (last_word L pw) (head_word rest nw) = true.
Proof.
  intros T M. destruct (trailing_boundary_split _ T) as [r Er].
  unfold matches_at in M.
  destruct (match_here re pw (L ++ rest) nw) as [[|k]|] eqn:H; try discriminate.
  rewrite Er in H at 1. apply match_here_snoc_boundary in H as [rest' [E Hx]].
  assert (EL : L = lit r) by (rewrite Er, lit_app; simpl; now rewrite app_nil_r).
  rewrite <- EL in *. apply app_inv_head in E; now subst rest'.
Qed.

Lemma count_ok_plain_hit (tok : text) :
  count_ok_plain tok L repl = true ->
  forall rest x',
    occurrences tok rest <= occurrences tok x' ->
    (forall a t, tok = a ++ t ->
                 starts_with t rest = true -> starts_with t x' = true) ->
    occurrences tok (L ++ rest) <= occurrences tok (repl ++ x').
Proof.
  unfold count_ok_plain.
  set (c := common_suffix L repl).
  set (pl := drop_suffix c L). set (pr := drop_suffix c repl).
  intros H rest x' Hle Hp.
  apply andb_true_iff in H as [H Hcnt]. apply andb_true_iff in H as [H Hout].
  apply andb_true_iff in H as [El Er].
  apply text_eqb_eq in El, Er. apply Nat.leb_le in Hcnt.
  rewrite <- El, <- Er, <- !app_assoc.
  rewrite occurrences_app_exact by assumption.
  pose proof (occurrences_app_ge tok pr (c ++ x')).
  pose proof (occurrences_app_mono tok c rest x' Hp Hle).
  lia.
Qed.

Lemma count_ok_bounded_hit (tok : text) :
  count_ok_bounded tok re repl = true ->
  forall pw rest nw x',
    matches_at re pw (L ++ rest) nw = true ->
    occurrences tok rest <= occurrences tok x' ->
    occurrences tok (L ++ rest) <= occurrences tok (repl ++ x').
Proof.
  unfold count_ok_bounded; intros H pw rest nw x' M Hle.
  apply andb_true_iff in H as [H Hrun]. apply andb_true_iff in H as [H Hsw].
  apply andb_true_iff in H as [Htb Hlast].
  pose proof (matches_at_boundary _ _ _ Htb M) as Hx.
  rewrite (last_word_true _ pw Hlast) in Hx.
  assert (Hh : head_word rest nw = false)
    by (destruct (head_word rest nw); [discriminate|reflexivity]).
  apply headb_false in Hh.
  rewrite (occurrences_app_exact_bounded _ _ _ Hrun Hh).
  apply starts_with_split in Hsw as [d ->]. rewrite <- app_assoc.
  pose proof (occurrences_app_ge tok L (d ++ x')).
  pose proof (occurrences_app_ge tok d x').
  lia.
Qed.

End ScanMore.

(** ** The pipeline *)

Lemma fold_left_map_stage (rs : list (string * string)) (s : text) :
  fold_left apply_rule rs s = run_stages (map compile_rule rs) s.
Proof.
  revert s; induction rs as [|r rs IH]; intros s; [reflexivity|].
  simpl. rewrite IH. reflexivity.
Qed.

Lemma update_text_stages (s : text) : update_text s = run_stages stages s.
Proof.
  unfold update_text, stages, run_stages, apply_rules.
  rewrite fold_left_app, fold_left_map_stage. reflexivity.
Qed.

Lemma run_stages_cons (st : stage) (sts : list stage) (s : text) :
  run_stages (st :: sts) s = run_stages sts (run_stage st s).
Proof. reflexivity. Qed.

(** A property every stage preserves is preserved by the pipeline. *)
Lemma run_stages_invariant (P : text -> Prop) (ok : stage -> bool) :
  (forall st s, ok st = true -> P s -> P (run_stage st s)) ->
  forall sts s, forallb ok sts = true -> P s -> P (run_stages sts s).
Proof.
  intros Hstep sts; induction sts as [|st sts IH]; intros s Hok HP; [assumption|].
  simpl in Hok; apply andb_true_iff in Hok as [H1 H2].
  rewrite run_stages_cons. apply IH; auto.
Qed.

(** ** Light tokens are never deleted *)

Lemma run_stage_occurrences (tok : text) (st : stage) (s : text) :
  keeps_count tok st = true ->
  occurrences tok s <= occurrences tok (run_stage st s).
Proof.
  unfold keeps_count; intros H.
  apply andb_true_iff in H as [Hst H].
  apply sub_occurrences; [assumption|].
  intros pw rest nw x' M Hle Hp.
  apply orb_true_iff in H as [H|H].
  - now apply count_ok_plain_hit.
  - now apply (count_ok_bounded_hit _ _ tok H pw rest nw).
Qed.

Lemma light_tokens_kept :
  forallb (fun tok => forallb (keeps_count (codes tok)) stages) light_tokens
  = true.
Proof. vm_compute. reflexivity. Qed.

(** C10.  For every input text and every light token of the fixed set,
    the text [update_file] computes has at least as many occurrences of
    the token as the input: no rule deletes a light token. *)
Theorem light_token_never_deleted (tok : string) (s : text) :
  In tok light_tokens ->
  occurrences (codes tok) s <= occurrences (codes tok) (update_text s).
Proof.
  intros Hin. rewrite update_text_stages.
  pose proof light_tokens_kept as K. rewrite forallb_forall in K.
  specialize (K _ Hin).
  apply (run_stages_invariant
           (fun t => occurrences (codes tok) s <= occurrences (codes tok) t)
           (keeps_count (codes tok))); auto.
  intros st t Hok Ht.
  pose proof (run_stage_occurrences _ _ t Hok). lia.
Qed.

(** ** Stages in sequence, and occurrences no stage creates *)

Lemma run_stages_app (a b : list stage) (s : text) :
  run_stages (a ++ b) s = run_stages b (run_stages a s).
Proof. unfold run_stages; apply fold_left_app. Qed.

Lemma run_stage_no_new (x : text) (st : stage) (s : text) :
  x <> [] ->
  never_made x st = true ->
  ~ occurs x s -> ~ occurs x (run_stage st s).
Proof.
  unfold never_made; intros Hx H.
  apply andb_true_iff in H as [H C]. apply andb_true_iff in H as [A1 A2].
  apply negb_true_iff in C. now apply sub_no_new.
Qed.

(** ** Every light token is followed by its dark counterpart *)














(** ** A piece of the text followed through the stages *)

Lemma clear_left_spec (f : N -> bool) (l y : text) :
  clear_left f l y = true ->
  forall p m, p <> [] -> m <> [] -> l = p ++ m -> compat m y = true ->
  lastb f p false = true.
Proof.
  unfold clear_left; rewrite forallb_forall; intros H p m Hp Hm E C.
  assert (Hin : In m (tails (tl l))).
  { apply in_tails; split; [assumption|].
    destruct p as [|c p]; [contradiction|]. subst l; now exists p. }
  specialize (H _ Hin). rewrite C in H; simpl in H.
  subst l. rewrite List.length_app, Nat.add_sub in H.
  rewrite firstn_app, Nat.sub_diag, firstn_all in H. simpl in H.
  now rewrite app_nil_r in H.
Qed.

Lemma clear_right_spec (g : N -> bool) (l y : text) :
  clear_right g l y = true ->
  forall p m, p <> [] -> m <> [] -> l = p ++ m ->
  compat (rev p) (rev y) = true ->
  headb g m false = true.
Proof.
  unfold clear_right; rewrite forallb_forall; intros H p m Hp Hm E C.
  assert (Hin : In m (tails (tl l))).
  { apply in_tails; split; [assumption|].
    destruct p as [|c p]; [contradiction|]. subst l; now exists p. }
  specialize (H _ Hin).
  subst l. rewrite List.length_app, Nat.add_sub in H.
  rewrite firstn_app, Nat.sub_diag, firstn_all in H. simpl in H.
  rewrite app_nil_r, C in H. exact H.
Qed.

Lemma lastb_nonempty (f : N -> bool) (a : text) (d d' : bool) :
  a <> [] -> lastb f a d = lastb f a d'.
Proof. destruct a; [contradiction|reflexivity]. Qed.

Lemma no_straddle_left (f : N -> bool) (l y pre post : text) :
  clear_left f l y = true ->
  lastb f pre false = false ->
  no_straddle l pre (y ++ post).
Proof.
  intros H Hpre x1 x2 y1 y2 E1 E2 Hx Hy El.
  assert (C : compat y1 y = true) by (now apply eq_sym, compat_app in E2).
  pose proof (clear_left_spec _ _ _ H x2 y1 Hx Hy (eq_sym El) C) as W.
  rewrite E1, lastb_app, (lastb_nonempty f x2 _ false Hx) in Hpre. congruence.
Qed.

Lemma no_straddle_right (g : N -> bool) (l y pre post : text) :
  clear_right g l y = true ->
  headb g post false = false ->
  no_straddle l (pre ++ y) post.
Proof.
  intros H Hpost x1 x2 y1 y2 E1 E2 Hx Hy El.
  assert (C : compat (rev x2) (rev y) = true).
  { apply (f_equal (@rev N)) in E1. rewrite !rev_app_distr in E1.
    now apply eq_sym, compat_app in E1. }
  pose proof (clear_right_spec _ _ _ H x2 y1 Hx Hy (eq_sym El) C) as W.
  rewrite E2 in Hpost. destruct y1; [contradiction|]. simpl in *. congruence.
Qed.

Lemma no_straddle_weaken (l x y z : text) :
  no_straddle l x (y ++ z) -> no_straddle l x y.
Proof.
  intros H x1 x2 y1 y2 E1 E2 Hx Hy.
  apply (H x1 x2 y1 (y2 ++ z)); auto. now rewrite E2, app_assoc.
Qed.

Lemma head_word_piece (y : text) (d : bool) :
  y <> [] -> head_word y d = headb is_word y false.
Proof. destruct y; [contradiction|reflexivity]. Qed.

Lemma last_word_piece (pre y : text) (d : bool) :
  y <> [] -> last_word (pre ++ y) d = lastb is_word y false.
Proof.
  intros H. rewrite last_word_app, last_word_lastb.
  now apply lastb_nonempty.
Qed.

Lemma same_ends_spec (y y' : text) :
  same_ends y y' = true ->
  y <> [] /\ y' <> []
  /\ headb is_word y' false = headb is_word y false
  /\ lastb is_word y' false = lastb is_word y false.
Proof.
  unfold same_ends; intros H. apply andb_true_iff in H as [Hh Hl].
  apply same_head_spec in Hh as [Hy [Hy' Hh]].
  apply same_last_spec in Hl as [_ [_ Hl]].
  repeat split; auto.
Qed.

Lemma mid_ok_same_ends (f g : N -> bool) (ctxs : list (bool * bool))
  (st : stage) (y y' : text) :
  mid_ok f g ctxs st y y' = true -> same_ends y y' = true.
Proof.
  unfold mid_ok; intros H.
  do 7 (apply andb_true_iff in H as [H _]). exact H.
Qed.

(** One stage, with the piece and its surroundings kept apart. *)
Lemma mid_ok_stage (f g : N -> bool) (ctxs : list (bool * bool))
  (st : stage) (y y' pre post : text) :
  mid_ok f g ctxs st y y' = true ->
  around f g ctxs pre post ->
  run_stage st (pre ++ y ++ post)
  = sub_from (fst st) (snd st) 0 false pre (headb is_word y false)
    ++ y'
    ++ sub_from (fst st) (snd st) 0 (lastb is_word y false) post false
  /\ around f g ctxs
       (sub_from (fst st) (snd st) 0 false pre (headb is_word y false))
       (sub_from (fst st) (snd st) 0 (lastb is_word y false) post false).
Proof.
  intros H [Hpre [Hpost Hctx]].
  destruct (same_ends_spec _ _ (mid_ok_same_ends _ _ _ _ _ _ H)) as [Hy _].
  unfold mid_ok in H.
  do 7 (let X := fresh "H" in apply andb_true_iff in H as [H X]).
  rewrite forallb_forall in H0. specialize (H0 _ Hctx).
  apply text_eqb_eq in H0. cbn [fst snd] in H0.
  pose proof (no_straddle_left f _ y pre post H2 Hpre) as NL.
  pose proof (no_straddle_right g _ y pre post H1 Hpost) as NR.
  split.
  - unfold run_stage. rewrite app_assoc.
    rewrite (sub_app _ _ _ _ _ _ NR).
    rewrite (sub_app _ _ _ _ _ _ (no_straddle_weaken _ _ _ _ NL)).
    rewrite H0, <- app_assoc.
    rewrite (last_word_piece pre y false Hy).
    rewrite (head_word_piece y (head_word post false) Hy). reflexivity.
  - repeat split.
    + now rewrite (lastb_sub _ _ _ H6).
    + now rewrite (headb_sub _ _ _ H5).
    + now rewrite (last_word_sub _ _ H4), (head_word_sub _ _ H3).
Qed.

Lemma mid_chain_stages (f g : N -> bool) (ctxs : list (bool * bool)) :
  forall sts y z pre post,
    mid_chain f g ctxs sts y = Some z ->
    around f g ctxs pre post ->
    run_stages sts (pre ++ y ++ post)
    = scan_in false (headb is_word y false) sts pre
      ++ z
      ++ scan_in (lastb is_word y false) false sts post
    /\ around f g ctxs
         (scan_in false (headb is_word y false) sts pre)
         (scan_in (lastb is_word y false) false sts post).
Proof.
  induction sts as [|st sts IH]; intros y z pre post H Har.
  - inversion H; subst. now split.
  - cbn [mid_chain] in H.
    destruct (mid_ok f g ctxs st y (mid_step ctxs st y)) eqn:Hok; [|discriminate].
    destruct (mid_ok_stage _ _ _ _ _ _ _ _ Hok Har) as [E Har'].
    destruct (same_ends_spec _ _ (mid_ok_same_ends _ _ _ _ _ _ Hok))
      as [_ [_ [Hh Hl]]].
    destruct (IH _ _ _ _ H Har') as [E' Har''].
    rewrite Hh, Hl in E', Har''.
    rewrite run_stages_cons, E. split; assumption.
Qed.

Lemma lastb_no_char (s : text) : lastb no_char s false = false.
Proof.
  assert (G : forall d, d = false -> lastb no_char s d = false).
  { induction s as [|c s IH]; intros d Hd; simpl; auto. }
  now apply G.
Qed.

Lemma headb_no_char (s : text) : headb no_char s false = false.
Proof. destruct s; reflexivity. Qed.

Lemma around_any (pre post : text) :
  around no_char no_char
    [(true, true); (true, false); (false, true); (false, false)] pre post.
Proof.
  repeat split; [apply lastb_no_char|apply headb_no_char|].
  destruct (last_word pre false), (head_word post false); simpl; auto.
Qed.

(** ** Word boundaries of the [bg-white] rule *)

Lemma bg_white_unmatched :
  mid_ok no_char no_char [(true, true); (true, false); (false, true)]
    (compile_rule ("\bbg-white\b", "bg-white dark:bg-black")%string)
    (codes "bg-white") (codes "bg-white") = true.
Proof. vm_compute. reflexivity. Qed.

Lemma bg_whiteish_chain :
  mid_chain no_char no_char
    [(true, true); (true, false); (false, true); (false, false)] stages
    (codes "bg-whiteish")
  = Some (codes "bg-whiteish").
Proof. vm_compute. reflexivity. Qed.

Lemma bg_whiteish_ends :
  headb is_word (codes "bg-whiteish") false = true
  /\ lastb is_word (codes "bg-whiteish") false = true.
Proof. split; vm_compute; reflexivity. Qed.

Lemma apply_rule_stage (s : text) (r : string * string) :
  apply_rule s r = run_stage (compile_rule r) s.
Proof. reflexivity. Qed.

Lemma compile_rule_fst (r : string * string) :
  fst (compile_rule r) = re_compile (fst r).
Proof. reflexivity. Qed.

Lemma compile_rule_snd (r : string * string) :
  snd (compile_rule r) = codes (snd r).
Proof. reflexivity. Qed.

Lemma fst_pair (A B : Type) (a : A) (b : B) : fst (a, b) = a.
Proof. reflexivity. Qed.

Lemma snd_pair (A B : Type) (a : A) (b : B) : snd (a, b) = b.
Proof. reflexivity. Qed.

Lemma bg_white_ends :
  headb is_word (codes "bg-white") false = true
  /\ lastb is_word (codes "bg-white") false = true.
Proof. split; vm_compute; reflexivity. Qed.

(** C3 (amended).  The pairing rule for [bg-white] does not match an
    occurrence of [bg-white] that has a word character (a letter, a
    digit or the underscore) directly before it or directly behind it:
    the scan copies the occurrence and inserts nothing in it or after
    it, whatever the rest of the text is.  So a longer token such as
    [bg-whiteish] is left as it is by the whole pipeline, in every
    text. *)
Theorem bg_white_rule_skips_inside_words (pre post : text) :
  (last_word pre false = true \/ head_word post false = true ->
   apply_rule (pre ++ codes "bg-white" ++ post)
     ("\bbg-white\b", "bg-white dark:bg-black")%string
   = sub_from (re_compile "\bbg-white\b") (codes "bg-white dark:bg-black")
       0 false pre true
     ++ codes "bg-white"
     ++ sub_from (re_compile "\bbg-white\b") (codes "bg-white dark:bg-black")
          0 true post false)
  /\ update_text (pre ++ codes "bg-whiteish" ++ post)
     = before_word pre ++ codes "bg-whiteish" ++ after_word post.
Proof.
  split.
  - intros H. rewrite apply_rule_stage.
    destruct (mid_ok_stage _ _ _ _ _ _ pre post bg_white_unmatched) as [E _].
    + repeat split; [apply lastb_no_char|apply headb_no_char|].
      destruct H as [-> | ->].
      * destruct (head_word post false); simpl; auto.
      * destruct (last_word pre false); simpl; auto.
    + destruct bg_white_ends as [Eh El]. rewrite Eh, El in E. rewrite E.
      rewrite compile_rule_fst, compile_rule_snd, fst_pair, snd_pair.
      reflexivity.
  - rewrite update_text_stages.
    destruct (mid_chain_stages _ _ _ _ _ _ pre post bg_whiteish_chain
                (around_any pre post)) as [E _].
    destruct bg_whiteish_ends as [Eh El]. rewrite Eh, El in E. exact E.
Qed.

(** ** A second run *)

(** C1.  The pipeline is not idempotent: on the input [bg-gray-50] the
    first run appends the dark token and a second run appends it
    again. *)
Theorem second_run_changes_text :
  update_text (codes "bg-gray-50") = codes "bg-gray-50 dark:bg-gray-900"
  /\ update_text (update_text (codes "bg-gray-50"))
     = codes "bg-gray-50 dark:bg-gray-900 dark:bg-gray-900".
Proof. split; vm_compute; reflexivity. Qed.

(** ** The conditional write *)

Lemma search_none_sub (re : regex) (repl : text) :
  forall s pw nw,
    search_from re pw s nw = false -> sub_from re repl 0 pw s nw = s.
Proof.
  induction s as [|c s IH]; intros pw nw H; [reflexivity|].
  cbn [search_from] in H. apply orb_false_iff in H as [M H].
  rewrite (sub_miss _ _ _ _ _ _ M). now rewrite IH.
Qed.

Lemma apply_rules_fixed (rs : list (string * string)) (s : text) :
  (forall r, In r rs -> re_search (re_compile (fst r)) s = false) ->
  apply_rules rs s = s.
Proof.
  induction rs as [|r rs IH]; intros H; [reflexivity|].
  unfold apply_rules; cbn [fold_left].
  assert (E : apply_rule s r = s).
  { unfold apply_rule, re_sub. apply search_none_sub. apply H. now left. }
  rewrite E. apply IH. intros r' Hr'. apply H. now right.
Qed.

Lemma final_pattern :
  re_compile "dark:bg-black dark:bg-gray-800"
  = literal (codes "dark:bg-black dark:bg-gray-800").
Proof. vm_compute. reflexivity. Qed.

Lemma collision_rule_in_table :
  In ("dark:bg-black dark:bg-gray-800", "dark:bg-black")%string replacements.
Proof. unfold replacements. do 12 right. left. reflexivity. Qed.

(** A text none of the patterns matches in is left as it is. *)
Lemma update_text_fixed (content : text) :
  (forall r, In r replacements ->
             re_search (re_compile (fst r)) content = false) ->
  update_text content = content.
Proof.
  intros H. unfold update_text. rewrite (apply_rules_fixed _ _ H).
  unfold str_replace. apply search_none_sub.
  pose proof (H _ collision_rule_in_table) as K.
  rewrite fst_pair, final_pattern in K. exact K.
Qed.

Lemma text_eqb_refl (a : text) : text_eqb a a = true.
Proof. now apply text_eqb_eq. Qed.

Lemma text_eqb_neq (a b : text) : a <> b -> text_eqb a b = false.
Proof.
  intros H. destruct (text_eqb a b) eqn:E; [|reflexivity].
  apply text_eqb_eq in E. contradiction.
Qed.

Lemma update_file_unchanged (filepath : text) (w : world) (f : file)
  (content : text) :
  files w (resolve filepath) = Some f -> readable f = true ->
  decode (data f) = Some content ->
  update_text content = content ->
  update_file filepath w = called filepath w.
Proof.
  intros Hf Hr Hd Hu. unfold update_file. cbn [called files].
  rewrite Hf, Hr, Hd, Hu, text_eqb_refl. reflexivity.
Qed.

(** C6.  For a file that can be read and decoded, [update_file] leaves
    the file system and the output as they are when the transformed text
    equals the content read, and writes the encoded new text to this
    file only and prints one line when it differs (and the file can be
    written).  In particular a file in whose content none of the
    patterns of the table matches is neither written nor reported. *)
Theorem update_file_writes_iff_changed (filepath : text) (w : world)
  (f : file) (content : text) :
  files w (resolve filepath) = Some f ->
  readable f = true ->
  decode (data f) = Some content ->
  (update_text content = content ->
   files (update_file filepath w) = files w
   /\ stdout (update_file filepath w) = stdout w
   /\ raised (update_file filepath w) = raised w)
  /\ (update_text content <> content -> writable f = true ->
      files (update_file filepath w) (resolve filepath)
      = Some (mkFile (encode (update_text content)) (readable f) (writable f))
      /\ (forall p, p <> resolve filepath ->
                    files (update_file filepath w) p = files w p)
      /\ stdout (update_file filepath w)
         = stdout w ++ [codes "Updated " ++ filepath])
  /\ ((forall r, In r replacements ->
                 re_search (re_compile (fst r)) content = false) ->
      files (update_file filepath w) = files w
      /\ stdout (update_file filepath w) = stdout w).
Proof.
  intros Hf Hr Hd. split; [|split].
  - intros Hu. now rewrite (update_file_unchanged _ _ _ _ Hf Hr Hd Hu).
  - intros Hu Hw.
    assert (E : update_file filepath w
                = print (codes "Updated " ++ filepath)
                    (write_file filepath f (encode (update_text content))
                       (called filepath w))).
    { unfold update_file. cbn [called files].
      now rewrite Hf, Hr, Hd, (text_eqb_neq _ _ Hu), Hw. }
    rewrite E. cbn [print write_file called files stdout].
    repeat split.
    + now rewrite text_eqb_refl.
    + intros p Hp. now rewrite (text_eqb_neq _ _ Hp).
  - intros H.
    now rewrite (update_file_unchanged _ _ _ _ Hf Hr Hd (update_text_fixed _ H)).
Qed.

(** ** The walk *)

Lemma update_files_raised (ps : list text) (w : world) (e : exn) :
  raised w = Some e -> update_files ps w = w.
Proof.
  intros H; induction ps as [|p ps IH]; [reflexivity|].
  unfold update_files in *; cbn [fold_left]. now rewrite H.
Qed.

Lemma update_files_cons (p : text) (ps : list text) (w : world) :
  raised w = None ->
  update_files (p :: ps) w = update_files ps (update_file p w).
Proof. intros H. unfold update_files; cbn [fold_left]. now rewrite H. Qed.

Lemma update_files_app (ps qs : list text) (w : world) :
  update_files (ps ++ qs) w = update_files qs (update_files ps w).
Proof. unfold update_files; apply fold_left_app. Qed.

Lemma visit_files (root : text) (names : list text) :
  forall w,
    fold_left (visit root) names w
    = update_files
        (map (path_join root) (filter (ends_with (codes ".tsx")) names)) w.
Proof.
  induction names as [|n names IH]; intros w; [reflexivity|].
  cbn [fold_left filter]. rewrite IH. unfold visit.
  destruct (raised w) as [e|] eqn:R.
  - now rewrite !(update_files_raised _ _ _ R).
  - destruct (ends_with (codes ".tsx") n); [|reflexivity].
    cbn [map]. now rewrite (update_files_cons _ _ _ R).
Qed.

Lemma process_directory_targets (directory : text) (tree : list entry)
  (w : world) :
  process_directory directory tree w
  = update_files (targets directory tree) w.
Proof.
  unfold process_directory, targets.
  generalize (walk directory tree) as ts. intros ts; revert w.
  induction ts as [|t ts IH]; intros w; [reflexivity|].
  cbn [fold_left flat_map]. rewrite update_files_app, IH, visit_files.
  reflexivity.
Qed.

(** ** Read and decode errors *)

Lemma update_file_read_fails (p : text) (w : world) :
  read_fails w p ->
  exists e,
    update_file p w = mkWorld (files w) (stdout w) (calls w ++ [p]) (Some e).
Proof.
  unfold update_file; cbn [called files].
  intros [Hn | [f [Hf [Hr | Hd]]]].
  - rewrite Hn. now exists FileNotFoundError.
  - rewrite Hf, Hr. now exists PermissionError.
  - rewrite Hf, Hd. destruct (readable f); cbn [negb].
    + now exists UnicodeDecodeError.
    + now exists PermissionError.
Qed.

(** C7.  When opening, reading or decoding a file fails, [update_file]
    raises with the file system and the output unchanged; nothing is
    transformed or written.  The exception is not caught: in
    [process_directory] the world in which the first file fails to be
    read is, with the exception, the final one. *)
Theorem read_error_ends_the_run (directory : text) (tree : list entry)
  (w : world) (before after : list text) (p : text) :
  targets directory tree = before ++ p :: after ->
  raised (update_files before w) = None ->
  read_fails (update_files before w) p ->
  exists e,
    update_file p (update_files before w)
    = mkWorld (files (update_files before w)) (stdout (update_files before w))
        (calls (update_files before w) ++ [p]) (Some e)
    /\ process_directory directory tree w
       = update_file p (update_files before w).
Proof.
  intros Ht Hr Hf.
  destruct (update_file_read_fails _ _ Hf) as [e E].
  exists e. split; [assumption|].
  rewrite process_directory_targets, Ht, update_files_app.
  rewrite (update_files_cons _ _ _ Hr).
  apply (update_files_raised _ _ e). now rewrite E.
Qed.

(** ** Which files the walk reaches *)

Lemma in_file_names (n : text) (es : list entry) :
  In n (file_names es) <-> In (File n) es.
Proof.
  unfold file_names. rewrite in_flat_map. split.
  - intros [[m|m sub] [Hin H]]; simpl in H; [|contradiction].
    destruct H as [<-|[]]. exact Hin.
  - intros H. exists (File n). split; [assumption|now left].
Qed.

(** A file is found by recursive descent exactly when some triple of
    the walk lists it under its directory. *)
Lemma entry_files_walk (e : entry) :
  forall top r n,
    In (r, n) (entry_files top e) <->
    (e = File n /\ r = top) \/
    (exists t, In t (walk_entry top e) /\ fst (fst t) = r /\ In n (snd t)).
Proof.
  induction e as [m | m sub IH] using entry_induction; intros top r n.
  - simpl. split.
    + intros [E|[]]. inversion E; subst. now left.
    + intros [[E ->] | [t [[] _]]]. inversion E; subst. now left.
  - cbn [entry_files walk_entry]. rewrite in_flat_map. split.
    + intros [e [Hin He]]. right.
      rewrite Forall_forall in IH. apply (IH e Hin) in He.
      destruct He as [[-> ->] | [t [Ht [Hr Hn]]]].
      * eexists; split; [left; reflexivity|]. cbn [fst snd].
        split; [reflexivity|]. now apply in_file_names.
      * exists t. split; [right; apply in_flat_map; now exists e|now split].
    + intros [[E _] | [t [[<- | Ht] [Hr Hn]]]]; [discriminate| |].
      * cbn [fst snd] in Hr, Hn. apply in_file_names in Hn.
        exists (File n). split; [assumption|]. simpl. subst r. now left.
      * apply in_flat_map in Ht as [e [Hin Ht]]. exists e. split; [assumption|].
        rewrite Forall_forall in IH. apply (IH e Hin). right. now exists t.
Qed.

Lemma tree_files_walk (top : text) (es : list entry) (r n : text) :
  In (r, n) (tree_files top es) <->
  exists t, In t (walk top es) /\ fst (fst t) = r /\ In n (snd t).
Proof.
  unfold tree_files, walk. rewrite in_flat_map. split.
  - intros [e [Hin He]]. apply entry_files_walk in He.
    destruct He as [[-> ->] | [t [Ht [Hr Hn]]]].
    + eexists; split; [left; reflexivity|]. cbn [fst snd].
      split; [reflexivity|]. now apply in_file_names.
    + exists t. split; [right; apply in_flat_map; now exists e|now split].
  - intros [t [[<- | Ht] [Hr Hn]]].
    + cbn [fst snd] in Hr, Hn. apply in_file_names in Hn.
      exists (File n). split; [assumption|]. simpl. subst r. now left.
    + apply in_flat_map in Ht as [e [Hin Ht]]. exists e. split; [assumption|].
      apply entry_files_walk. right. now exists t.
Qed.

Lemma targets_spec (directory : text) (tree : list entry) (p : text) :
  In p (targets directory tree) <->
  exists root name,
    In (root, name) (tree_files directory tree) /\
    ends_with (codes ".tsx") name = true /\
    p = path_join root name.
Proof.
  unfold targets. rewrite in_flat_map. split.
  - intros [t [Ht Hp]]. apply in_map_iff in Hp as [n [<- Hn]].
    apply filter_In in Hn as [Hn Hs].
    exists (fst (fst t)), n. repeat split; [|assumption].
    apply tree_files_walk. now exists t.
  - intros [root [name [Hin [Hs ->]]]].
    apply tree_files_walk in Hin as [t [Ht [<- Hn]]].
    exists t. split; [assumption|]. apply in_map. now apply filter_In.
Qed.

Lemma ends_with_app (suf a b : text) :
  ends_with suf b = true -> ends_with suf (a ++ b) = true.
Proof.
  unfold ends_with; intros H. rewrite rev_app_distr.
  now apply starts_with_app_r.
Qed.

Lemma ends_with_path_join (suf a b : text) :
  ends_with suf b = true -> ends_with suf (path_join a b) = true.
Proof.
  intros H. unfold path_join.
  destruct (starts_with (codes "/") b); [assumption|].
  destruct (_ || _).
  - now apply ends_with_app.
  - apply ends_with_app. now apply ends_with_app.
Qed.

Lemma targets_tsx (directory : text) (tree : list entry) (p : text) :
  In p (targets directory tree) -> ends_with (codes ".tsx") p = true.
Proof.
  intros H. apply targets_spec in H as [root [name [_ [Hs ->]]]].
  now apply ends_with_path_join.
Qed.

Lemma update_file_calls (p : text) (w : world) :
  calls (update_file p w) = calls w ++ [p].
Proof.
  unfold update_file; cbn [called files].
  destruct (files w (resolve p)) as [f|]; [|reflexivity].
  destruct (negb (readable f)); [reflexivity|].
  destruct (decode (data f)) as [content|]; [|reflexivity].
  destruct (negb _); [|reflexivity].
  destruct (writable f); reflexivity.
Qed.

Lemma update_file_other (p q : text) (w : world) :
  q <> resolve p -> files (update_file p w) q = files w q.
Proof.
  intros Hq. unfold update_file; cbn [called files].
  destruct (files w (resolve p)) as [f|]; [|reflexivity].
  destruct (negb (readable f)); [reflexivity|].
  destruct (decode (data f)) as [content|]; [|reflexivity].
  destruct (negb _); [|reflexivity].
  destruct (writable f); [|reflexivity].
  cbn. now rewrite (text_eqb_neq _ _ Hq).
Qed.

Lemma update_files_calls (ps : list text) :
  forall w,
    raised w = None ->
    exists done rest,
      ps = done ++ rest /\
      calls (update_files ps w) = calls w ++ done /\
      (raised (update_files ps w) = None -> rest = []).
Proof.
  induction ps as [|p ps IH]; intros w Hw.
  - exists [], []. repeat split. cbn. now rewrite app_nil_r.
  - rewrite (update_files_cons _ _ _ Hw).
    destruct (raised (update_file p w)) as [e|] eqn:R.
    + rewrite (update_files_raised _ _ _ R).
      exists [p], ps. repeat split; [apply update_file_calls|].
      rewrite R; discriminate.
    + destruct (IH _ R) as [done [rest [-> [Hc Hr]]]].
      exists (p :: done), rest. repeat split; [|assumption].
      rewrite Hc, update_file_calls, <- app_assoc. reflexivity.
Qed.

Lemma update_files_other (q : text) (ps : list text) :
  (forall p, In p ps -> q <> resolve p) ->
  forall w, files (update_files ps w) q = files w q.
Proof.
  induction ps as [|p ps IH]; intros H w; [reflexivity|].
  destruct (raised w) as [e|] eqn:R.
  - now rewrite (update_files_raised _ _ _ R).
  - rewrite (update_files_cons _ _ _ R), IH.
    + apply update_file_other, H. now left.
    + intros p' Hp'. apply H. now right.
Qed.

(** * Further properties of the code *)

(** ** [update_file]: what it leaves alone *)

(** X1.  When the text changes but the file cannot be opened for
    writing, [update_file] raises [PermissionError]: no file is changed
    and nothing is printed. *)
Theorem update_file_write_refused (filepath : text) (w : world) (f : file)
  (content : text) :
  files w (resolve filepath) = Some f ->
  readable f = true ->
  decode (data f) = Some content ->
  update_text content <> content ->
  writable f = false ->
  update_file filepath w
  = mkWorld (files w) (stdout w) (calls w ++ [filepath])
      (Some PermissionError).
Proof.
  intros Hf Hr Hd Hu Hw. unfold update_file. cbn [called files].
  rewrite Hf, Hr, Hd, (text_eqb_neq _ _ Hu), Hw. reflexivity.
Qed.

(** X2.  [update_file] changes no file other than the one its path
    names, never creates a file that was not there, and leaves a file
    that was there in place with its permissions. *)
Theorem update_file_frame (filepath : text) (w : world) :
  (forall q,
      q <> resolve filepath -> files (update_file filepath w) q = files w q)
  /\ (files w (resolve filepath) = None ->
      files (update_file filepath w) (resolve filepath) = None)
  /\ (forall f,
        files w (resolve filepath) = Some f ->
        exists bytes,
          files (update_file filepath w) (resolve filepath)
          = Some (mkFile bytes (readable f) (writable f))).
Proof.
  split; [intros q Hq; now apply update_file_other|].
  split.
  - intros Hn. unfold update_file. cbn [called files]. now rewrite Hn.
  - intros f Hf. unfold update_file. cbn [called files]. rewrite Hf.
    destruct f as [d r wr]. cbn [data readable writable].
    destruct (negb r); [now exists d|].
    destruct (decode d) as [content|]; [|now exists d].
    destruct (negb _); [|now exists d].
    destruct wr; [|now exists d].
    exists (encode (update_text content)). cbn. now rewrite text_eqb_refl.
Qed.

(** ** A run in which every file can be processed *)

Lemma update_file_ready (p : text) (w : world) (f : file) :
  ready w p ->
  files w (resolve p) = Some f ->
  raised (update_file p w) = raised w
  /\ files (update_file p w) (resolve p) = Some (rewritten f)
  /\ stdout (update_file p w)
     = stdout w ++ (if changes w p then [codes "Updated " ++ p] else []).
Proof.
  intros [f' [content [Hf [Hr [Hd Hw]]]]] Hf0.
  rewrite Hf0 in Hf; inversion Hf; subst f'.
  unfold update_file, changes, rewritten. cbn [called files].
  rewrite Hf0, Hr, Hd. cbn [negb].
  destruct (text_eqb (update_text content) content) eqn:E; cbn [negb].
  - split; [reflexivity|]. split; [assumption|]. now rewrite app_nil_r.
  - assert (Hne : update_text content <> content).
    { intros H. apply text_eqb_eq in H. congruence. }
    rewrite (Hw Hne). cbn [print write_file called files stdout raised].
    rewrite text_eqb_refl, Hr, (Hw Hne). repeat split.
Qed.

Lemma ready_same_file (w w' : world) (p : text) :
  files w' (resolve p) = files w (resolve p) -> ready w p -> ready w' p.
Proof.
  intros E [f [content H]]. exists f, content. now rewrite E.
Qed.

Lemma changes_same_file (w w' : world) (p : text) :
  files w' (resolve p) = files w (resolve p) -> changes w' p = changes w p.
Proof. intros E. unfold changes. now rewrite E. Qed.

Lemma in_map_resolve (q : text) (ps : list text) :
  In q ps -> In (resolve q) (map resolve ps).
Proof. apply in_map. Qed.

Lemma update_files_ready (ps : list text) :
  forall w,
    raised w = None ->
    NoDup (map resolve ps) ->
    (forall p, In p ps -> ready w p) ->
    raised (update_files ps w) = None
    /\ calls (update_files ps w) = calls w ++ ps
    /\ (forall p f, In p ps -> files w (resolve p) = Some f ->
                    files (update_files ps w) (resolve p)
                    = Some (rewritten f))
    /\ stdout (update_files ps w)
       = stdout w
         ++ map (fun p => codes "Updated " ++ p) (filter (changes w) ps).
Proof.
  induction ps as [|p ps IH]; intros w Hw Hnd Hready.
  - cbn. rewrite !app_nil_r. repeat split; auto. intros p f [].
  - rewrite (update_files_cons _ _ _ Hw).
    cbn [map] in Hnd.
    inversion Hnd as [|p' ps' Hnotin Hnd']; subst.
    destruct (Hready p (or_introl eq_refl)) as [f [content Hf]].
    pose proof (update_file_ready p w f (Hready p (or_introl eq_refl))
                  (proj1 Hf)) as [Hr [Hfp Hout]].
    assert (Hsame : forall q, In q ps ->
                              files (update_file p w) (resolve q)
                              = files w (resolve q)).
    { intros q Hq. apply update_file_other. intros E.
      apply Hnotin. rewrite <- E. now apply in_map_resolve. }
    destruct (IH (update_file p w)) as [Hr' [Hc' [Hf' Hout']]].
    + now rewrite Hr.
    + assumption.
    + intros q Hq. apply (ready_same_file w); [now apply Hsame|].
      apply Hready. now right.
    + repeat split.
      * assumption.
      * rewrite Hc', update_file_calls, <- app_assoc. reflexivity.
      * intros q g [<- | Hq] Hg.
        -- rewrite update_files_other.
           ++ rewrite Hfp. rewrite (proj1 Hf) in Hg. now inversion Hg.
           ++ intros q Hq E. apply Hnotin. rewrite E.
              now apply in_map_resolve.
        -- apply Hf'; [assumption|]. now rewrite Hsame.
      * rewrite Hout', Hout. cbn [filter].
        rewrite (filter_ext_in (changes (update_file p w)) (changes w) ps).
        -- destruct (changes w p); cbn [map app];
             rewrite <- app_assoc; reflexivity.
        -- intros q Hq. apply changes_same_file. now apply Hsame.
Qed.

(** X3.  When no two of the paths found with a name in [.tsx] name the
    same file and each of these files can be processed, the run raises
    nothing and calls [update_file] on each of the paths, in the order
    of the walk. *)
Theorem process_directory_completes (directory : text) (tree : list entry)
  (w : world) :
  raised w = None ->
  NoDup (map resolve (targets directory tree)) ->
  (forall p, In p (targets directory tree) -> ready w p) ->
  raised (process_directory directory tree w) = None
  /\ calls (process_directory directory tree w)
     = calls w ++ targets directory tree.
Proof.
  intros Hw Hnd Hr. rewrite process_directory_targets.
  destruct (update_files_ready _ w Hw Hnd Hr) as [H1 [H2 _]]. now split.
Qed.

(** X4.  In such a run every file found with a name in [.tsx] ends up
    holding the encoded transformed text when the text changes and is
    left as it was otherwise, and the lines printed are one [Updated]
    line for each file whose text changed, in the order of the walk. *)
Theorem process_directory_rewrites_files (directory : text)
  (tree : list entry) (w : world) :
  raised w = None ->
  NoDup (map resolve (targets directory tree)) ->
  (forall p, In p (targets directory tree) -> ready w p) ->
  (forall p f,
      In p (targets directory tree) -> files w (resolve p) = Some f ->
      files (process_directory directory tree w) (resolve p)
      = Some (rewritten f))
  /\ stdout (process_directory directory tree w)
     = stdout w
       ++ map (fun p => codes "Updated " ++ p)
            (filter (changes w) (targets directory tree)).
Proof.
  intros Hw Hnd Hr. rewrite process_directory_targets.
  destruct (update_files_ready _ w Hw Hnd Hr) as [_ [_ [H3 H4]]]. now split.
Qed.

(** C8 (amended).  [process_directory] hands to [update_file] the joined
    paths of the files found under the root by recursive descent whose
    name ends with [.tsx], in the order of the walk, and no other path:
    always an initial segment of them (all of them unless an exception
    ended the run), and all of them, without an exception, when each of
    the files they name can be processed (read, decoded, and written if
    its text changes) and no two of them name the same file.  A path
    that does not end with [.tsx] is never opened.  Files are read and
    written through the paths handed over only: a file that none of
    these paths names is left as it was. *)
Theorem process_directory_visits_tsx_files (directory : text)
  (tree : list entry) (w : world) :
  raised w = None ->
  (forall p,
      In p (targets directory tree) <->
      exists root name,
        In (root, name) (tree_files directory tree) /\
        ends_with (codes ".tsx") name = true /\
        p = path_join root name)
  /\ (exists done rest,
        targets directory tree = done ++ rest /\
        calls (process_directory directory tree w) = calls w ++ done /\
        (raised (process_directory directory tree w) = None -> rest = []))
  /\ (NoDup (map resolve (targets directory tree)) ->
      (forall p, In p (targets directory tree) -> ready w p) ->
      raised (process_directory directory tree w) = None
      /\ calls (process_directory directory tree w)
         = calls w ++ targets directory tree)
  /\ (forall p,
        ends_with (codes ".tsx") p = false ->
        ~ In p (targets directory tree))
  /\ (forall q,
        (forall p, In p (targets directory tree) -> q <> resolve p) ->
        files (process_directory directory tree w) q = files w q).
Proof.
  intros Hw. rewrite process_directory_targets.
  split; [intros p; apply targets_spec|].
  split; [now apply update_files_calls|].
  split.
  - intros Hnd Hr.
    destruct (update_files_ready _ w Hw Hnd Hr) as [H1 [H2 _]]. now split.
  - split.
    + intros p Hp Hin. apply targets_tsx in Hin. congruence.
    + intros q Hq. now apply update_files_other.
Qed.

Lemma flat_map_flat_map (A B C : Type) (g : B -> list C) (h : A -> list B)
  (l : list A) :
  flat_map g (flat_map h l) = flat_map (fun x => flat_map g (h x)) l.
Proof.
  induction l as [|x l IH]; [reflexivity|].
  cbn [flat_map]. now rewrite flat_map_app, IH.
Qed.

(** ** The run stays under its root *)

Lemma path_join_under_src (r n : text) :
  under_src r ->
  starts_with (codes "/") n = false ->
  starts_with (codes "src/") (path_join r n) = true.
Proof.
  intros [-> | H] Hn; unfold path_join; rewrite Hn.
  - vm_compute. reflexivity.
  - destruct (_ || _); now apply starts_with_app_r.
Qed.

Lemma entry_files_under_src (e : entry) :
  forall top r n,
    names_ok e = true ->
    under_src top ->
    In (r, n) (entry_files top e) ->
    under_src r /\ starts_with (codes "/") n = false.
Proof.
  induction e as [m | m sub IH] using entry_induction; intros top r n Hok Ht Hin.
  - cbn in Hin. destruct Hin as [E|[]]. inversion E; subst.
    split; [assumption|]. cbn [names_ok] in Hok. now apply negb_true_iff.
  - cbn [entry_files] in Hin. apply in_flat_map in Hin as [e [He Hin]].
    cbn [names_ok] in Hok. apply andb_true_iff in Hok as [Hm Hsub].
    rewrite forallb_forall in Hsub. rewrite Forall_forall in IH.
    apply (IH e He (path_join top m)); auto.
    right. apply path_join_under_src; [assumption|now apply negb_true_iff].
Qed.

Lemma targets_under_src (tree : list entry) (p : text) :
  forallb names_ok tree = true ->
  In p (targets (codes "src") tree) ->
  starts_with (codes "src/") p = true.
Proof.
  intros Hok Hin. apply targets_spec in Hin as [root [name [Hin [_ ->]]]].
  unfold tree_files in Hin. apply in_flat_map in Hin as [e [He Hin]].
  rewrite forallb_forall in Hok.
  destruct (entry_files_under_src e _ _ _ (Hok e He) (or_introl eq_refl) Hin)
    as [Hr Hn].
  now apply path_join_under_src.
Qed.

(** X6.  Started on [src] with names as a directory listing gives them
    (none beginning with a slash), the program hands only paths that
    begin with [src/] to [update_file], and a file that no path
    beginning with [src/] names is left as it was. *)
Theorem main_stays_under_src (tree : list entry) (w : world) :
  forallb names_ok tree = true ->
  raised w = None ->
  (exists done,
      calls (main tree w) = calls w ++ done
      /\ forall p, In p done -> starts_with (codes "src/") p = true)
  /\ (forall q,
        (forall p, starts_with (codes "src/") p = true -> q <> resolve p) ->
        files (main tree w) q = files w q).
Proof.
  intros Hok Hw. unfold main. rewrite process_directory_targets. split.
  - destruct (update_files_calls (targets (codes "src") tree) w Hw)
      as [done [rest [E [Hc _]]]].
    exists done. split; [assumption|].
    intros p Hp. apply (targets_under_src tree); [assumption|].
    rewrite E. apply in_or_app. now left.
  - intros q Hq. apply update_files_other. intros p Hp.
    apply Hq. now apply (targets_under_src tree).
Qed.

(** ** Characters the rules do not know *)

Lemma no_straddle_char_right (l a b : text) (c : N) :
  ~ In c l -> no_straddle l a (c :: b).
Proof.
  intros Hc x1 x2 y1 y2 _ Ey _ Hy El. apply Hc. rewrite <- El.
  destruct y1 as [|d y1]; [contradiction|]. inversion Ey; subst d.
  apply in_or_app. right. now left.
Qed.

Lemma no_straddle_char_left (l a b : text) (c : N) :
  ~ In c l -> no_straddle l (a ++ [c]) b.
Proof.
  intros Hc x1 x2 y1 y2 Ex _ Hx _ El. apply Hc. rewrite <- El.
  apply in_or_app. left.
  destruct (exists_last Hx) as [x2' [d ->]].
  rewrite app_assoc in Ex. apply app_inj_tail in Ex as [_ ->].
  apply in_or_app. right. now left.
Qed.

Lemma sub_one_char (re : regex) (repl : text) (c : N) (pw nw : bool) :
  ~ In c (lit re) -> sub_from re repl 0 pw [c] nw = [c].
Proof.
  intros Hc. destruct (matches_at re pw [c] nw) eqn:M.
  - exfalso. apply matches_at_lit in M as [HL [rest E]].
    destruct (lit re) as [|d l]; [contradiction|].
    inversion E; subst d. apply Hc. now left.
  - now rewrite (sub_miss _ _ _ _ _ _ M).
Qed.

(** A character no pattern contains cuts the scan in two. *)
Lemma sub_split_at (re : regex) (repl : text) (c : N) (a b : text)
  (pw nw : bool) :
  ~ In c (lit re) ->
  sub_from re repl 0 pw (a ++ c :: b) nw
  = sub_from re repl 0 pw a (is_word c)
    ++ c :: sub_from re repl 0 (is_word c) b nw.
Proof.
  intros Hc.
  change (a ++ c :: b) with (a ++ [c] ++ b). rewrite app_assoc.
  rewrite (sub_app _ _ _ _ _ _ (no_straddle_char_left _ a b c Hc)).
  rewrite (sub_app _ _ _ _ _ _ (no_straddle_char_right _ a [] c Hc)).
  rewrite sub_one_char by assumption.
  rewrite last_word_app, <- app_assoc. reflexivity.
Qed.

Lemma table_chars_known :
  forallb
    (fun x => is_word x || (x =? 32)%N || (x =? 45)%N || (x =? 58)%N)
    table_chars
  = true.
Proof. vm_compute. reflexivity. Qed.

Lemma in_table_chars (c : N) (st : stage) :
  In st stages -> In c (lit (fst st)) \/ In c (snd st) -> In c table_chars.
Proof.
  intros Hst Hc. unfold table_chars. apply in_flat_map. exists st.
  split; [assumption|]. now apply in_or_app.
Qed.

Lemma separator_not_in_table (c : N) :
  is_word c = false -> c <> 32%N -> c <> 45%N -> c <> 58%N ->
  ~ In c table_chars.
Proof.
  intros Hw H1 H2 H3 Hin.
  pose proof table_chars_known as K. rewrite forallb_forall in K.
  specialize (K _ Hin). rewrite Hw in K. cbn [orb] in K.
  apply orb_true_iff in K as [K|K]; [apply orb_true_iff in K as [K|K]|];
    apply N.eqb_eq in K; contradiction.
Qed.

Lemma run_stages_split_at (c : N) (a b : text) :
  is_word c = false ->
  forall sts,
    (forall st, In st sts -> ~ In c (lit (fst st))) ->
    run_stages sts (a ++ c :: b)
    = run_stages sts a ++ c :: run_stages sts b.
Proof.
  intros Hw sts; revert a b.
  induction sts as [|st sts IH]; intros a b H; [reflexivity|].
  rewrite !run_stages_cons. unfold run_stage at 1.
  rewrite (sub_split_at _ _ c a b false false (H st (or_introl eq_refl))).
  rewrite Hw. apply IH. intros st' Hst'. apply H. now right.
Qed.

(** X7.  A character that is neither a word character nor a space, a
    hyphen or a colon (a quote, a bracket, a newline, ...) separates the
    text for the pipeline: the text on each side of it is transformed as
    if it stood alone. *)
Theorem update_text_splits_at_separator (c : N) (a b : text) :
  is_word c = false ->
  c <> 32%N -> c <> 45%N -> c <> 58%N ->
  update_text (a ++ c :: b) = update_text a ++ c :: update_text b.
Proof.
  intros Hw H1 H2 H3.
  rewrite (update_text_stages (a ++ c :: b)).
  rewrite (update_text_stages a), (update_text_stages b).
  assert (H : forall st, In st stages -> ~ In c (lit (fst st))).
  { intros st Hst Hin.
    apply (separator_not_in_table c Hw H1 H2 H3).
    apply (in_table_chars c st Hst). now left. }
  exact (run_stages_split_at c a b Hw stages H).
Qed.

Lemma occurrences_char_app (c : N) (x y : text) :
  occurrences [c] (x ++ y) = occurrences [c] x + occurrences [c] y.
Proof.
  induction x as [|d x IH]; [reflexivity|].
  change ((d :: x) ++ y) with (d :: (x ++ y)).
  rewrite !occurrences_cons, IH. cbn [starts_with].
  now rewrite Nat.add_assoc.
Qed.

Lemma occurrences_char_absent (c : N) (x : text) :
  ~ In c x -> occurrences [c] x = 0.
Proof.
  induction x as [|d x IH]; intros H; [reflexivity|].
  rewrite occurrences_cons, IH by (intros F; apply H; now right).
  cbn [starts_with]. destruct (N.eqb c d) eqn:E; [|reflexivity].
  apply N.eqb_eq in E; subst d. exfalso; apply H; now left.
Qed.

Lemma sub_count_char (re : regex) (repl : text) (c : N) :
  ~ In c (lit re) -> ~ In c repl ->
  forall s pw nw,
    occurrences [c] (sub_from re repl 0 pw s nw) = occurrences [c] s.
Proof.
  intros HL HR.
  intros s; induction s as [s IH] using (induction_ltof1 _ (@List.length N)).
  unfold ltof in IH; intros pw nw.
  destruct s as [|d s]; [reflexivity|].
  destruct (matches_at re pw (d :: s) nw) eqn:M.
  - destruct (matches_at_lit _ _ _ _ M) as [Hne _].
    destruct (sub_hit re repl _ _ _ M) as [rest [E ->]]. rewrite E.
    rewrite !occurrences_char_app.
    rewrite (occurrences_char_absent c repl HR).
    rewrite (occurrences_char_absent c (lit re) HL).
    cbn [Nat.add]. apply IH. rewrite E, List.length_app.
    destruct (lit re); [contradiction|simpl; lia].
  - rewrite (sub_miss _ _ _ _ _ _ M), !occurrences_cons.
    cbn [starts_with]. f_equal. apply IH. simpl; lia.
Qed.

(** X8.  The pipeline neither adds nor removes a character that occurs
    in none of its patterns and replacements: the output has as many
    quotes, brackets, newlines and so on as the input. *)
Theorem update_text_keeps_foreign_chars (c : N) (s : text) :
  ~ In c table_chars ->
  occurrences [c] (update_text s) = occurrences [c] s.
Proof.
  intros Hc. rewrite update_text_stages.
  assert (G : forall sts,
             (forall st, In st sts -> In st stages) ->
             forall t, occurrences [c] (run_stages sts t) = occurrences [c] t).
  { induction sts as [|st sts IH]; intros Hsub t; [reflexivity|].
    rewrite run_stages_cons, IH by (intros st' H'; apply Hsub; now right).
    apply sub_count_char; intros F; apply Hc;
      apply (in_table_chars c st (Hsub st (or_introl eq_refl))); auto. }
  apply G. auto.
Qed.

(** ** Cuts between two characters outside the words *)

Lemma word_linked_app (x y : text) :
  word_linked (x ++ y) = true -> x <> [] -> y <> [] ->
  lastb is_word x false || headb is_word y false = true.
Proof.
  induction x as [|c x IH]; intros H Hx Hy; [contradiction|].
  destruct x as [|d x].
  - destruct y as [|e y]; [contradiction|].
    cbn [app word_linked] in H. apply andb_true_iff in H as [H _].
    exact H.
  - change ((c :: d :: x) ++ y) with (c :: (d :: x) ++ y) in H.
    cbn [word_linked] in H. change ((d :: x) ++ y) with (d :: x ++ y) in H.
    cbn iota in H. apply andb_true_iff in H as [_ H].
    change (lastb is_word (c :: d :: x) false)
      with (lastb is_word (d :: x) (is_word c)).
    rewrite (lastb_nonempty is_word (d :: x) _ false) by discriminate.
    apply IH; [exact H|discriminate|assumption].
Qed.

Lemma no_straddle_between (l a b : text) :
  word_linked l = true ->
  lastb is_word a false = false ->
  headb is_word b false = false ->
  no_straddle l a b.
Proof.
  intros Hl Ha Hb x1 x2 y1 y2 E1 E2 Hx Hy El. subst l.
  pose proof (word_linked_app _ _ Hl Hx Hy) as W.
  rewrite E1, lastb_app, (lastb_nonempty is_word x2 _ false Hx) in Ha.
  rewrite E2 in Hb. destruct y1 as [|e y1]; [contradiction|].
  cbn [app headb] in Hb, W. rewrite Ha, Hb in W. discriminate.
Qed.

Lemma word_ended_spec (st : stage) :
  word_ended st = true ->
  word_linked (lit (fst st)) = true
  /\ same_head is_word (lit (fst st)) (snd st) = true
  /\ same_last is_word (lit (fst st)) (snd st) = true
  /\ headb is_word (lit (fst st)) false = true
  /\ lastb is_word (lit (fst st)) false = true.
Proof.
  unfold word_ended; intros H.
  do 4 (let X := fresh "H" in apply andb_true_iff in H as [H X]).
  repeat split; assumption.
Qed.

Lemma stages_word_ended : forallb word_ended stages = true.
Proof. vm_compute. reflexivity. Qed.

Lemma run_stages_split_between :
  forall sts,
    forallb word_ended sts = true ->
    forall a b,
      lastb is_word a false = false ->
      headb is_word b false = false ->
      run_stages sts (a ++ b) = run_stages sts a ++ run_stages sts b.
Proof.
  induction sts as [|st sts IH]; intros Hok a b Ha Hb; [reflexivity|].
  cbn [forallb] in Hok. apply andb_true_iff in Hok as [Hst Hok].
  destruct (word_ended_spec _ Hst) as [Hl [Hh [Hla _]]].
  rewrite !run_stages_cons. unfold run_stage.
  rewrite (sub_app _ _ _ _ _ _ (no_straddle_between _ _ _ Hl Ha Hb)).
  rewrite head_word_headb, last_word_lastb, Ha, Hb.
  apply IH; [assumption| |].
  - now rewrite (lastb_sub _ _ _ Hla).
  - now rewrite (headb_sub _ _ _ Hh).
Qed.

(** X9.  No pattern holds two characters side by side that are both
    outside the words, so no match reaches across a place where two such
    characters meet: a text cut there is transformed part by part. *)
Theorem update_text_splits_between_separators (a b : text) :
  last_word a false = false ->
  head_word b false = false ->
  update_text (a ++ b) = update_text a ++ update_text b.
Proof.
  intros Ha Hb.
  rewrite (update_text_stages (a ++ b)).
  rewrite (update_text_stages a), (update_text_stages b).
  rewrite last_word_lastb in Ha. rewrite head_word_headb in Hb.
  exact (run_stages_split_between stages stages_word_ended a b Ha Hb).
Qed.

(** ** The text before and behind a whole word *)

Lemma match_here_end (re : regex) :
  lit re <> [] -> forall pw nw, match_here re pw [] nw = None.
Proof.
  induction re as [|[c|] re IH]; intros Hl pw nw.
  - contradiction.
  - reflexivity.
  - cbn [match_here]. destruct (xorb _ _); [|reflexivity]. now apply IH.
Qed.

Lemma lastb_true_nonempty (f : N -> bool) (l : text) :
  lastb f l false = true -> l <> [].
Proof. destruct l; [discriminate|discriminate]. Qed.

(** What stands behind the text does not matter to a pattern that ends
    with a word character when the text does not. *)
Lemma match_here_next (re : regex) :
  forall pw s,
    lastb is_word s pw = false ->
    lastb is_word (lit re) pw = true ->
    match_here re pw s true = match_here re pw s false.
Proof.
  induction re as [|[c|] re IH]; intros pw s Hs Hr; [reflexivity| |].
  - cbn [match_here]. destruct s as [|x s]; [reflexivity|].
    destruct (N.eqb_spec x c) as [->|]; [|reflexivity].
    f_equal. apply IH; [exact Hs|exact Hr].
  - cbn [match_here]. cbn [lit] in Hr. destruct s as [|x s].
    + cbn [lastb] in Hs. subst pw. cbn [head_word xorb].
      apply match_here_end. exact (lastb_true_nonempty is_word _ Hr).
    + cbn [head_word]. destruct (xorb _ _); [|reflexivity]. now apply IH.
Qed.

Lemma sub_from_next (re : regex) (repl : text) :
  lastb is_word (lit re) false = true ->
  forall s skip pw,
    lastb is_word s false = false ->
    sub_from re repl skip pw s true = sub_from re repl skip pw s false.
Proof.
  intros Hr. pose proof (lastb_true_nonempty _ _ Hr) as Hne.
  induction s as [|c s IH]; intros skip pw Hs; [reflexivity|].
  assert (Hs' : lastb is_word s false = false).
  { destruct s as [|d s]; [reflexivity|]. exact Hs. }
  cbn [sub_from]. destruct skip as [|k]; [|now apply IH].
  rewrite (match_here_next re pw (c :: s)).
  - destruct (match_here re pw (c :: s) false) as [[|k]|];
      now rewrite IH.
  - exact Hs.
  - now rewrite (lastb_nonempty is_word _ pw false Hne).
Qed.

(** What stands before the text does not matter to a pattern that begins
    with a word character when the text does not. *)
Lemma match_here_prev (re : regex) :
  headb is_word (lit re) false = true ->
  forall pw x s nw,
    is_word x = false -> match_here re pw (x :: s) nw = None.
Proof.
  induction re as [|[c|] re IH]; intros Hr pw x s nw Hx.
  - discriminate.
  - cbn [match_here]. cbn [lit headb] in Hr.
    destruct (N.eqb_spec x c) as [->|]; [congruence|reflexivity].
  - cbn [match_here]. destruct (xorb _ _); [|reflexivity]. now apply IH.
Qed.

Lemma sub_from_prev (re : regex) (repl : text) :
  headb is_word (lit re) false = true ->
  forall s pw nw,
    headb is_word s false = false ->
    sub_from re repl 0 pw s nw = sub_from re repl 0 false s nw.
Proof.
  intros Hr s pw nw Hs. destruct s as [|x s]; [reflexivity|].
  cbn [headb] in Hs. cbn [sub_from].
  now rewrite !(match_here_prev re Hr _ x s nw Hs).
Qed.

Lemma run_stages_scan (sts : list stage) (s : text) :
  run_stages sts s = scan_in false false sts s.
Proof. reflexivity. Qed.

Lemma scan_in_next :
  forall sts,
    forallb word_ended sts = true ->
    forall s pw,
      lastb is_word s false = false ->
      scan_in pw true sts s = scan_in pw false sts s.
Proof.
  induction sts as [|st sts IH]; intros Hok s pw Hs; [reflexivity|].
  cbn [forallb] in Hok. apply andb_true_iff in Hok as [Hst Hok].
  destruct (word_ended_spec _ Hst) as [_ [_ [Hla [_ Hl]]]].
  unfold scan_in in *. cbn [fold_left].
  rewrite (sub_from_next _ _ Hl s 0 pw Hs).
  apply IH; [assumption|]. now rewrite (lastb_sub _ _ _ Hla).
Qed.

Lemma scan_in_prev :
  forall sts,
    forallb word_ended sts = true ->
    forall s pw nw,
      headb is_word s false = false ->
      scan_in pw nw sts s = scan_in false nw sts s.
Proof.
  induction sts as [|st sts IH]; intros Hok s pw nw Hs; [reflexivity|].
  cbn [forallb] in Hok. apply andb_true_iff in Hok as [Hst Hok].
  destruct (word_ended_spec _ Hst) as [_ [Hh [_ [Hl _]]]].
  unfold scan_in in *. cbn [fold_left].
  rewrite (sub_from_prev _ _ Hl s pw nw Hs).
  apply IH; [assumption|]. now rewrite (headb_sub _ _ _ Hh).
Qed.

Lemma before_word_alone (pre : text) :
  last_word pre false = false -> before_word pre = update_text pre.
Proof.
  intros H. rewrite last_word_lastb in H.
  rewrite update_text_stages, run_stages_scan. unfold before_word.
  exact (scan_in_next stages stages_word_ended pre false H).
Qed.

Lemma after_word_alone (post : text) :
  head_word post false = false -> after_word post = update_text post.
Proof.
  intros H. rewrite head_word_headb in H.
  rewrite update_text_stages, run_stages_scan. unfold after_word.
  exact (scan_in_prev stages stages_word_ended post true false H).
Qed.

(** ** Pairs the run keeps or corrects *)

Lemma clear_right_of_spec (g : N -> bool) (stops : list text) (l y : text) :
  clear_right_of g stops l y = true ->
  forall p m, p <> [] -> m <> [] -> l = p ++ m ->
  compat (rev p) (rev y) = true ->
  headb g m false = true
  \/ existsb (fun q => starts_with q m) stops = true.
Proof.
  unfold clear_right_of; rewrite forallb_forall; intros H p m Hp Hm E C.
  assert (Hin : In m (tails (tl l))).
  { apply in_tails; split; [assumption|].
    destruct p as [|c p]; [contradiction|]. subst l; now exists p. }
  specialize (H _ Hin).
  subst l. rewrite List.length_app, Nat.add_sub in H.
  rewrite firstn_app, Nat.sub_diag, firstn_all in H. cbn [firstn] in H.
  rewrite app_nil_r, C in H. cbn [implb] in H.
  now apply orb_true_iff in H.
Qed.

Lemma no_straddle_right_of (g : N -> bool) (stops : list text)
  (l y pre post : text) :
  clear_right_of g stops l y = true ->
  headb g post false = false ->
  (forall p, In p stops -> starts_with p post = false) ->
  no_straddle l (pre ++ y) post.
Proof.
  intros H Hg Hpost x1 x2 y1 y2 E1 E2 Hx Hy El.
  assert (C : compat (rev x2) (rev y) = true).
  { apply (f_equal (@rev N)) in E1. rewrite !rev_app_distr in E1.
    now apply eq_sym, compat_app in E1. }
  destruct (clear_right_of_spec _ _ _ _ H x2 y1 Hx Hy (eq_sym El) C) as [W|W].
  - rewrite E2 in Hg. destruct y1; [contradiction|]. cbn in *. congruence.
  - apply existsb_exists in W as [p [Hp Hs]].
    specialize (Hpost p Hp).
    rewrite E2, (starts_with_app_r _ _ y2 Hs) in Hpost. discriminate.
Qed.

Lemma reflects_tail (l r : text) (c : N) (p : text) :
  reflects l r (c :: p) = true -> reflects l r p = true.
Proof.
  unfold reflects; cbn [tails forallb]; intros H.
  now apply andb_true_iff in H as [_ H].
Qed.

(** The beginning of the output read back in the input. *)
Lemma sub_reflects_prefix (re : regex) (repl : text) (p : text) :
  reflects (lit re) repl p = true ->
  forall s pw nw,
    starts_with p (sub_from re repl 0 pw s nw) = true ->
    starts_with p s = true.
Proof.
  induction p as [|c p IH]; intros Hr s pw nw H; [reflexivity|].
  destruct s as [|d s]; [discriminate|].
  destruct (matches_at re pw (d :: s) nw) eqn:M.
  - destruct (sub_hit re repl _ _ _ M) as [rest [E Hs]]. rewrite Hs in H.
    assert (C : compat (c :: p) repl = true).
    { apply (prefixes_compat _ _ _ H). apply starts_with_app. }
    unfold reflects in Hr. cbn [tails forallb] in Hr.
    apply andb_true_iff in Hr as [Hr _]. rewrite C in Hr. cbn [implb] in Hr.
    rewrite E. now apply starts_with_app_r.
  - rewrite (sub_miss _ _ _ _ _ _ M) in H. cbn [starts_with] in H |- *.
    apply andb_true_iff in H as [-> H]. cbn [andb].
    apply (IH (reflects_tail _ _ _ _ Hr) _ _ _ H).
Qed.

Lemma piece_ok_same_ends (f g : N -> bool) (stops : list text)
  (ctxs : list (bool * bool)) (st : stage) (y y' : text) :
  piece_ok f g stops ctxs st y y' = true -> same_ends y y' = true.
Proof.
  unfold piece_ok; intros H.
  do 8 (apply andb_true_iff in H as [H _]). exact H.
Qed.

Lemma piece_ok_stage (f g : N -> bool) (stops : list text)
  (ctxs : list (bool * bool)) (st : stage) (y y' pre post : text) :
  piece_ok f g stops ctxs st y y' = true ->
  beside f g stops ctxs pre post ->
  run_stage st (pre ++ y ++ post)
  = sub_from (fst st) (snd st) 0 false pre (headb is_word y false)
    ++ y'
    ++ sub_from (fst st) (snd st) 0 (lastb is_word y false) post false
  /\ beside f g stops ctxs
       (sub_from (fst st) (snd st) 0 false pre (headb is_word y false))
       (sub_from (fst st) (snd st) 0 (lastb is_word y false) post false).
Proof.
  intros H [Hpre [Hg [Hpost Hctx]]].
  destruct (same_ends_spec _ _ (piece_ok_same_ends _ _ _ _ _ _ _ H)) as [Hy _].
  unfold piece_ok in H.
  do 8 (let X := fresh "H" in apply andb_true_iff in H as [H X]).
  rewrite forallb_forall in H0. specialize (H0 _ Hctx).
  apply text_eqb_eq in H0. cbn [fst snd] in H0.
  rewrite forallb_forall in H1.
  pose proof (no_straddle_left f _ y pre post H3 Hpre) as NL.
  pose proof (no_straddle_right_of g stops _ y pre post H2 Hg Hpost) as NR.
  split.
  - unfold run_stage. rewrite app_assoc.
    rewrite (sub_app _ _ _ _ _ _ NR).
    rewrite (sub_app _ _ _ _ _ _ (no_straddle_weaken _ _ _ _ NL)).
    rewrite H0, <- app_assoc.
    rewrite (last_word_piece pre y false Hy).
    rewrite (head_word_piece y (head_word post false) Hy). reflexivity.
  - repeat split.
    + now rewrite (lastb_sub _ _ _ H7).
    + now rewrite (headb_sub _ _ _ H6).
    + intros p Hp.
      destruct (starts_with p (sub_from _ _ 0 _ post false)) eqn:S;
        [|reflexivity].
      apply (sub_reflects_prefix _ _ _ (H1 p Hp)) in S.
      rewrite (Hpost p Hp) in S. discriminate.
    + now rewrite (last_word_sub _ _ H5), (head_word_sub _ _ H4).
Qed.

Lemma piece_chain_stages (f g : N -> bool) (stops : list text)
  (ctxs : list (bool * bool)) :
  forall sts y z pre post,
    piece_chain f g stops ctxs sts y = Some z ->
    beside f g stops ctxs pre post ->
    run_stages sts (pre ++ y ++ post)
    = scan_in false (headb is_word y false) sts pre
      ++ z
      ++ scan_in (lastb is_word y false) false sts post.
Proof.
  induction sts as [|st sts IH]; intros y z pre post H Har.
  - inversion H; subst. reflexivity.
  - cbn [piece_chain] in H.
    destruct (piece_ok f g stops ctxs st y (mid_step ctxs st y)) eqn:Hok;
      [|discriminate].
    destruct (piece_ok_stage _ _ _ _ _ _ _ _ _ Hok Har) as [E Har'].
    destruct (same_ends_spec _ _ (piece_ok_same_ends _ _ _ _ _ _ _ Hok))
      as [_ [_ [Hh Hl]]].
    pose proof (IH _ _ _ _ H Har') as E'.
    rewrite Hh, Hl in E'.
    rewrite run_stages_cons, E. exact E'.
Qed.

Lemma beside_whole_word (stop pre post : text) :
  last_word pre false = false ->
  head_word post false = false ->
  starts_with stop post = false ->
  beside is_word is_word [stop] [(false, false)] pre post.
Proof.
  intros Hp Hh Hs. repeat split.
  - now rewrite <- last_word_lastb.
  - exact Hh.
  - intros p [<- | []]. exact Hs.
  - rewrite Hp, Hh. now left.
Qed.

Lemma settled_pairs_chain :
  forallb
    (fun p =>
       match piece_chain is_word is_word [codes (snd p)] [(false, false)]
               stages (codes (fst p)) with
       | Some z => text_eqb z (codes (fst p))
       | None => false
       end
       && headb is_word (codes (fst p)) false
       && lastb is_word (codes (fst p)) false)
    settled_pairs
  = true.
Proof. vm_compute. reflexivity. Qed.

(** X10.  A whole-word [bg-white] that already has [dark:bg-black]
    behind it, and a whole-word [text-gray-900] that already has
    [dark:text-white] behind it, come out of a run as they went in, with
    no second dark token, in every text in which no further dark token
    of the same kind follows directly. *)
Theorem settled_pair_is_kept (pair stop : string) (pre post : text) :
  In (pair, stop) settled_pairs ->
  last_word pre false = false ->
  head_word post false = false ->
  starts_with (codes stop) post = false ->
  update_text (pre ++ codes pair ++ post)
  = update_text pre ++ codes pair ++ update_text post.
Proof.
  intros Hin Hp Hh Hs.
  rewrite <- (before_word_alone pre Hp), <- (after_word_alone post Hh).
  rewrite update_text_stages.
  pose proof settled_pairs_chain as K. rewrite forallb_forall in K.
  specialize (K _ Hin). cbv beta in K. cbn [fst snd] in K.
  apply andb_true_iff in K as [K El]. apply andb_true_iff in K as [K Eh].
  destruct (piece_chain is_word is_word [codes stop] [(false, false)]
              stages (codes pair)) as [z|] eqn:C; [|discriminate].
  apply text_eqb_eq in K; subst z.
  pose proof (piece_chain_stages _ _ _ _ _ _ _ pre post C
                (beside_whole_word _ _ _ Hp Hh Hs)) as E.
  rewrite Eh, El in E. exact E.
Qed.

Lemma overridden_pairs_chain :
  forallb
    (fun p =>
       match piece_chain is_word is_word [codes " dark:bg-"] [(false, false)]
               stages (codes p) with
       | Some z => text_eqb z (codes "bg-white dark:bg-black")
       | None => false
       end
       && headb is_word (codes p) false
       && lastb is_word (codes p) false)
    overridden_pairs
  = true.
Proof. vm_compute. reflexivity. Qed.

(** X11.  The case the final cleanup is written for: a whole-word
    [bg-white] that has [dark:bg-gray-800] or [dark:bg-gray-700] behind
    it comes out of a run as [bg-white dark:bg-black], in every text in
    which no further dark background follows directly. *)
Theorem black_replaces_gray_behind_bg_white (pair : string)
  (pre post : text) :
  In pair overridden_pairs ->
  last_word pre false = false ->
  head_word post false = false ->
  starts_with (codes " dark:bg-") post = false ->
  update_text (pre ++ codes pair ++ post)
  = update_text pre ++ codes "bg-white dark:bg-black" ++ update_text post.
Proof.
  intros Hin Hp Hh Hs.
  rewrite <- (before_word_alone pre Hp), <- (after_word_alone post Hh).
  rewrite update_text_stages.
  pose proof overridden_pairs_chain as K. rewrite forallb_forall in K.
  specialize (K _ Hin). cbv beta in K.
  apply andb_true_iff in K as [K El]. apply andb_true_iff in K as [K Eh].
  destruct (piece_chain is_word is_word [codes " dark:bg-"] [(false, false)]
              stages (codes pair)) as [z|] eqn:C; [|discriminate].
  apply text_eqb_eq in K; subst z.
  pose proof (piece_chain_stages _ _ _ _ _ _ _ pre post C
                (beside_whole_word _ _ _ Hp Hh Hs)) as E.
  rewrite Eh, El in E. exact E.
Qed.

(** ** Pairs a further run doubles *)

Lemma repeated_pairs_chain :
  forallb
    (fun p =>
       String.eqb (fst p) "bg-white" || String.eqb (fst p) "text-gray-900"
       || (match piece_chain is_word is_word [codes " dark:bg-"]
                   [(false, false)] stages
                   (codes (fst p) ++ codes " " ++ codes (snd p)) with
           | Some z =>
               text_eqb z
                 (codes (fst p) ++ codes " " ++ codes (snd p)
                  ++ codes " " ++ codes (snd p))
           | None => false
           end
           && headb is_word (codes (fst p) ++ codes " " ++ codes (snd p)) false
           && lastb is_word (codes (fst p) ++ codes " " ++ codes (snd p)) false))
    dark_of
  = true.
Proof. vm_compute. reflexivity. Qed.

(** X12.  Only [bg-white] and [text-gray-900] have a rule that removes a
    repeated dark token.  Every other light token that already has its
    dark counterpart behind it, as a run leaves it, gets the counterpart
    a second time from the next run: the pair comes out with two dark
    tokens, in every text in which the pair stands as whole words and no
    dark background follows directly. *)
Theorem paired_token_gets_second_dark_token (light dark : string)
  (pre post : text) :
  In (light, dark) dark_of ->
  light <> "bg-white"%string ->
  light <> "text-gray-900"%string ->
  last_word pre false = false ->
  head_word post false = false ->
  starts_with (codes " dark:bg-") post = false ->
  update_text (pre ++ (codes light ++ codes " " ++ codes dark) ++ post)
  = update_text pre
    ++ (codes light ++ codes " " ++ codes dark ++ codes " " ++ codes dark)
    ++ update_text post.
Proof.
  intros Hin N1 N2 Hp Hh Hs.
  rewrite <- (before_word_alone pre Hp), <- (after_word_alone post Hh).
  rewrite update_text_stages.
  pose proof repeated_pairs_chain as K. rewrite forallb_forall in K.
  specialize (K _ Hin). cbv beta in K. cbn [fst snd] in K.
  apply orb_true_iff in K as [K|K].
  { apply orb_true_iff in K as [K|K]; apply String.eqb_eq in K;
      contradiction. }
  apply andb_true_iff in K as [K El]. apply andb_true_iff in K as [K Eh].
  destruct (piece_chain is_word is_word [codes " dark:bg-"] [(false, false)]
              stages (codes light ++ codes " " ++ codes dark))
    as [z|] eqn:C; [|discriminate].
  apply text_eqb_eq in K; subst z.
  pose proof (piece_chain_stages _ _ _ _ _ _ _ pre post C
                (beside_whole_word _ _ _ Hp Hh Hs)) as E.
  rewrite Eh, El in E. exact E.
Qed.

(** ** No file is handed over twice *)

Lemma plain_name_spec (n : text) :
  plain_name n = true -> n <> [] /\ ~ In 47%N n.
Proof.
  destruct n as [|c n]; [discriminate|]. unfold plain_name.
  intros H. apply negb_true_iff in H. split; [discriminate|].
  intros Hin.
  assert (E : existsb (N.eqb 47) (c :: n) = true).
  { apply existsb_exists. exists 47%N. split; [assumption|reflexivity]. }
  congruence.
Qed.

Lemma path_join_plain (a n : text) :
  plain_name n = true -> path_join a n = a ++ joint a ++ n.
Proof.
  intros H. destruct (plain_name_spec _ H) as [Hne Hs].
  unfold path_join, joint.
  destruct n as [|c n]; [contradiction|].
  assert (Hc : starts_with (codes "/") (c :: n) = false).
  { change (codes "/") with [47%N]. cbn [starts_with].
    destruct (N.eqb_spec 47 c) as [<-|]; [|reflexivity].
    exfalso. apply Hs. now left. }
  rewrite Hc. now destruct (_ || _).
Qed.

Lemma lastb_slash (a : text) :
  ends_with (codes "/") a = lastb (N.eqb 47) a false.
Proof.
  rewrite lastb_rev. unfold ends_with. change (rev (codes "/")) with [47%N].
  destruct (rev a) as [|c r]; [reflexivity|].
  cbn [starts_with headb]. destruct r; apply andb_true_r.
Qed.

Lemma joint_plain (a n : text) :
  plain_name n = true -> joint (a ++ n) = codes "/".
Proof.
  intros H. destruct (plain_name_spec _ H) as [Hne Hs].
  unfold joint. rewrite lastb_slash, lastb_app.
  destruct (exists_last Hne) as [m [c E]].
  assert (L : lastb (N.eqb 47) n (lastb (N.eqb 47) a false) = false).
  { rewrite E, lastb_app. cbn [lastb].
    destruct (N.eqb_spec 47 c) as [<-|]; [|reflexivity].
    exfalso. apply Hs. rewrite E. apply in_or_app. right. now left. }
  rewrite L, orb_false_r.
  destruct (a ++ n) as [|x l] eqn:El; [|reflexivity].
  apply app_eq_nil in El as [_ El]. contradiction.
Qed.

Lemma in_file_names_plain (tree : list entry) (n : text) :
  forallb well_listed tree = true -> In n (file_names tree) ->
  plain_name n = true.
Proof.
  rewrite forallb_forall. intros H Hin. unfold file_names in Hin.
  apply in_flat_map in Hin as [e [He Hin]].
  destruct e as [m | m sub]; [|contradiction].
  destruct Hin as [<- | []]. exact (H _ He).
Qed.

Lemma flat_map_map_in (A B C : Type) (f : A -> list C) (h : A -> list B)
  (g : B -> C) (l : list A) :
  (forall x, In x l -> f x = map g (h x)) ->
  flat_map f l = map g (flat_map h l).
Proof.
  induction l as [|x l IH]; intros H; [reflexivity|].
  cbn [flat_map]. rewrite map_app, (H x (or_introl eq_refl)).
  rewrite IH; [reflexivity|]. intros y Hy. apply H. now right.
Qed.

(** The paths below a directory entered under a plain name. *)
Lemma join_below (top m r : text) :
  plain_name m = true ->
  path_join top m ++ joint (path_join top m) ++ r
  = top ++ joint top ++ m ++ codes "/" ++ r.
Proof.
  intros Hm. rewrite (path_join_plain _ _ Hm).
  rewrite (app_assoc top), (joint_plain _ _ Hm).
  now rewrite <- !app_assoc.
Qed.

(** The walk of one entry, read from the directory it stands in. *)
Lemma walk_entry_rel (e : entry) :
  forall top,
    well_listed e = true ->
    flat_map
      (fun t => map (path_join (fst (fst t)))
                    (filter (ends_with (codes ".tsx")) (snd t)))
      (walk_entry top e)
    = map (fun r => top ++ joint top ++ r) (rel_entry e).
Proof.
  induction e as [m | m sub IH] using entry_induction; intros top Hok;
    [reflexivity|].
  cbn [well_listed] in Hok. apply andb_true_iff in Hok as [Hok Hsub].
  apply andb_true_iff in Hok as [Hm _].
  cbn [walk_entry flat_map fst snd rel_entry].
  rewrite map_map, map_app. f_equal.
  - apply map_ext_in. intros n Hn. apply filter_In in Hn as [Hn _].
    rewrite (path_join_plain _ _ (in_file_names_plain _ _ Hsub Hn)).
    now apply join_below.
  - rewrite flat_map_flat_map. apply flat_map_map_in. intros e He.
    rewrite forallb_forall in Hsub. rewrite Forall_forall in IH.
    rewrite (IH e He _ (Hsub e He)). apply map_ext. intros r.
    now apply join_below.
Qed.

Lemma targets_rel (directory : text) (tree : list entry) :
  forallb well_listed tree = true ->
  targets directory tree
  = map (fun r => directory ++ joint directory ++ r) (rel_targets tree).
Proof.
  intros Hok. unfold targets, walk, rel_targets.
  cbn [flat_map fst snd]. rewrite map_app. f_equal.
  - apply map_ext_in. intros n Hn. apply filter_In in Hn as [Hn _].
    now rewrite (path_join_plain _ _ (in_file_names_plain _ _ Hok Hn)).
  - rewrite flat_map_flat_map. apply flat_map_map_in. intros e He.
    rewrite forallb_forall in Hok. now apply walk_entry_rel, Hok.
Qed.

Lemma distinct_spec (l : list text) : distinct l = true -> NoDup l.
Proof.
  induction l as [|x l IH]; intros H; [constructor|].
  cbn [distinct] in H. apply andb_true_iff in H as [Hx Hl].
  constructor; [|now apply IH]. intros Hin.
  apply negb_true_iff in Hx.
  assert (E : existsb (text_eqb x) l = true).
  { apply existsb_exists. exists x. split; [assumption|apply text_eqb_refl]. }
  congruence.
Qed.

Lemma file_names_names (tree : list entry) (n : text) :
  In n (file_names tree) -> In n (map entry_name tree).
Proof.
  unfold file_names. intros H. apply in_flat_map in H as [e [He H]].
  destruct e as [m | m sub]; [|contradiction]. destruct H as [<- | []].
  apply (in_map entry_name _ _ He).
Qed.

Lemma file_names_nodup (tree : list entry) :
  NoDup (map entry_name tree) -> NoDup (file_names tree).
Proof.
  induction tree as [|e tree IH]; intros H; [constructor|].
  cbn [map] in H. apply NoDup_cons_iff in H as [Hn H].
  destruct e as [m | m sub]; cbn [file_names flat_map app entry_name] in *.
  - constructor; [|now apply IH]. intros Hin. apply Hn.
    now apply file_names_names.
  - now apply IH.
Qed.

Lemma in_rel_entry (e : entry) (p : text) :
  In p (rel_entry e) -> exists r, p = entry_name e ++ 47%N :: r.
Proof.
  destruct e as [m | m sub]; [intros []|].
  cbn [rel_entry entry_name]. intros H.
  apply in_map_iff in H as [r [<- _]]. now exists r.
Qed.

(** A path is cut at its first slash in one way only. *)
Lemma first_slash (n1 n2 r1 r2 : text) :
  ~ In 47%N n1 -> ~ In 47%N n2 ->
  n1 ++ 47%N :: r1 = n2 ++ 47%N :: r2 -> n1 = n2 /\ r1 = r2.
Proof.
  revert n2. induction n1 as [|c n1 IH]; intros [|d n2] H1 H2 E.
  - inversion E. now split.
  - inversion E; subst. exfalso. apply H2. now left.
  - inversion E; subst. exfalso. apply H1. now left.
  - inversion E; subst.
    destruct (IH n2) as [-> ->]; auto.
    + intros F. apply H1. now right.
    + intros F. apply H2. now right.
Qed.

Lemma map_below_nodup (n : text) (l : list text) :
  NoDup l -> NoDup (map (fun r => n ++ codes "/" ++ r) l).
Proof.
  induction 1 as [|x l Hx Hl IH]; [constructor|].
  cbn [map]. constructor; [|assumption]. intros Hin.
  apply in_map_iff in Hin as [y [E Hy]].
  apply app_inv_head, app_inv_head in E. now subst.
Qed.

Lemma rel_targets_nodup (tree : list entry) :
  Forall (fun e => well_listed e = true -> NoDup (rel_entry e)) tree ->
  forallb well_listed tree = true ->
  NoDup (map entry_name tree) ->
  NoDup (rel_targets tree).
Proof.
  intros IH Hok Hnd. unfold rel_targets. apply NoDup_app.
  - apply NoDup_filter. now apply file_names_nodup.
  - clear - IH Hok Hnd.
    induction tree as [|e tree IHt]; [constructor|].
    cbn [flat_map]. cbn [forallb] in Hok. apply andb_true_iff in Hok as [He Hok].
    cbn [map] in Hnd. apply NoDup_cons_iff in Hnd as [Hn Hnd].
    inversion IH as [|? ? IHe IHr]; subst.
    apply NoDup_app; [now apply IHe|now apply IHt|].
    intros p Hp Hq.
    apply in_flat_map in Hq as [e' [He' Hq]].
    apply in_rel_entry in Hp as [r E]. apply in_rel_entry in Hq as [r' E'].
    rewrite forallb_forall in Hok. pose proof (Hok e' He') as He2.
    assert (P : forall x, well_listed x = true -> ~ In 47%N (entry_name x)).
    { intros [m | m sub] Hx; cbn [well_listed entry_name] in *.
      - now apply plain_name_spec.
      - apply andb_true_iff in Hx as [Hx _].
        apply andb_true_iff in Hx as [Hx _]. now apply plain_name_spec. }
    rewrite E in E'.
    destruct (first_slash _ _ _ _ (P _ He) (P _ He2) E') as [En _].
    apply Hn. rewrite En. apply (in_map entry_name _ _ He').
  - intros p Hp Hq. apply filter_In in Hp as [Hp _].
    apply in_flat_map in Hq as [e [He Hq]].
    apply in_rel_entry in Hq as [r E].
    destruct (plain_name_spec _ (in_file_names_plain _ _ Hok Hp)) as [_ Hs].
    apply Hs. rewrite E. apply in_or_app. right. now left.
Qed.

Lemma rel_entry_nodup (e : entry) :
  well_listed e = true -> NoDup (rel_entry e).
Proof.
  induction e as [m | m sub IH] using entry_induction; intros Hok;
    [constructor|].
  cbn [well_listed] in Hok. apply andb_true_iff in Hok as [Hok Hsub].
  apply andb_true_iff in Hok as [_ Hd].
  cbn [rel_entry]. apply map_below_nodup.
  apply (rel_targets_nodup sub IH Hsub (distinct_spec _ Hd)).
Qed.

(** X13.  On a tree as directory listings give it (names not empty and
    without a slash, no name twice in a directory) the walk hands no
    path to [update_file] twice, whatever directory it starts in. *)
Theorem no_file_is_visited_twice (directory : text) (tree : list entry) :
  listing_ok tree = true ->
  NoDup (targets directory tree).
Proof.
  unfold listing_ok. intros H. apply andb_true_iff in H as [Hd Hok].
  rewrite (targets_rel _ _ Hok).
  assert (R : NoDup (rel_targets tree)).
  { apply rel_targets_nodup; [|assumption|now apply distinct_spec].
    apply Forall_forall. intros e _. apply rel_entry_nodup. }
  clear - R. induction R as [|x l Hx Hl IH]; [constructor|].
  cbn [map]. constructor; [|assumption]. intros Hin.
  apply in_map_iff in Hin as [y [E Hy]].
  apply app_inv_head, app_inv_head in E. now subst.
Qed.

(** ** Texts without a colour name *)

Lemma occurrences_prefix_ge (tok x b : text) :
  occurrences tok x <= occurrences tok (x ++ b).
Proof.
  induction x as [|c x IH]; [cbn; lia|].
  change ((c :: x) ++ b) with (c :: (x ++ b)). rewrite !occurrences_cons.
  change (c :: (x ++ b)) with ((c :: x) ++ b).
  destruct (starts_with tok (c :: x)) eqn:S.
  - rewrite (starts_with_app_r _ _ b S). lia.
  - destruct (starts_with tok ((c :: x) ++ b)); lia.
Qed.

Lemma occurrences_inside (tok a x b : text) :
  occurrences tok x <= occurrences tok (a ++ x ++ b).
Proof.
  pose proof (occurrences_app_ge tok a (x ++ b)).
  pose proof (occurrences_prefix_ge tok x b). lia.
Qed.

(** Where the search finds the pattern, its characters stand in the
    text. *)
Lemma search_from_occurs (re : regex) :
  forall s pw nw,
    search_from re pw s nw = true -> occurs (lit re) s.
Proof.
  induction s as [|c s IH]; intros pw nw H; [discriminate|].
  cbn [search_from] in H. apply orb_true_iff in H as [H|H].
  - apply matches_at_lit in H as [_ [rest E]]. now exists [], rest.
  - destruct (IH _ _ H) as [a [b E]]. exists (c :: a), b. now rewrite E.
Qed.

Lemma search_from_key (re : regex) (k s : text) (pw nw : bool) :
  0 < occurrences k (lit re) ->
  occurrences k s = 0 ->
  search_from re pw s nw = false.
Proof.
  intros Hk Hs. destruct (search_from re pw s nw) eqn:E; [|reflexivity].
  apply search_from_occurs in E as [a [b E]].
  pose proof (occurrences_inside k a (lit re) b) as Hle.
  rewrite <- E in Hle. lia.
Qed.

Lemma stages_have_key : forallb has_key stages = true.
Proof. vm_compute. reflexivity. Qed.

(** X14.  Every pattern of the table, and that of the final cleanup,
    holds one of the colour names [gray], [white] and [black]: a text
    in which none of the three occurs comes out of the pipeline as it
    went in. *)
Theorem text_without_colour_name_is_kept (s : text) :
  (forall k, In k key_words -> occurrences (codes k) s = 0) ->
  update_text s = s.
Proof.
  intros H. rewrite update_text_stages.
  apply (run_stages_invariant (fun t => t = s) has_key);
    [|apply stages_have_key|reflexivity].
  intros st t Hst ->. unfold has_key in Hst.
  apply existsb_exists in Hst as [k [Hk Hpos]]. apply Nat.ltb_lt in Hpos.
  unfold run_stage. apply search_none_sub.
  exact (search_from_key _ _ _ _ _ Hpos (H k Hk)).
Qed.

(** ** A light token that stands alone *)

Lemma light_tokens_chain :
  forallb
    (fun p =>
       match piece_chain is_word is_word [codes " dark:"] [(false, false)]
               stages (codes (fst p)) with
       | Some z => text_eqb z (codes (fst p) ++ codes " " ++ codes (snd p))
       | None => false
       end
       && headb is_word (codes (fst p)) false
       && lastb is_word (codes (fst p)) false)
    dark_of
  = true.
Proof. vm_compute. reflexivity. Qed.

(** X15.  The pairing rules at work: a light token of the fixed set that
    stands as a whole word, with no dark token directly behind it, comes
    out of a run followed by one space and its designated dark
    counterpart, once; the text before it and the text behind it are
    transformed on their own. *)
Theorem light_token_gets_dark_token (light dark : string) (pre post : text) :
  In (light, dark) dark_of ->
  last_word pre false = false ->
  head_word post false = false ->
  starts_with (codes " dark:") post = false ->
  update_text (pre ++ codes light ++ post)
  = update_text pre
    ++ (codes light ++ codes " " ++ codes dark)
    ++ update_text post.
Proof.
  intros Hin Hp Hh Hs.
  rewrite <- (before_word_alone pre Hp), <- (after_word_alone post Hh).
  rewrite update_text_stages.
  pose proof light_tokens_chain as K. rewrite forallb_forall in K.
  specialize (K _ Hin). cbv beta in K. cbn [fst snd] in K.
  apply andb_true_iff in K as [K El]. apply andb_true_iff in K as [K Eh].
  destruct (piece_chain is_word is_word [codes " dark:"] [(false, false)]
              stages (codes light)) as [z|] eqn:C; [|discriminate].
  apply text_eqb_eq in K; subst z.
  pose proof (piece_chain_stages _ _ _ _ _ _ _ pre post C
                (beside_whole_word _ _ _ Hp Hh Hs)) as E.
  rewrite Eh, El in E. exact E.
Qed.

(** ** The cleanup rules *)

Lemma lastb_word_or_space (s : text) :
  lastb word_or_space s false = false -> last_word s false = false.
Proof.
  rewrite last_word_lastb. generalize false at 1 3.
  induction s as [|c s IH]; intros d H.
  - exact H.
  - cbn [lastb] in *. destruct s as [|e s].
    + cbn [lastb] in *. unfold word_or_space in H.
      now apply orb_false_iff in H as [H _].
    + exact (IH _ H).
Qed.

Lemma headb_word_or_space (s : text) :
  headb word_or_space s false = false -> head_word s false = false.
Proof.
  rewrite head_word_headb. destruct s as [|c s]; [auto|].
  cbn [headb]. unfold word_or_space. intros H.
  now apply orb_false_iff in H as [H _].
Qed.

Lemma cleanup_chain :
  forallb
    (fun p =>
       match mid_chain word_or_space word_or_space [(false, false)]
               stages (codes (fst p)) with
       | Some z => text_eqb z (codes (snd p))
       | None => false
       end
       && headb is_word (codes (fst p)) false
       && lastb is_word (codes (fst p)) false)
    cleanup_cases
  = true.
Proof. vm_compute. reflexivity. Qed.

(** X16.  The cleanup rules at work, where neither a word character nor
    a space stands directly before or behind: a dark token written twice
    ([dark:bg-black], [dark:text-white]) comes out once,
    [dark:bg-gray-700] comes out as [dark:bg-gray-800], and next to
    [dark:bg-black], on either side, it is dropped; the text before and
    the text behind are transformed on their own. *)
Theorem dark_tokens_are_cleaned_up (old new : string) (pre post : text) :
  In (old, new) cleanup_cases ->
  lastb word_or_space pre false = false ->
  headb word_or_space post false = false ->
  update_text (pre ++ codes old ++ post)
  = update_text pre ++ codes new ++ update_text post.
Proof.
  intros Hin Hp Hh.
  pose proof (lastb_word_or_space _ Hp) as Hp'.
  pose proof (headb_word_or_space _ Hh) as Hh'.
  rewrite <- (before_word_alone pre Hp'), <- (after_word_alone post Hh').
  rewrite update_text_stages.
  pose proof cleanup_chain as K. rewrite forallb_forall in K.
  specialize (K _ Hin). cbv beta in K. cbn [fst snd] in K.
  apply andb_true_iff in K as [K El]. apply andb_true_iff in K as [K Eh].
  destruct (mid_chain word_or_space word_or_space [(false, false)] stages
              (codes old)) as [z|] eqn:C; [|discriminate].
  apply text_eqb_eq in K; subst z.
  destruct (mid_chain_stages _ _ _ _ _ _ pre post C) as [E _].
  - repeat split; [exact Hp|exact Hh|].
    rewrite Hp', Hh'. now left.
  - rewrite Eh, El in E. exact E.
Qed.

(** ** A run that fails part of the way *)

Lemma update_file_raises (p : text) (w : world) (e : exn) :
  raised w = None ->
  raised (update_file p w) = Some e ->
  update_file p w = mkWorld (files w) (stdout w) (calls w ++ [p]) (Some e).
Proof.
  intros Hw. unfold update_file. cbn [called files].
  destruct (files w (resolve p)) as [f|]; [|cbn; now intros [= <-]].
  destruct (negb (readable f)); [cbn; now intros [= <-]|].
  destruct (decode (data f)) as [content|]; [|cbn; now intros [= <-]].
  destruct (negb _).
  - destruct (writable f); [|cbn; now intros [= <-]].
    cbn. rewrite Hw. discriminate.
  - cbn. rewrite Hw. discriminate.
Qed.

Lemma nodup_app_apart (a b : list text) (x : text) :
  NoDup (a ++ b) -> In x a -> In x b -> False.
Proof.
  induction a as [|c a IH]; intros H Ha Hb; [contradiction|].
  cbn [app] in H. apply NoDup_cons_iff in H as [Hc H].
  destruct Ha as [-> | Ha].
  - apply Hc. apply in_or_app. now right.
  - now apply IH.
Qed.

(** X17.  Nothing is rolled back.  When the run fails at a file, after
    files that could be processed, the exception is the result of the
    run; the files handed over before stay as the run rewrote them,
    with their lines printed, and the files that would have followed
    are as they were. *)
Theorem failed_run_keeps_earlier_writes (directory : text)
  (tree : list entry) (w : world) (before after : list text) (p : text)
  (e : exn) :
  targets directory tree = before ++ p :: after ->
  NoDup (map resolve (targets directory tree)) ->
  raised w = None ->
  (forall q, In q before -> ready w q) ->
  raised (update_file p (update_files before w)) = Some e ->
  raised (process_directory directory tree w) = Some e
  /\ calls (process_directory directory tree w) = calls w ++ before ++ [p]
  /\ (forall q f,
        In q before -> files w (resolve q) = Some f ->
        files (process_directory directory tree w) (resolve q)
        = Some (rewritten f))
  /\ (forall q,
        In q after ->
        files (process_directory directory tree w) (resolve q)
        = files w (resolve q))
  /\ stdout (process_directory directory tree w)
     = stdout w
       ++ map (fun q => codes "Updated " ++ q) (filter (changes w) before).
Proof.
  intros Ht Hnd Hw Hready Hfail.
  rewrite Ht, map_app in Hnd.
  assert (Hb : NoDup (map resolve before))
    by (now apply NoDup_app_remove_r in Hnd).
  destruct (update_files_ready before w Hw Hb Hready) as [R [C [F O]]].
  assert (E : process_directory directory tree w
              = mkWorld (files (update_files before w))
                  (stdout (update_files before w))
                  (calls (update_files before w) ++ [p]) (Some e)).
  { rewrite process_directory_targets, Ht, update_files_app.
    rewrite (update_files_cons _ _ _ R).
    rewrite (update_files_raised _ _ e Hfail).
    now apply update_file_raises. }
  rewrite E. cbn [raised calls files stdout].
  split; [reflexivity|]. split; [now rewrite C, <- app_assoc|].
  split; [exact F|]. split; [|exact O].
  intros q Hq. apply update_files_other. intros q' Hq' Heq.
  apply (nodup_app_apart _ _ (resolve q) Hnd).
  - rewrite Heq. now apply in_map_resolve.
  - cbn [map]. right. now apply in_map_resolve.
Qed.

(** * Tokens among other tokens

    The collision rules, the standardization rule and the pairing rules
    behind [dark:], for tokens that stand in a class list: what may
    stand next to a token is told by texts rather than by the class of
    one character. *)

(** ** Pieces between stop texts *)

Lemma in_splits (p a b : text) : In (a, b) (splits p) <-> p = a ++ b.
Proof.
  revert a b. induction p as [|c p IH]; intros a b; cbn [splits].
  - split.
    + intros [E | []]. now inversion E.
    + intros E. symmetry in E. apply app_eq_nil in E as [-> ->]. now left.
  - split.
    + intros [E | H]; [now inversion E|].
      apply in_map_iff in H as [[a' b'] [E H]]. cbn [fst snd] in E.
      inversion E; subst. apply IH in H. now subst.
    + intros E. destruct a as [|d a]; [left; cbn in E; now subst|].
      right. inversion E; subst. apply in_map_iff.
      exists (a, b). split; [reflexivity|]. now apply IH.
Qed.

Lemma nonempty_true (s : text) : s <> [] -> nonempty s = true.
Proof. destruct s; [contradiction|reflexivity]. Qed.

Lemma ends_with_split (p s : text) :
  ends_with p s = true -> exists a, s = a ++ p.
Proof.
  unfold ends_with; intros H. apply starts_with_split in H as [r E].
  exists (rev r). apply (f_equal (@rev N)) in E.
  now rewrite rev_involutive, rev_app_distr, rev_involutive in E.
Qed.

Lemma ends_with_end (a p : text) : ends_with p (a ++ p) = true.
Proof. unfold ends_with. rewrite rev_app_distr. apply starts_with_app. Qed.

Lemma ends_with_false_app (p a b : text) :
  ends_with p (a ++ b) = false -> ends_with p b = false.
Proof.
  intros H. destruct (ends_with p b) eqn:E; [|reflexivity].
  now rewrite (ends_with_app p a b E) in H.
Qed.

Lemma clear_left_of_spec (f : N -> bool) (stops : list text) (l y : text) :
  clear_left_of f stops l y = true ->
  forall x2 y1, x2 <> [] -> y1 <> [] -> l = x2 ++ y1 ->
  compat y1 y = true ->
  lastb f x2 false = true
  \/ existsb (fun p => ends_with p x2) stops = true.
Proof.
  unfold clear_left_of; rewrite forallb_forall; intros H x2 y1 Hx Hy E C.
  specialize (H (x2, y1) (proj2 (in_splits _ _ _) E)). cbn [fst snd] in H.
  rewrite (nonempty_true _ Hx), (nonempty_true _ Hy), C in H.
  cbn [andb implb] in H. now apply orb_true_iff in H.
Qed.

Lemma no_straddle_left_of (f : N -> bool) (stops : list text)
  (l y pre post : text) :
  clear_left_of f stops l y = true ->
  lastb f pre false = false ->
  (forall p, In p stops -> ends_with p pre = false) ->
  no_straddle l pre (y ++ post).
Proof.
  intros H Hf Hpre x1 x2 y1 y2 E1 E2 Hx Hy El.
  assert (C : compat y1 y = true) by (now apply eq_sym, compat_app in E2).
  destruct (clear_left_of_spec _ _ _ _ H x2 y1 Hx Hy (eq_sym El) C) as [W|W].
  - rewrite E1, lastb_app, (lastb_nonempty f x2 _ false Hx) in Hf.
    congruence.
  - apply existsb_exists in W as [p [Hp Hs]].
    specialize (Hpre p Hp). rewrite E1 in Hpre.
    rewrite (ends_with_false_app _ _ _ Hpre) in Hs. discriminate.
Qed.

(** The scan up to its first match, and from its last match on. *)
Lemma sub_first_match (re : regex) (repl : text) :
  forall s pw nw,
    sub_from re repl 0 pw s nw = s
    \/ exists u rest out,
         s = u ++ lit re ++ rest
         /\ sub_from re repl 0 pw s nw = u ++ repl ++ out.
Proof.
  induction s as [|c s IH]; intros pw nw; [now left|].
  destruct (matches_at re pw (c :: s) nw) eqn:M.
  - destruct (sub_hit re repl _ _ _ M) as [rest [E Hs]].
    right. exists [], rest, (sub_from re repl 0 (last_word (lit re) pw) rest nw).
    now split.
  - rewrite (sub_miss _ _ _ _ _ _ M).
    destruct (IH (is_word c) nw) as [E | [u [rest [out [E Hs]]]]].
    + left. now rewrite E.
    + right. exists (c :: u), rest, out. rewrite Hs. split; [|reflexivity].
      now rewrite E.
Qed.

Lemma sub_last_match (re : regex) (repl : text) :
  forall n s pw nw,
    List.length s <= n ->
    sub_from re repl 0 pw s nw = s
    \/ exists s0 out0 t,
         s = s0 ++ lit re ++ t
         /\ sub_from re repl 0 pw s nw = out0 ++ repl ++ t.
Proof.
  induction n as [|n IH]; intros s pw nw Hn.
  - destruct s; [now left|cbn in Hn; lia].
  - destruct s as [|c s]; [now left|].
    destruct (matches_at re pw (c :: s) nw) eqn:M.
    + destruct (matches_at_lit _ _ _ _ M) as [HL _].
      destruct (sub_hit re repl _ _ _ M) as [rest [E Hs]].
      assert (Hr : List.length rest <= n).
      { apply (f_equal (@List.length N)) in E.
        rewrite List.length_app in E. cbn [List.length] in E, Hn.
        destruct (lit re); [contradiction|]. cbn [List.length] in E. lia. }
      right.
      destruct (IH rest (last_word (lit re) pw) nw Hr)
        as [E' | [s0 [out0 [t [E' Hs']]]]].
      * exists [], [], rest. rewrite Hs, E'. now split.
      * exists (lit re ++ s0), (repl ++ out0), t.
        rewrite Hs, Hs', E, <- !app_assoc. split; [|reflexivity].
        now rewrite E' at 1.
    + rewrite (sub_miss _ _ _ _ _ _ M).
      cbn [List.length] in Hn.
      destruct (IH s (is_word c) nw ltac:(lia))
        as [E | [s0 [out0 [t [E Hs]]]]].
      * left. now rewrite E.
      * right. exists (c :: s0), (c :: out0), t. rewrite Hs.
        split; [|reflexivity]. now rewrite E at 1.
Qed.

(** No stop text stands at the end of the output when none stood at the
    end of the input. *)
Lemma sub_kept_left (re : regex) (repl : text) (stops : list text) :
  forallb (kept_left (lit re) repl stops) stops = true ->
  forall s pw nw,
    (forall q, In q stops -> ends_with q s = false) ->
    forall p, In p stops -> ends_with p (sub_from re repl 0 pw s nw) = false.
Proof.
  rewrite forallb_forall. intros K s pw nw Hs p Hp.
  destruct (sub_last_match re repl _ s pw nw (le_n _))
    as [E | [s0 [out0 [t [E Hsub]]]]]; [rewrite E; now apply Hs|].
  destruct (ends_with p (sub_from re repl 0 pw s nw)) eqn:W; [|reflexivity].
  exfalso. rewrite Hsub in W. apply ends_with_split in W as [a Ea].
  rewrite app_assoc in Ea.
  apply app_eq_app_split in Ea as [[m [Ha Et]] | [m [Hm [Eo Ep]]]].
  - specialize (Hs p Hp). rewrite E, Et, !app_assoc, ends_with_end in Hs.
    discriminate.
  - specialize (K p Hp). unfold kept_left in K. rewrite forallb_forall in K.
    specialize (K (m, t) (proj2 (in_splits _ _ _) Ep)). cbn [fst snd] in K.
    assert (C : compat (rev m) (rev repl) = true).
    { apply (f_equal (@rev N)) in Eo. rewrite !rev_app_distr in Eo.
      now apply eq_sym, compat_app in Eo. }
    rewrite (nonempty_true _ Hm), C in K. cbn [andb implb] in K.
    apply existsb_exists in K as [q [Hq Hend]].
    specialize (Hs q Hq). rewrite E in Hs.
    rewrite (ends_with_app q s0 _ Hend) in Hs. discriminate.
Qed.

(** No stop text stands at the beginning of the output when none stood
    at the beginning of the input. *)
Lemma sub_kept_right (re : regex) (repl : text) (stops : list text) :
  forallb (kept_right (lit re) repl stops) stops = true ->
  forall s pw nw,
    (forall q, In q stops -> starts_with q s = false) ->
    forall p, In p stops -> starts_with p (sub_from re repl 0 pw s nw) = false.
Proof.
  rewrite forallb_forall. intros K s pw nw Hs p Hp.
  destruct (sub_first_match re repl s pw nw)
    as [E | [u [rest [out [E Hsub]]]]]; [rewrite E; now apply Hs|].
  destruct (starts_with p (sub_from re repl 0 pw s nw)) eqn:W; [|reflexivity].
  exfalso. rewrite Hsub in W. apply starts_with_split in W as [b Eb].
  apply app_eq_app_split in Eb as [[m [Ep Er]] | [m [Hm [Eu _]]]].
  - destruct m as [|c m].
    + rewrite app_nil_r in Ep. subst p.
      specialize (Hs u Hp). rewrite E, starts_with_app in Hs. discriminate.
    + specialize (K p Hp). unfold kept_right in K.
      rewrite forallb_forall in K.
      specialize (K (u, c :: m) (proj2 (in_splits _ _ _) Ep)).
      cbn [fst snd nonempty andb] in K.
      assert (C : compat (c :: m) repl = true)
        by (now apply eq_sym, compat_app in Er).
      rewrite C in K. cbn [implb] in K.
      apply existsb_exists in K as [q [Hq Hst]].
      specialize (Hs q Hq). rewrite E, app_assoc in Hs.
      rewrite (starts_with_app_r q _ rest Hst) in Hs. discriminate.
  - specialize (Hs p Hp). rewrite E, Eu, <- app_assoc, starts_with_app in Hs.
    discriminate.
Qed.

Lemma span_ok_same_ends (f g : N -> bool) (lstops rstops : list text)
  (ctxs : list (bool * bool)) (st : stage) (y y' : text) :
  span_ok f g lstops rstops ctxs st y y' = true -> same_ends y y' = true.
Proof.
  unfold span_ok; intros H.
  do 9 (apply andb_true_iff in H as [H _]). exact H.
Qed.

Lemma span_ok_stage (f g : N -> bool) (lstops rstops : list text)
  (ctxs : list (bool * bool)) (st : stage) (y y' pre post : text) :
  span_ok f g lstops rstops ctxs st y y' = true ->
  amid f g lstops rstops ctxs pre post ->
  run_stage st (pre ++ y ++ post)
  = sub_from (fst st) (snd st) 0 false pre (headb is_word y false)
    ++ y'
    ++ sub_from (fst st) (snd st) 0 (lastb is_word y false) post false
  /\ amid f g lstops rstops ctxs
       (sub_from (fst st) (snd st) 0 false pre (headb is_word y false))
       (sub_from (fst st) (snd st) 0 (lastb is_word y false) post false).
Proof.
  intros H [Hf [Hg [Hpre [Hpost Hctx]]]].
  destruct (same_ends_spec _ _ (span_ok_same_ends _ _ _ _ _ _ _ _ H))
    as [Hy _].
  unfold span_ok in H.
  do 9 (let X := fresh "H" in apply andb_true_iff in H as [H X]).
  rewrite forallb_forall in H0. specialize (H0 _ Hctx).
  apply text_eqb_eq in H0. cbn [fst snd] in H0.
  pose proof (no_straddle_left_of f lstops _ y pre post H4 Hf Hpre) as NL.
  pose proof (no_straddle_right_of g rstops _ y pre post H3 Hg Hpost) as NR.
  split.
  - unfold run_stage. rewrite app_assoc.
    rewrite (sub_app _ _ _ _ _ _ NR).
    rewrite (sub_app _ _ _ _ _ _ (no_straddle_weaken _ _ _ _ NL)).
    rewrite H0, <- app_assoc.
    rewrite (last_word_piece pre y false Hy).
    rewrite (head_word_piece y (head_word post false) Hy). reflexivity.
  - repeat split.
    + now rewrite (lastb_sub _ _ _ H8).
    + now rewrite (headb_sub _ _ _ H7).
    + now apply sub_kept_left.
    + now apply sub_kept_right.
    + now rewrite (last_word_sub _ _ H6), (head_word_sub _ _ H5).
Qed.

Lemma span_chain_stages (f g : N -> bool) (lstops rstops : list text)
  (ctxs : list (bool * bool)) :
  forall sts y z pre post,
    span_chain f g lstops rstops ctxs sts y = Some z ->
    amid f g lstops rstops ctxs pre post ->
    run_stages sts (pre ++ y ++ post)
    = scan_in false (headb is_word y false) sts pre
      ++ z
      ++ scan_in (lastb is_word y false) false sts post
    /\ amid f g lstops rstops ctxs
         (scan_in false (headb is_word y false) sts pre)
         (scan_in (lastb is_word y false) false sts post).
Proof.
  induction sts as [|st sts IH]; intros y z pre post H Har.
  - inversion H; subst. now split.
  - cbn [span_chain] in H.
    destruct (span_ok f g lstops rstops ctxs st y (mid_step ctxs st y))
      eqn:Hok; [|discriminate].
    destruct (span_ok_stage _ _ _ _ _ _ _ _ _ _ Hok Har) as [E Har'].
    destruct (same_ends_spec _ _ (span_ok_same_ends _ _ _ _ _ _ _ _ Hok))
      as [_ [_ [Hh Hl]]].
    destruct (IH _ _ _ _ H Har') as [E' Har''].
    rewrite Hh, Hl in E', Har''.
    rewrite run_stages_cons, E. split; assumption.
Qed.

Lemma ends_with_any_false (ps : list string) (s : text) :
  ends_with_any ps s = false ->
  forall p, In p (map codes ps) -> ends_with p s = false.
Proof.
  unfold ends_with_any. intros H p Hp.
  apply in_map_iff in Hp as [q [<- Hq]].
  destruct (ends_with (codes q) s) eqn:E; [|reflexivity].
  assert (X : existsb (fun p => ends_with (codes p) s) ps = true).
  { apply existsb_exists. now exists q. }
  congruence.
Qed.

Lemma ends_with_any_intro (ps : list string) (s : text) :
  (forall p, In p (map codes ps) -> ends_with p s = false) ->
  ends_with_any ps s = false.
Proof.
  unfold ends_with_any. intros H.
  destruct (existsb _ ps) eqn:E; [|reflexivity].
  apply existsb_exists in E as [q [Hq Hs]].
  rewrite (H (codes q) (in_map codes _ _ Hq)) in Hs. discriminate.
Qed.

Lemma starts_with_any_false (ps : list string) (s : text) :
  starts_with_any ps s = false ->
  forall p, In p (map codes ps) -> starts_with p s = false.
Proof.
  unfold starts_with_any. intros H p Hp.
  apply in_map_iff in Hp as [q [<- Hq]].
  destruct (starts_with (codes q) s) eqn:E; [|reflexivity].
  assert (X : existsb (fun p => starts_with (codes p) s) ps = true).
  { apply existsb_exists. now exists q. }
  congruence.
Qed.

Lemma starts_with_any_intro (ps : list string) (s : text) :
  (forall p, In p (map codes ps) -> starts_with p s = false) ->
  starts_with_any ps s = false.
Proof.
  unfold starts_with_any. intros H.
  destruct (existsb _ ps) eqn:E; [|reflexivity].
  apply existsb_exists in E as [q [Hq Hs]].
  rewrite (H (codes q) (in_map codes _ _ Hq)) in Hs. discriminate.
Qed.

Lemma amid_backgrounds (pre post : text) :
  ends_with_any backgrounds_before pre = false ->
  starts_with_any backgrounds_behind post = false ->
  amid no_char no_char (map codes backgrounds_before)
    (map codes backgrounds_behind) all_contexts pre post.
Proof.
  intros Hp Hq. repeat split.
  - apply lastb_no_char.
  - apply headb_no_char.
  - now apply ends_with_any_false.
  - now apply starts_with_any_false.
  - unfold all_contexts.
    destruct (last_word pre false), (head_word post false); cbn; auto.
Qed.

(** ** Collisions of dark backgrounds *)

Lemma collision_chain :
  forallb
    (fun pair =>
       match span_chain no_char no_char (map codes backgrounds_before)
               (map codes backgrounds_behind) all_contexts stages
               (codes pair) with
       | Some z => text_eqb z (codes "dark:bg-black")
       | None => false
       end
       && headb is_word (codes pair) false
       && lastb is_word (codes pair) false)
    [ "dark:bg-black dark:bg-gray-800"; "dark:bg-gray-800 dark:bg-black" ]%string
  = true.
Proof. vm_compute. reflexivity. Qed.

Lemma collision_behind_light_chain :
  forallb
    (fun t =>
       match span_chain is_word no_char [] (map codes backgrounds_behind)
               [(false, true); (false, false)] stages
               (codes (fst (fst t)) ++ codes " " ++ codes (snd (fst t))) with
       | Some z => text_eqb z (codes (snd t))
       | None => false
       end
       && headb is_word
            (codes (fst (fst t)) ++ codes " " ++ codes (snd (fst t))) false
       && lastb is_word
            (codes (fst (fst t)) ++ codes " " ++ codes (snd (fst t))) false)
    resolved_behind_light
  = true.
Proof. vm_compute. reflexivity. Qed.

Lemma amid_whole_word_before (pre post : text) :
  last_word pre false = false ->
  starts_with_any backgrounds_behind post = false ->
  amid is_word no_char [] (map codes backgrounds_behind)
    [(false, true); (false, false)] pre post.
Proof.
  intros Hp Hq. repeat split.
  - now rewrite <- last_word_lastb.
  - apply headb_no_char.
  - intros p [].
  - now apply starts_with_any_false.
  - rewrite Hp. destruct (head_word post false); cbn; auto.
Qed.

(** C4 (amended).  For every input text in which the pair
    [dark:bg-black dark:bg-gray-800] or [dark:bg-gray-800 dark:bg-black]
    stands, among any other classes and characters, with none of
    [dark:bg-black], [dark:bg-gray-800], [dark:bg-gray-700] directly
    behind it (after a space):  when no background token of the table
    stands directly before it ([bg-white], [bg-gray-100],
    [dark:bg-black], [dark:bg-gray-800] or [dark:bg-gray-700], then a
    space), the text [update_file] computes has the single token
    [dark:bg-black] in its place, between what the pipeline makes of
    the text before and of the text behind, and again with none of
    these tokens directly before or behind it;  and when the pair
    stands behind the light background [bg-white] or [bg-gray-100] (a
    whole word), the colliding pair is gone as well and [dark:bg-black]
    is what stays behind the light token (twice behind [bg-white] for
    the pair that begins with [dark:bg-gray-800]). *)
Theorem collision_resolved_to_black (pair : string) (pre post : text) :
  In pair [ "dark:bg-black dark:bg-gray-800";
            "dark:bg-gray-800 dark:bg-black" ]%string ->
  starts_with_any backgrounds_behind post = false ->
  (ends_with_any backgrounds_before pre = false ->
   update_text (pre ++ codes pair ++ post)
   = before_word pre ++ codes "dark:bg-black" ++ after_word post
   /\ ends_with_any backgrounds_before (before_word pre) = false
   /\ starts_with_any backgrounds_behind (after_word post) = false)
  /\ (forall light result,
        In (light, pair, result) resolved_behind_light ->
        last_word pre false = false ->
        update_text (pre ++ (codes light ++ codes " " ++ codes pair) ++ post)
        = update_text pre ++ codes result ++ after_word post).
Proof.
  intros Hin Hpost. split.
  - intros Hpre. rewrite update_text_stages.
    pose proof collision_chain as K. rewrite forallb_forall in K.
    specialize (K _ Hin). cbv beta in K.
    apply andb_true_iff in K as [K El]. apply andb_true_iff in K as [K Eh].
    destruct (span_chain no_char no_char _ _ all_contexts stages (codes pair))
      as [z|] eqn:C; [|discriminate].
    apply text_eqb_eq in K; subst z.
    destruct (span_chain_stages _ _ _ _ _ _ _ _ pre post C
                (amid_backgrounds pre post Hpre Hpost))
      as [E [_ [_ [Hl [Hr _]]]]].
    rewrite Eh, El in E. rewrite Eh in Hl. rewrite El in Hr.
    split; [exact E|]. split.
    + now apply ends_with_any_intro.
    + now apply starts_with_any_intro.
  - intros light result Ht Hpre.
    rewrite <- (before_word_alone pre Hpre).
    rewrite update_text_stages.
    pose proof collision_behind_light_chain as K.
    rewrite forallb_forall in K.
    specialize (K _ Ht). cbv beta in K. cbn [fst snd] in K.
    apply andb_true_iff in K as [K El]. apply andb_true_iff in K as [K Eh].
    destruct (span_chain is_word no_char [] _ _ stages
                (codes light ++ codes " " ++ codes pair))
      as [z|] eqn:C; [|discriminate].
    apply text_eqb_eq in K; subst z.
    destruct (span_chain_stages _ _ _ _ _ _ _ _ pre post C
                (amid_whole_word_before pre post Hpre Hpost)) as [E _].
    rewrite Eh, El in E. exact E.
Qed.

(** ** The standardization rule *)

Lemma match_here_literal_any (t : text) :
  forall s pw nw pw' nw',
    match_here (literal t) pw s nw = match_here (literal t) pw' s nw'.
Proof.
  induction t as [|c t IH]; intros s pw nw pw' nw'; [reflexivity|].
  cbn [literal map match_here]. destruct s as [|x s]; [reflexivity|].
  destruct (N.eqb x c); [|reflexivity].
  f_equal. apply IH.
Qed.

(** A pattern without [\b] does not see what stands around the text. *)
Lemma sub_from_literal_any (t repl : text) :
  forall s skip pw nw pw' nw',
    sub_from (literal t) repl skip pw s nw
    = sub_from (literal t) repl skip pw' s nw'.
Proof.
  induction s as [|c s IH]; intros skip pw nw pw' nw'; [reflexivity|].
  cbn [sub_from]. destruct skip as [|k]; [|apply IH].
  rewrite (match_here_literal_any t (c :: s) pw nw pw' nw').
  destruct (match_here (literal t) pw' (c :: s) nw') as [[|k]|];
    now rewrite (IH _ (is_word c) nw (is_word c) nw').
Qed.

Lemma rename_pattern :
  re_compile (fst rename_rule) = literal (codes "dark:bg-gray-700").
Proof. vm_compute. reflexivity. Qed.

Lemma rename_in_place :
  mid_ok no_char no_char all_contexts (compile_rule rename_rule)
    (codes "dark:bg-gray-700") (codes "dark:bg-gray-800")
  = true.
Proof. vm_compute. reflexivity. Qed.

Lemma rename_reached :
  forallb (keeps_count (codes "dark:bg-gray-700"))
    (map compile_rule (firstn 15 replacements))
  = true.
Proof. vm_compute. reflexivity. Qed.

Lemma rename_chain :
  span_chain no_char no_char (map codes backgrounds_before)
    (map codes backgrounds_behind) all_contexts stages
    (codes "dark:bg-gray-700")
  = Some (codes "dark:bg-gray-800").
Proof. vm_compute. reflexivity. Qed.

Lemma rename_behind_light_chain :
  span_chain is_word no_char [] (map codes backgrounds_behind)
    [(false, true); (false, false)] stages
    (codes "bg-gray-100 dark:bg-gray-700")
  = Some (codes "bg-gray-100 dark:bg-gray-800 dark:bg-gray-800").
Proof. vm_compute. reflexivity. Qed.

Lemma rename_behind_light_ends :
  headb is_word (codes "bg-gray-100 dark:bg-gray-700") false = true
  /\ lastb is_word (codes "bg-gray-100 dark:bg-gray-700") false = true.
Proof. split; vm_compute; reflexivity. Qed.

Lemma rename_ends :
  headb is_word (codes "dark:bg-gray-700") false = true
  /\ lastb is_word (codes "dark:bg-gray-700") false = true.
Proof. split; vm_compute; reflexivity. Qed.

Lemma no_gray_700_remains (s : text) :
  ~ occurs (codes "dark:bg-gray-700") (update_text s).
Proof.
  rewrite update_text_stages.
  change stages with
    (firstn 15 stages
     ++ [(literal (codes "dark:bg-gray-700"), codes "dark:bg-gray-800")]
     ++ skipn 16 stages).
  rewrite !run_stages_app.
  apply (run_stages_invariant
           (fun t => ~ occurs (codes "dark:bg-gray-700") t)
           (never_made (codes "dark:bg-gray-700"))).
  - intros st t Hok Ht. apply run_stage_no_new; [discriminate|assumption..].
  - vm_compute; reflexivity.
  - apply sub_removes; [discriminate|vm_compute; reflexivity..].
Qed.

(** C5 (amended).  The standardization rule renames the token.  The
    rule itself, on any text, puts [dark:bg-gray-800] in the place of an
    occurrence of [dark:bg-gray-700] and treats the text before and the
    text behind on their own; the occurrences of the input all reach the
    rule, for no earlier rule removes one; and the text [update_file]
    computes contains no [dark:bg-gray-700].  In that text the renamed
    token [dark:bg-gray-800] stands in the place of the occurrence when
    no background token of the table stands directly before or behind
    the occurrence, and also behind the light background [bg-gray-100]
    (which gets its own [dark:bg-gray-800] first); next to
    [dark:bg-black] the collision rules remove it. *)
Theorem gray_700_is_renamed_to_gray_800 :
  (forall a b,
      apply_rule (a ++ codes "dark:bg-gray-700" ++ b) rename_rule
      = apply_rule a rename_rule
        ++ codes "dark:bg-gray-800"
        ++ apply_rule b rename_rule)
  /\ (forall s,
        occurrences (codes "dark:bg-gray-700") s
        <= occurrences (codes "dark:bg-gray-700")
             (apply_rules (firstn 15 replacements) s))
  /\ (forall s, ~ occurs (codes "dark:bg-gray-700") (update_text s))
  /\ (forall pre post,
        ends_with_any backgrounds_before pre = false ->
        starts_with_any backgrounds_behind post = false ->
        update_text (pre ++ codes "dark:bg-gray-700" ++ post)
        = before_word pre ++ codes "dark:bg-gray-800" ++ after_word post)
  /\ (forall pre post,
        last_word pre false = false ->
        starts_with_any backgrounds_behind post = false ->
        update_text (pre ++ codes "bg-gray-100 dark:bg-gray-700" ++ post)
        = update_text pre
          ++ codes "bg-gray-100 dark:bg-gray-800 dark:bg-gray-800"
          ++ after_word post).
Proof.
  destruct rename_ends as [Eh El].
  split; [|split; [|split; [|split]]].
  - intros a b. rewrite !apply_rule_stage.
    destruct (mid_ok_stage _ _ _ _ _ _ a b rename_in_place (around_any a b))
      as [E _].
    rewrite Eh, El in E. rewrite E. unfold run_stage.
    rewrite !compile_rule_fst, rename_pattern.
    rewrite (sub_from_literal_any _ _ a 0 false true false false).
    rewrite (sub_from_literal_any _ _ b 0 true false false false).
    reflexivity.
  - intros s. unfold apply_rules. rewrite fold_left_map_stage.
    apply (run_stages_invariant
             (fun t => occurrences (codes "dark:bg-gray-700") s
                       <= occurrences (codes "dark:bg-gray-700") t)
             (keeps_count (codes "dark:bg-gray-700")));
      [|exact rename_reached|apply le_n].
    intros st t Hok Ht.
    pose proof (run_stage_occurrences _ _ t Hok). lia.
  - exact no_gray_700_remains.
  - intros pre post Hpre Hpost. rewrite update_text_stages.
    destruct (span_chain_stages _ _ _ _ _ _ _ _ pre post rename_chain
                (amid_backgrounds pre post Hpre Hpost)) as [E _].
    rewrite Eh, El in E. exact E.
  - intros pre post Hpre Hpost.
    rewrite <- (before_word_alone pre Hpre).
    rewrite update_text_stages.
    destruct (span_chain_stages _ _ _ _ _ _ _ _ pre post
                rename_behind_light_chain
                (amid_whole_word_before pre post Hpre Hpost)) as [E _].
    destruct rename_behind_light_ends as [Eh' El'].
    rewrite Eh', El' in E. exact E.
Qed.

(** ** A light token behind the prefix [dark:] *)

Lemma pairing_rules_behind_dark :
  forallb
    (fun p =>
       existsb
         (fun r => String.eqb (fst r) (fst (pairing_rule (fst p) (snd p)))
                   && String.eqb (snd r) (snd (pairing_rule (fst p) (snd p))))
         replacements
       && mid_ok no_char is_word [(true, false); (false, false)]
            (compile_rule (pairing_rule (fst p) (snd p)))
            (codes "dark:" ++ codes (fst p))
            (codes "dark:" ++ codes (fst p) ++ codes " " ++ codes (snd p))
       && headb is_word (codes "dark:" ++ codes (fst p)) false
       && lastb is_word (codes "dark:" ++ codes (fst p)) false)
    dark_of
  = true.
Proof. vm_compute. reflexivity. Qed.

Lemma behind_dark_chain :
  forallb
    (fun p =>
       match span_chain no_char is_word []
               (if existsb (String.eqb (fst p)) cleanup_lights
                then [codes " dark:"] else [])
               [(true, false); (false, false)] stages
               (codes "dark:" ++ codes (fst p)) with
       | Some z =>
           text_eqb z
             (codes "dark:" ++ codes (fst p) ++ codes " " ++ codes (snd p))
       | None => false
       end)
    dark_of
  = true.
Proof. vm_compute. reflexivity. Qed.

Lemma in_replacements (r : string * string) :
  existsb (fun r' => String.eqb (fst r') (fst r) && String.eqb (snd r') (snd r))
    replacements = true ->
  In r replacements.
Proof.
  intros H. apply existsb_exists in H as [r' [Hin H]].
  apply andb_true_iff in H as [H1 H2].
  apply String.eqb_eq in H1, H2. destruct r, r'. cbn [fst snd] in *.
  now subst.
Qed.

(** C9.  The colon is a word boundary, so each of the eleven pairing
    rules also fires when its light token stands directly behind the
    prefix [dark:] (and what follows the token, if anything, does not
    begin with a word character): the rule, which is in the table,
    copies [dark:] and the token and writes a space and the dark
    counterpart behind them, whatever the rest of the text is.  And the
    text [update_file] computes has the token with [dark:] before it and
    its dark counterpart behind it in the place of the occurrence,
    between what the pipeline makes of the text before and of the text
    behind; only for [bg-white], [bg-gray-100] and [text-gray-900],
    whose dark counterparts the cleanup rules know, this needs that no
    further dark token follows directly.  So [dark:bg-gray-50] becomes
    [dark:bg-gray-50 dark:bg-gray-900] in every text. *)
Theorem pairing_fires_inside_dark_token (light dark : string)
  (pre post : text) :
  In (light, dark) dark_of ->
  head_word post false = false ->
  In (pairing_rule light dark) replacements
  /\ apply_rule (pre ++ (codes "dark:" ++ codes light) ++ post)
       (pairing_rule light dark)
     = sub_from (re_compile (fst (pairing_rule light dark)))
         (codes (snd (pairing_rule light dark))) 0 false pre true
       ++ (codes "dark:" ++ codes light ++ codes " " ++ codes dark)
       ++ sub_from (re_compile (fst (pairing_rule light dark)))
            (codes (snd (pairing_rule light dark))) 0 true post false
  /\ ((In light cleanup_lights ->
       starts_with (codes " dark:") post = false) ->
      update_text (pre ++ (codes "dark:" ++ codes light) ++ post)
      = before_word pre
        ++ (codes "dark:" ++ codes light ++ codes " " ++ codes dark)
        ++ after_word post
      /\ head_word (after_word post) false = false).
Proof.
  intros Hin Hpost.
  pose proof pairing_rules_behind_dark as K. rewrite forallb_forall in K.
  specialize (K _ Hin). cbv beta in K. cbn [fst snd] in K.
  apply andb_true_iff in K as [K El]. apply andb_true_iff in K as [K Eh].
  apply andb_true_iff in K as [Kin Kok].
  assert (Hctx : In (last_word pre false, head_word post false)
                    [(true, false); (false, false)]).
  { rewrite Hpost. destruct (last_word pre false); cbn; auto. }
  assert (Hg : headb is_word post false = false)
    by (now rewrite <- head_word_headb).
  split; [now apply in_replacements|]. split.
  - rewrite apply_rule_stage.
    destruct (mid_ok_stage _ _ _ _ _ _ pre post Kok) as [E _].
    + repeat split; [apply lastb_no_char|exact Hg|exact Hctx].
    + rewrite Eh, El in E. rewrite E.
      rewrite compile_rule_fst, compile_rule_snd. reflexivity.
  - intros Hstop. rewrite update_text_stages.
    pose proof behind_dark_chain as C. rewrite forallb_forall in C.
    specialize (C _ Hin). cbv beta in C. cbn [fst snd] in C.
    destruct (span_chain no_char is_word [] _ _ stages
                (codes "dark:" ++ codes light)) as [z|] eqn:Ez;
      [|discriminate].
    apply text_eqb_eq in C; subst z.
    destruct (span_chain_stages _ _ _ _ _ _ _ _ pre post Ez)
      as [E [_ [Hh _]]].
    + repeat split;
        [apply lastb_no_char|exact Hg|intros p []| |exact Hctx].
      destruct (existsb (String.eqb light) cleanup_lights) eqn:M;
        [|intros p []].
      intros p [<- | []]. apply Hstop.
      apply existsb_exists in M as [x [Hx Ex]].
      apply String.eqb_eq in Ex. now subst.
    + rewrite Eh, El in E. rewrite El in Hh.
      rewrite <- head_word_headb in Hh.
      split; assumption.
Qed.

End Rewriter.

(* ================================================================= *)
(** * The word table

    The pipeline consults the table of word characters only for the
    characters of the text it runs on. *)

Section Tables.

Variables u1 u2 : N -> bool.

Lemma is_word_ascii (c : N) :
  (c <? 128)%N = true -> is_word u1 c = is_word u2 c.
Proof. unfold is_word. now intros ->. Qed.

Lemma match_here_tables (re : regex) :
  forall pw s nw,
    (forall c, In c s -> is_word u1 c = is_word u2 c) ->
    match_here u1 re pw s nw = match_here u2 re pw s nw.
Proof.
  induction re as [|[c|] re IH]; intros pw s nw H; [reflexivity| |].
  - cbn [match_here]. destruct s as [|x s]; [reflexivity|].
    rewrite (H x (or_introl eq_refl)).
    rewrite (IH _ s nw (fun d Hd => H d (or_intror Hd))). reflexivity.
  - cbn [match_here]. rewrite (IH pw s nw H).
    destruct s as [|x s]; [reflexivity|].
    cbn [head_word]. now rewrite (H x (or_introl eq_refl)).
Qed.

Lemma sub_from_tables (re : regex) (repl : text) (nw : bool) :
  forall s skip pw,
    (forall c, In c s -> is_word u1 c = is_word u2 c) ->
    sub_from u1 re repl skip pw s nw = sub_from u2 re repl skip pw s nw.
Proof.
  induction s as [|c s IH]; intros skip pw H; [reflexivity|].
  cbn [sub_from].
  rewrite (match_here_tables re pw (c :: s) nw H).
  rewrite (H c (or_introl eq_refl)).
  assert (H' : forall d, In d s -> is_word u1 d = is_word u2 d).
  { intros d Hd. apply H. now right. }
  destruct skip as [|k]; [|now apply IH].
  destruct (match_here u2 re pw (c :: s) nw) as [[|k]|]; now rewrite IH.
Qed.

(** The scan writes characters of the text and of the replacement
    only. *)
Lemma sub_from_chars (u : N -> bool) (re : regex) (repl : text) (nw : bool)
  (d : N) :
  forall s skip pw,
    In d (sub_from u re repl skip pw s nw) -> In d s \/ In d repl.
Proof.
  induction s as [|c s IH]; intros skip pw H; [contradiction|].
  cbn [sub_from] in H. destruct skip as [|k].
  - destruct (match_here u re pw (c :: s) nw) as [[|k]|].
    + destruct H as [<- | H]; [left; now left|].
      destruct (IH _ _ H) as [G|G]; [left; now right|now right].
    + apply in_app_or in H as [H|H]; [now right|].
      destruct (IH _ _ H) as [G|G]; [left; now right|now right].
    + destruct H as [<- | H]; [left; now left|].
      destruct (IH _ _ H) as [G|G]; [left; now right|now right].
  - destruct (IH _ _ H) as [G|G]; [left; now right|now right].
Qed.

Lemma replacements_ascii :
  forallb (fun st => forallb (fun c => (c <? 128)%N) (snd st)) stages = true.
Proof. vm_compute. reflexivity. Qed.

Lemma run_stages_tables :
  forall sts s,
    forallb (fun st => forallb (fun c => (c <? 128)%N) (snd st)) sts = true ->
    (forall c, In c s -> is_word u1 c = is_word u2 c) ->
    run_stages u1 sts s = run_stages u2 sts s.
Proof.
  induction sts as [|st sts IH]; intros s Hok H; [reflexivity|].
  cbn [forallb] in Hok. apply andb_true_iff in Hok as [Hst Hok].
  rewrite !run_stages_cons. unfold run_stage.
  rewrite (sub_from_tables _ _ _ s 0 false H).
  apply IH; [assumption|]. intros c Hc.
  apply sub_from_chars in Hc as [Hc|Hc]; [now apply H|].
  rewrite forallb_forall in Hst. now apply is_word_ascii, Hst.
Qed.

(** X18.  The patterns are [str] patterns, so [\b] follows the Unicode
    table of word characters; the output depends on that table only
    through the characters of the text.  Two tables that agree on the
    characters of the text outside ASCII give the same output; for an
    ASCII text the table does not matter. *)
Theorem update_text_reads_table_at_text_only (s : text) :
  (forall c, In c s -> (128 <= c)%N -> u1 c = u2 c) ->
  update_text u1 s = update_text u2 s.
Proof.
  intros H. rewrite (update_text_stages u1 s), (update_text_stages u2 s).
  apply run_stages_tables; [exact replacements_ascii|].
  intros c Hc. unfold is_word.
  destruct (N.ltb_spec c 128) as [Hlt|Hge]; [reflexivity|].
  now apply H.
Qed.

End Tables.

(* ================================================================= *)
(** * Concrete runs

    The runs below use a word table with no word characters outside
    ASCII and a codec that stores one code point per byte; the texts are
    ASCII, so neither choice affects the results.  Paths name
    themselves ([no_links]), except in the run of [link_to_outside], a
    file system in which [src/link.tsx] is a symbolic link to
    [outside.txt]. *)


(** C3, as stated, fails: the hyphen is not a word character, so the
    rule matches inside [bg-white-ish] and the dark token is inserted in
    the middle of it. *)
Lemma bg_white_ish_is_rewritten :
  update_text ascii_only (codes "bg-white-ish")
  = codes "bg-white dark:bg-black-ish".
Proof. vm_compute; reflexivity. Qed.

(** C4, as stated, fails: with further [dark:bg-gray-800] tokens behind
    the pair, one run leaves the colliding pair in the output. *)
Lemma collision_survives_one_run :
  update_text ascii_only
    (codes "dark:bg-black dark:bg-gray-800 dark:bg-gray-800 dark:bg-gray-800")
  = codes "dark:bg-black dark:bg-gray-800".
Proof. vm_compute; reflexivity. Qed.

(** C5, as stated, fails: next to [dark:bg-black] the renamed token is
    removed by the collision rule, so no [dark:bg-gray-800] stands in
    the place of [dark:bg-gray-700]. *)
Lemma renamed_token_removed_by_collision_rule :
  update_text ascii_only (codes "dark:bg-gray-700 dark:bg-black")
  = codes "dark:bg-black"
  /\ occurrences (codes "dark:bg-gray-800") (codes "dark:bg-black") = 0.
Proof. split; vm_compute; reflexivity. Qed.

(** C8, as stated, fails: the run opens the link [src/link.tsx], and
    the file [outside.txt], whose name does not end with [.tsx], is read
    and written. *)
Lemma file_behind_a_link_is_rewritten :
  ends_with (codes ".tsx") (codes "outside.txt") = false
  /\ files
       (process_directory ascii_only byte_decode byte_encode link_to_outside
          (codes "src") [File (codes "link.tsx")]
          (mkWorld
             (fun q => if text_eqb q (codes "outside.txt")
                       then Some (mkFile (codes "bg-white") true true)
                       else None)
             [] [] None))
       (codes "outside.txt")
     = Some (mkFile (codes "bg-white dark:bg-black") true true).
Proof. split; vm_compute; reflexivity. Qed.


Lemma bg_white_rule_skips_inside_words_witness :
  head_word ascii_only (codes "ish") false = true
  /\ apply_rule ascii_only ([] ++ codes "bg-white" ++ codes "ish")
       ("\bbg-white\b", "bg-white dark:bg-black")%string
     = sub_from ascii_only (re_compile "\bbg-white\b")
         (codes "bg-white dark:bg-black") 0 false [] true
       ++ codes "bg-white"
       ++ sub_from ascii_only (re_compile "\bbg-white\b")
            (codes "bg-white dark:bg-black") 0 true (codes "ish") false.
Proof.
  split; [reflexivity|].
  apply (proj1 (bg_white_rule_skips_inside_words ascii_only [] (codes "ish"))).
  right; reflexivity.
Defined.

Lemma collision_resolved_to_black_witness :
  update_text ascii_only
    (codes "<p class=p-4 " ++ codes "dark:bg-gray-800 dark:bg-black"
     ++ codes " rounded>")
  = before_word ascii_only (codes "<p class=p-4 ") ++ codes "dark:bg-black"
    ++ after_word ascii_only (codes " rounded>")
  /\ ends_with_any backgrounds_before
       (before_word ascii_only (codes "<p class=p-4 ")) = false
  /\ starts_with_any backgrounds_behind
       (after_word ascii_only (codes " rounded>")) = false.
Proof.
  apply (proj1
           (collision_resolved_to_black ascii_only
              "dark:bg-gray-800 dark:bg-black"%string
              (codes "<p class=p-4 ") (codes " rounded>")
              (or_intror (or_introl eq_refl)) eq_refl)).
  reflexivity.
Defined.

Lemma pairing_fires_inside_dark_token_witness :
  update_text ascii_only
    (codes "<p class=" ++ (codes "dark:" ++ codes "bg-gray-50")
     ++ codes " p-4>")
  = before_word ascii_only (codes "<p class=")
    ++ (codes "dark:" ++ codes "bg-gray-50" ++ codes " "
        ++ codes "dark:bg-gray-900")
    ++ after_word ascii_only (codes " p-4>")
  /\ head_word ascii_only (after_word ascii_only (codes " p-4>")) false
     = false.
Proof.
  apply (proj2 (proj2
           (pairing_fires_inside_dark_token ascii_only
              "bg-gray-50"%string "dark:bg-gray-900"%string
              (codes "<p class=") (codes " p-4>")
              (or_intror (or_introl eq_refl)) eq_refl))).
  intros [H | [H | [H | []]]]; discriminate.
Defined.

Lemma light_token_never_deleted_witness :
  occurrences (codes "text-gray-700") (codes "a text-gray-700")
  <= occurrences (codes "text-gray-700")
       (update_text ascii_only (codes "a text-gray-700")).
Proof.
  apply (light_token_never_deleted ascii_only "text-gray-700"%string).
  do 5 right; left; reflexivity.
Defined.

Lemma update_file_writes_iff_changed_witness :
  stdout
    (update_file ascii_only byte_decode byte_encode no_links (codes "src/App.tsx")
       (mkWorld (fun _ => Some (mkFile (codes "bg-white") true true))
          [] [] None))
  = [] ++ [codes "Updated " ++ codes "src/App.tsx"].
Proof.
  destruct (update_file_writes_iff_changed ascii_only byte_decode byte_encode no_links
              (codes "src/App.tsx")
              (mkWorld (fun _ => Some (mkFile (codes "bg-white") true true))
                 [] [] None)
              (mkFile (codes "bg-white") true true) (codes "bg-white")
              eq_refl eq_refl eq_refl) as [_ [H _]].
  apply H.
  - vm_compute. discriminate.
  - reflexivity.
Defined.

Lemma read_error_ends_the_run_witness :
  exists e,
    update_file ascii_only byte_decode byte_encode no_links (codes "src/a.tsx")
      (update_files ascii_only byte_decode byte_encode no_links []
         (mkWorld (fun _ => None) [] [] None))
    = mkWorld
        (files (update_files ascii_only byte_decode byte_encode no_links []
                  (mkWorld (fun _ => None) [] [] None)))
        (stdout (update_files ascii_only byte_decode byte_encode no_links []
                   (mkWorld (fun _ => None) [] [] None)))
        (calls (update_files ascii_only byte_decode byte_encode no_links []
                  (mkWorld (fun _ => None) [] [] None))
         ++ [codes "src/a.tsx"])
        (Some e)
    /\ process_directory ascii_only byte_decode byte_encode no_links (codes "src")
         [File (codes "a.tsx")] (mkWorld (fun _ => None) [] [] None)
       = update_file ascii_only byte_decode byte_encode no_links (codes "src/a.tsx")
           (update_files ascii_only byte_decode byte_encode no_links []
              (mkWorld (fun _ => None) [] [] None)).
Proof.
  apply (read_error_ends_the_run ascii_only byte_decode byte_encode no_links
           (codes "src") [File (codes "a.tsx")]
           (mkWorld (fun _ => None) [] [] None) [] []).
  - vm_compute; reflexivity.
  - reflexivity.
  - left; reflexivity.
Defined.

Lemma process_directory_visits_tsx_files_witness :
  raised
    (process_directory ascii_only byte_decode byte_encode no_links
       (codes "src")
       [File (codes "a.tsx"); File (codes "b.css");
        Dir (codes "ui") [File (codes "c.tsx")]]
       (mkWorld (fun _ => Some (mkFile (codes "x") true true)) [] [] None))
  = None
  /\ calls
       (process_directory ascii_only byte_decode byte_encode no_links
          (codes "src")
          [File (codes "a.tsx"); File (codes "b.css");
           Dir (codes "ui") [File (codes "c.tsx")]]
          (mkWorld (fun _ => Some (mkFile (codes "x") true true))
             [] [] None))
     = calls (mkWorld (fun _ => Some (mkFile (codes "x") true true))
                [] [] None)
       ++ targets (codes "src")
            [File (codes "a.tsx"); File (codes "b.css");
             Dir (codes "ui") [File (codes "c.tsx")]].
Proof.
  destruct (process_directory_visits_tsx_files ascii_only byte_decode
              byte_encode no_links (codes "src")
              [File (codes "a.tsx"); File (codes "b.css");
               Dir (codes "ui") [File (codes "c.tsx")]]
              (mkWorld (fun _ => Some (mkFile (codes "x") true true))
                 [] [] None) eq_refl) as [_ [_ [H _]]].
  apply H.
  - vm_compute. constructor; [intros [E | []]; discriminate|].
    constructor; [intros []|constructor].
  - intros p _. exists (mkFile (codes "x") true true), (codes "x").
    repeat split; reflexivity.
Defined.

Lemma update_file_write_refused_witness :
  update_file ascii_only byte_decode byte_encode no_links (codes "src/App.tsx")
    (mkWorld (fun _ => Some (mkFile (codes "bg-white") true false))
       [] [] None)
  = mkWorld (fun _ => Some (mkFile (codes "bg-white") true false))
      [] ([] ++ [codes "src/App.tsx"]) (Some PermissionError).
Proof.
  apply (update_file_write_refused ascii_only byte_decode byte_encode no_links
           (codes "src/App.tsx")
           (mkWorld (fun _ => Some (mkFile (codes "bg-white") true false))
              [] [] None)
           (mkFile (codes "bg-white") true false) (codes "bg-white")).
  - reflexivity.
  - reflexivity.
  - reflexivity.
  - vm_compute. discriminate.
  - reflexivity.
Defined.

Lemma process_directory_completes_witness :
  raised
    (process_directory ascii_only byte_decode byte_encode no_links (codes "src")
       [File (codes "a.tsx"); File (codes "b.css")]
       (mkWorld (fun _ => Some (mkFile (codes "bg-white") true true))
          [] [] None))
  = None
  /\ calls
       (process_directory ascii_only byte_decode byte_encode no_links (codes "src")
          [File (codes "a.tsx"); File (codes "b.css")]
          (mkWorld (fun _ => Some (mkFile (codes "bg-white") true true))
             [] [] None))
     = [] ++ targets (codes "src") [File (codes "a.tsx"); File (codes "b.css")].
Proof.
  apply (process_directory_completes ascii_only byte_decode byte_encode no_links
           (codes "src") [File (codes "a.tsx"); File (codes "b.css")]
           (mkWorld (fun _ => Some (mkFile (codes "bg-white") true true))
              [] [] None)).
  - reflexivity.
  - vm_compute. repeat constructor. intros [].
  - intros p _. exists (mkFile (codes "bg-white") true true), (codes "bg-white").
    repeat split; reflexivity.
Defined.

Lemma process_directory_rewrites_files_witness :
  stdout
    (process_directory ascii_only byte_decode byte_encode no_links (codes "src")
       [File (codes "a.tsx"); File (codes "b.css")]
       (mkWorld (fun _ => Some (mkFile (codes "bg-white") true true))
          [] [] None))
  = [] ++ map (fun p => codes "Updated " ++ p)
            (filter
               (changes ascii_only byte_decode no_links
                  (mkWorld
                     (fun _ => Some (mkFile (codes "bg-white") true true))
                     [] [] None))
               (targets (codes "src")
                  [File (codes "a.tsx"); File (codes "b.css")])).
Proof.
  apply (process_directory_rewrites_files ascii_only byte_decode byte_encode no_links
           (codes "src") [File (codes "a.tsx"); File (codes "b.css")]
           (mkWorld (fun _ => Some (mkFile (codes "bg-white") true true))
              [] [] None)).
  - reflexivity.
  - vm_compute. repeat constructor. intros [].
  - intros p _. exists (mkFile (codes "bg-white") true true), (codes "bg-white").
    repeat split; reflexivity.
Defined.

Lemma main_stays_under_src_witness :
  files
    (main ascii_only byte_decode byte_encode no_links
       [Dir (codes "components") [File (codes "App.tsx")]]
       (mkWorld (fun _ => Some (mkFile (codes "bg-white") true true))
          [] [] None)) (codes "README.md")
  = Some (mkFile (codes "bg-white") true true).
Proof.
  apply (proj2
           (main_stays_under_src ascii_only byte_decode byte_encode no_links
              [Dir (codes "components") [File (codes "App.tsx")]]
              (mkWorld (fun _ => Some (mkFile (codes "bg-white") true true))
                 [] [] None) eq_refl eq_refl)
           (codes "README.md")).
  intros p Hp E. unfold no_links in E. subst p. discriminate.
Defined.

Lemma update_text_splits_at_separator_witness :
  update_text ascii_only (codes "bg-white" ++ 34%N :: codes "text-gray-900")
  = update_text ascii_only (codes "bg-white")
    ++ 34%N :: update_text ascii_only (codes "text-gray-900").
Proof.
  apply (update_text_splits_at_separator ascii_only 34%N
           (codes "bg-white") (codes "text-gray-900")).
  - reflexivity.
  - discriminate.
  - discriminate.
  - discriminate.
Defined.

Lemma update_text_keeps_foreign_chars_witness :
  occurrences [60%N] (update_text ascii_only (codes "<p class=bg-white>"))
  = occurrences [60%N] (codes "<p class=bg-white>").
Proof.
  apply (update_text_keeps_foreign_chars ascii_only 60%N
           (codes "<p class=bg-white>")).
  intros H.
  assert (E : existsb (N.eqb 60) table_chars = true).
  { apply existsb_exists. exists 60%N. split; [exact H | reflexivity]. }
  vm_compute in E. discriminate.
Defined.

Lemma settled_pair_is_kept_witness :
  update_text ascii_only
    (codes "<div class=" ++ codes "text-gray-900 dark:text-white"
     ++ codes " p-4>")
  = update_text ascii_only (codes "<div class=")
    ++ codes "text-gray-900 dark:text-white"
    ++ update_text ascii_only (codes " p-4>").
Proof.
  apply (settled_pair_is_kept ascii_only
           "text-gray-900 dark:text-white"%string " dark:text-white"%string
           (codes "<div class=") (codes " p-4>")).
  - right; left; reflexivity.
  - reflexivity.
  - reflexivity.
  - reflexivity.
Defined.

Lemma black_replaces_gray_behind_bg_white_witness :
  update_text ascii_only
    (codes "<div class=" ++ codes "bg-white dark:bg-gray-700" ++ codes " p-4>")
  = update_text ascii_only (codes "<div class=")
    ++ codes "bg-white dark:bg-black"
    ++ update_text ascii_only (codes " p-4>").
Proof.
  apply (black_replaces_gray_behind_bg_white ascii_only
           "bg-white dark:bg-gray-700"%string
           (codes "<div class=") (codes " p-4>")).
  - right; left; reflexivity.
  - reflexivity.
  - reflexivity.
  - reflexivity.
Defined.

Lemma paired_token_gets_second_dark_token_witness :
  update_text ascii_only
    (codes "<p class=" ++ (codes "text-gray-600" ++ codes " "
                           ++ codes "dark:text-gray-300") ++ codes ">")
  = update_text ascii_only (codes "<p class=")
    ++ (codes "text-gray-600" ++ codes " " ++ codes "dark:text-gray-300"
        ++ codes " " ++ codes "dark:text-gray-300")
    ++ update_text ascii_only (codes ">").
Proof.
  apply (paired_token_gets_second_dark_token ascii_only
           "text-gray-600"%string "dark:text-gray-300"%string
           (codes "<p class=") (codes ">")).
  - do 6 right; left; reflexivity.
  - discriminate.
  - discriminate.
  - reflexivity.
  - reflexivity.
  - reflexivity.
Defined.

Lemma no_file_is_visited_twice_witness :
  NoDup
    (targets (codes "src")
       [File (codes "App.tsx"); Dir (codes "ui") [File (codes "App.tsx")]]).
Proof.
  apply (no_file_is_visited_twice (codes "src")
           [File (codes "App.tsx"); Dir (codes "ui") [File (codes "App.tsx")]]).
  reflexivity.
Defined.

Lemma text_without_colour_name_is_kept_witness :
  update_text ascii_only (codes "<p class=bg-blue-500 dark:bg-blue-900>")
  = codes "<p class=bg-blue-500 dark:bg-blue-900>".
Proof.
  apply (text_without_colour_name_is_kept ascii_only
           (codes "<p class=bg-blue-500 dark:bg-blue-900>")).
  intros k [<- | [<- | [<- | []]]]; vm_compute; reflexivity.
Defined.

Lemma light_token_gets_dark_token_witness :
  update_text ascii_only
    (codes "<hr class=" ++ codes "border-gray-200" ++ codes " my-2>")
  = update_text ascii_only (codes "<hr class=")
    ++ (codes "border-gray-200" ++ codes " " ++ codes "dark:border-gray-700")
    ++ update_text ascii_only (codes " my-2>").
Proof.
  apply (light_token_gets_dark_token ascii_only
           "border-gray-200"%string "dark:border-gray-700"%string
           (codes "<hr class=") (codes " my-2>")).
  - do 8 right; left; reflexivity.
  - reflexivity.
  - reflexivity.
  - reflexivity.
Defined.

Lemma update_text_splits_between_separators_witness :
  update_text ascii_only (codes "<b class=bg-white>" ++ codes " text-gray-900")
  = update_text ascii_only (codes "<b class=bg-white>")
    ++ update_text ascii_only (codes " text-gray-900").
Proof.
  apply (update_text_splits_between_separators ascii_only
           (codes "<b class=bg-white>") (codes " text-gray-900")).
  - reflexivity.
  - reflexivity.
Defined.

Lemma dark_tokens_are_cleaned_up_witness :
  update_text ascii_only
    (codes "<b class=" ++ codes "dark:bg-black dark:bg-gray-700"
     ++ codes ">x</b>")
  = update_text ascii_only (codes "<b class=")
    ++ codes "dark:bg-black"
    ++ update_text ascii_only (codes ">x</b>").
Proof.
  apply (dark_tokens_are_cleaned_up ascii_only
           "dark:bg-black dark:bg-gray-700"%string "dark:bg-black"%string
           (codes "<b class=") (codes ">x</b>")).
  - do 4 right; left; reflexivity.
  - reflexivity.
  - reflexivity.
Defined.

Lemma failed_run_keeps_earlier_writes_witness :
  raised
    (process_directory ascii_only byte_decode byte_encode no_links (codes "src")
       [File (codes "a.tsx"); File (codes "b.tsx")]
       (mkWorld
          (fun p => if text_eqb p (codes "src/a.tsx")
                    then Some (mkFile (codes "bg-white") true true)
                    else None)
          [] [] None))
  = Some FileNotFoundError.
Proof.
  apply (failed_run_keeps_earlier_writes ascii_only byte_decode byte_encode no_links
           (codes "src") [File (codes "a.tsx"); File (codes "b.tsx")]
           (mkWorld
              (fun p => if text_eqb p (codes "src/a.tsx")
                        then Some (mkFile (codes "bg-white") true true)
                        else None)
              [] [] None)
           [codes "src/a.tsx"] [] (codes "src/b.tsx") FileNotFoundError).
  - reflexivity.
  - vm_compute. constructor; [intros [H | []]; discriminate|].
    constructor; [intros []|constructor].
  - reflexivity.
  - intros q [<- | []].
    exists (mkFile (codes "bg-white") true true), (codes "bg-white").
    repeat split; reflexivity.
  - vm_compute. reflexivity.
Defined.

Lemma update_text_reads_table_at_text_only_witness :
  update_text ascii_only (codes "bg-white")
  = update_text (fun _ => true) (codes "bg-white").
Proof.
  apply (update_text_reads_table_at_text_only ascii_only (fun _ => true)
           (codes "bg-white")).
  intros c Hc Hge. vm_compute in Hc.
  repeat (destruct Hc as [<- | Hc]; [lia|]). contradiction.
Defined.
